(** * RouteX real-time tracking: the client reconnection controller
      (hook [useTrackingSocket]), the admin tracking page's socket handler,
      and the server-side broadcast core.

    The client side is a shallow embedding of
    [frontend/src/hooks/useTrackingSocket.ts], [frontend/src/types/tracking.ts]
    and [frontend/src/admin/AdminTracking.tsx].  React refs become fields of a
    state record, the browser's WebSocket objects and [setTimeout] handles
    become an explicit store, and every callback the hook invokes is recorded
    in an effect log. *)

From Stdlib Require Import ZArith QArith Lia.
From stdpp Require Import base gmap sets list strings pretty.

Local Open Scope Z_scope.
Local Open Scope string_scope.
Local Open Scope list_scope.

(** ** [types/tracking.ts] *)

(** A JavaScript [number] holding a coordinate: an exact rational. *)
Definition number := Q.

#[export] Instance number_eq_dec : EqDecision number.
Proof. solve_decision. Defined.

Record DriverLocation := {
  lat : number;
  lng : number;
  address : string;
  timestamp : option string;
}.

#[export] Instance DriverLocation_eq_dec : EqDecision DriverLocation.
Proof. solve_decision. Defined.

Module ConnectionState.
Inductive t := connecting | connected | disconnected | error.

#[global] Instance eq_dec : EqDecision t.
Proof. solve_decision. Defined.
End ConnectionState.
Abbreviation ConnectionState := ConnectionState.t.

(** Incoming message: Server -> Client (broadcast).  The fields are those
    of the interface, [msg_lat] for [lat] and so on, told apart from the
    fields of [DriverLocation]; the optional [parcel_id] is an option. *)
Record DriverLocationMessage := {
  msg_driver_id : string;
  msg_lat : number;
  msg_lng : number;
  msg_address : string;
  msg_timestamp : string;
  msg_parcel_id : option Z;
}.

#[export] Instance DriverLocationMessage_eq_dec : EqDecision DriverLocationMessage.
Proof. solve_decision. Defined.

(** The union [IncomingMessage], discriminated by the [type] field. *)
Inductive IncomingMessage :=
| driver_location (m : DriverLocationMessage)
| subscribed (parcel_id : Z)
| unsubscribed (parcel_id : Z)
| tracking_ended (parcel_id : Z) (message : string)
| error_message (message : string).

#[export] Instance IncomingMessage_eq_dec : EqDecision IncomingMessage.
Proof. solve_decision. Defined.

(** The union [OutgoingMessage]. *)
Inductive OutgoingMessage :=
| location_update (lat lng : number) (address : string) (parcel_id : option Z)
| subscribe_parcel (parcel_id : Z)
| unsubscribe_parcel (parcel_id : Z).

#[export] Instance OutgoingMessage_eq_dec : EqDecision OutgoingMessage.
Proof. solve_decision. Defined.

(** ** The browser environment of the hook *)

(** [WebSocket.readyState]. *)
Inductive ReadyState := CONNECTING | OPEN | CLOSING | CLOSED.

#[export] Instance ReadyState_eq_dec : EqDecision ReadyState.
Proof. solve_decision. Defined.

(** What [localStorage.getItem('tokens')] followed by [JSON.parse] and the
    destructuring of [access] gives: no item, an item that does not parse
    (the exception's message), or the access token. *)
Inductive TokensItem :=
| NoItem
| Unparsable (exn_message : string)
| Tokens (access : string).

(** What [JSON.parse(event.data)] followed by the [switch] on [message.type]
    sees: an exception, a message of the union, or an object of another
    type. *)
Inductive MessageData :=
| BadJson
| Parsed (m : IncomingMessage)
| UnknownType.

(** Everything the hook does to the outside: the optional callbacks of its
    options ([onError?.(..)], [onConnectionChange?.(..)],
    [onLocationUpdate?.(..)]) and the calls on browser objects. *)
Inductive effect :=
| OnConnectionChange (st : ConnectionState)
| OnError (msg : string)
| OnLocationUpdate (loc : DriverLocation) (driver_id : string)
| NewWebSocket (id : nat) (url : string)
| WsClose (id : nat)
| WsSend (id : nat) (m : OutgoingMessage)
| SetTimeout (handle : nat) (delay : Z)
| ClearTimeout (handle : nat).

#[export] Instance effect_eq_dec : EqDecision effect.
Proof. solve_decision. Defined.

(** ** [hooks/useTrackingSocket.ts]: the hook's state *)

(** The options of the hook that its code reads, with the build-time
    variable [import.meta.env.VITE_WS_URL]. *)
Record UseTrackingSocketOptions := {
  parcelId : Z;
  autoConnect : bool;
  VITE_WS_URL : option string;
}.

(** The two [useState] cells, the four [useRef] cells, and the part of the
    browser they point into.  [wsRef] holds the index in [sockets] of a
    WebSocket object; [sockets] lists the ready state of every WebSocket the
    hook has constructed, all of which carry the hook's four handlers until
    they are closed.  [timers] is the set of [setTimeout] handles that have
    neither fired nor been cleared; handles are positive, so a stored handle
    is truthy. *)
Record Hook := {
  connectionState : ConnectionState;
  driverLocation : option DriverLocation;
  wsRef : option nat;
  reconnectTimeoutRef : option nat;
  reconnectAttemptsRef : nat;
  intentionalDisconnectRef : bool;
  sockets : list ReadyState;
  timers : gset nat;
  nextTimer : nat;
  localStorage_tokens : TokensItem;
}.

Definition set_connectionState (v : ConnectionState) (h : Hook) : Hook :=
  {| connectionState := v; driverLocation := driverLocation h;
     wsRef := wsRef h; reconnectTimeoutRef := reconnectTimeoutRef h;
     reconnectAttemptsRef := reconnectAttemptsRef h;
     intentionalDisconnectRef := intentionalDisconnectRef h;
     sockets := sockets h; timers := timers h; nextTimer := nextTimer h;
     localStorage_tokens := localStorage_tokens h |}.

Definition set_driverLocation (v : option DriverLocation) (h : Hook) : Hook :=
  {| connectionState := connectionState h; driverLocation := v;
     wsRef := wsRef h; reconnectTimeoutRef := reconnectTimeoutRef h;
     reconnectAttemptsRef := reconnectAttemptsRef h;
     intentionalDisconnectRef := intentionalDisconnectRef h;
     sockets := sockets h; timers := timers h; nextTimer := nextTimer h;
     localStorage_tokens := localStorage_tokens h |}.

Definition set_wsRef (v : option nat) (h : Hook) : Hook :=
  {| connectionState := connectionState h; driverLocation := driverLocation h;
     wsRef := v; reconnectTimeoutRef := reconnectTimeoutRef h;
     reconnectAttemptsRef := reconnectAttemptsRef h;
     intentionalDisconnectRef := intentionalDisconnectRef h;
     sockets := sockets h; timers := timers h; nextTimer := nextTimer h;
     localStorage_tokens := localStorage_tokens h |}.

Definition set_reconnectTimeoutRef (v : option nat) (h : Hook) : Hook :=
  {| connectionState := connectionState h; driverLocation := driverLocation h;
     wsRef := wsRef h; reconnectTimeoutRef := v;
     reconnectAttemptsRef := reconnectAttemptsRef h;
     intentionalDisconnectRef := intentionalDisconnectRef h;
     sockets := sockets h; timers := timers h; nextTimer := nextTimer h;
     localStorage_tokens := localStorage_tokens h |}.

Definition set_reconnectAttemptsRef (v : nat) (h : Hook) : Hook :=
  {| connectionState := connectionState h; driverLocation := driverLocation h;
     wsRef := wsRef h; reconnectTimeoutRef := reconnectTimeoutRef h;
     reconnectAttemptsRef := v;
     intentionalDisconnectRef := intentionalDisconnectRef h;
     sockets := sockets h; timers := timers h; nextTimer := nextTimer h;
     localStorage_tokens := localStorage_tokens h |}.

Definition set_intentionalDisconnectRef (v : bool) (h : Hook) : Hook :=
  {| connectionState := connectionState h; driverLocation := driverLocation h;
     wsRef := wsRef h; reconnectTimeoutRef := reconnectTimeoutRef h;
     reconnectAttemptsRef := reconnectAttemptsRef h;
     intentionalDisconnectRef := v;
     sockets := sockets h; timers := timers h; nextTimer := nextTimer h;
     localStorage_tokens := localStorage_tokens h |}.

Definition set_sockets (v : list ReadyState) (h : Hook) : Hook :=
  {| connectionState := connectionState h; driverLocation := driverLocation h;
     wsRef := wsRef h; reconnectTimeoutRef := reconnectTimeoutRef h;
     reconnectAttemptsRef := reconnectAttemptsRef h;
     intentionalDisconnectRef := intentionalDisconnectRef h;
     sockets := v; timers := timers h; nextTimer := nextTimer h;
     localStorage_tokens := localStorage_tokens h |}.

Definition set_timers (v : gset nat) (n : nat) (h : Hook) : Hook :=
  {| connectionState := connectionState h; driverLocation := driverLocation h;
     wsRef := wsRef h; reconnectTimeoutRef := reconnectTimeoutRef h;
     reconnectAttemptsRef := reconnectAttemptsRef h;
     intentionalDisconnectRef := intentionalDisconnectRef h;
     sockets := sockets h; timers := v; nextTimer := n;
     localStorage_tokens := localStorage_tokens h |}.

Definition set_localStorage_tokens (v : TokensItem) (h : Hook) : Hook :=
  {| connectionState := connectionState h; driverLocation := driverLocation h;
     wsRef := wsRef h; reconnectTimeoutRef := reconnectTimeoutRef h;
     reconnectAttemptsRef := reconnectAttemptsRef h;
     intentionalDisconnectRef := intentionalDisconnectRef h;
     sockets := sockets h; timers := timers h; nextTimer := nextTimer h;
     localStorage_tokens := v |}.

(** A piece of the hook's code: it changes the state and appends to the
    effect log. *)
Definition action := Hook → Hook * list effect.

Definition skip : action := λ h, (h, []).
Definition emit (e : effect) : action := λ h, (h, [e]).
Definition modify (f : Hook → Hook) : action := λ h, (f h, []).
Definition andThen (a b : action) : action := λ h,
  (fst (b (fst (a h))), snd (a h) ++ snd (b (fst (a h)))).

Declare Scope action_scope.
Delimit Scope action_scope with action.
Bind Scope action_scope with action.
Notation "a ;; b" := (andThen a b)
  (at level 100, b at level 200, right associativity) : action_scope.
Local Open Scope action_scope.

(** The ready state of the socket [wsRef.current], [None] for
    [wsRef.current?.readyState] being undefined. *)
Definition readyState (h : Hook) : option ReadyState :=
  wsRef h ≫= λ id, sockets h !! id.

Definition MAX_RECONNECT_ATTEMPTS : nat := 5.
Definition RECONNECT_DELAY : Z := 3000.

(** ** [hooks/useTrackingSocket.ts]: the hook's functions *)

Section useTrackingSocket.
Variable opts : UseTrackingSocketOptions.

(** [import.meta.env.VITE_WS_URL || 'ws://localhost:8000']: an unset or
    empty variable gives the default. *)
Definition baseUrl : string :=
  match VITE_WS_URL opts with
  | Some u => if decide (u = "") then "ws://localhost:8000" else u
  | None => "ws://localhost:8000"
  end.

(** [getWebSocketUrl]: the URL, or the message of the exception it throws.
    The parcel id is printed in decimal digits, as the template literal
    prints a safe integer. *)
Definition getWebSocketUrl (h : Hook) : string + string :=
  match localStorage_tokens h with
  | NoItem => inr "No authentication tokens found"
  | Unparsable exn_message => inr exn_message
  | Tokens access =>
      inl (baseUrl +:+ "/ws/tracking/?parcel_id=" +:+ pretty (parcelId opts)
             +:+ "&token=" +:+ access)
  end.

(** Whether [new WebSocket(url)] constructs a socket is for the browser's
    constructor to say; the hook checks nothing.  The constructor is
    taken to accept the URLs that start with ws:// or wss:// and to throw
    a SyntaxError on any other.  (A browser may accept more, as the current
    ones do http and https, and less, as a URL with a fragment; the
    statements that depend on the verdict are made for base URLs that
    start with ws:// or wss://.)  The exception is caught by [connect],
    whose [catch] reports the exception's message; its text is the
    browser's, [SyntaxError_message] stands for it. *)
Definition ws_scheme (url : string) : bool :=
  String.prefix "ws://" url || String.prefix "wss://" url.

Definition SyntaxError_message : string := "SyntaxError".

(** [updateConnectionState]. *)
Definition updateConnectionState (st : ConnectionState) : action :=
  modify (set_connectionState st);; emit (OnConnectionChange st).

(** The browser's part of [ws.close()]: a socket that is connecting or open
    starts closing, any other is left as it is. *)
Definition close_socket (id : nat) (h : Hook) : Hook :=
  match sockets h !! id with
  | Some CONNECTING | Some OPEN => set_sockets (<[id := CLOSING]> (sockets h)) h
  | _ => h
  end.

(** The body of [setTimeout(() => connect(), RECONNECT_DELAY)] assigned to
    [reconnectTimeoutRef.current]. *)
Definition schedule_reconnect : action := λ h,
  let handle := nextTimer h in
  (set_reconnectTimeoutRef (Some handle)
     (set_timers ({[handle]} ∪ timers h) (S handle) h),
   [SetTimeout handle RECONNECT_DELAY]).

(** [ws.onopen]. *)
Definition onopen : action :=
  updateConnectionState ConnectionState.connected;;
  modify (set_reconnectAttemptsRef 0).

(** [ws.onerror]. *)
Definition onerror : action :=
  updateConnectionState ConnectionState.error;;
  emit (OnError "WebSocket connection error").

(** [ws.onclose]. *)
Definition onclose : action :=
  updateConnectionState ConnectionState.disconnected;;
  modify (set_wsRef None);;
  λ h,
    if negb (intentionalDisconnectRef h)
       && bool_decide (reconnectAttemptsRef h < MAX_RECONNECT_ATTEMPTS)%nat
    then
      (modify (set_reconnectAttemptsRef (S (reconnectAttemptsRef h)));;
       schedule_reconnect) h
    else if bool_decide (MAX_RECONNECT_ATTEMPTS ≤ reconnectAttemptsRef h)%nat
    then emit (OnError "Failed to reconnect to tracking server") h
    else skip h.

(** [connect]. *)
Definition connect : action := λ h,
  match readyState h with
  | Some OPEN | Some CONNECTING => skip h
  | _ =>
      (modify (set_intentionalDisconnectRef false);;
       λ h,
         match getWebSocketUrl h with
         | inr exn_message =>
             (updateConnectionState ConnectionState.error;;
              emit (OnError exn_message)) h
         | inl url =>
             (updateConnectionState ConnectionState.connecting;;
              λ h,
                if ws_scheme url then
                  let id := length (sockets h) in
                  (set_wsRef (Some id)
                     (set_sockets (sockets h ++ [CONNECTING]) h),
                   [NewWebSocket id url])
                else
                  (updateConnectionState ConnectionState.error;;
                   emit (OnError SyntaxError_message)) h) h
         end) h
  end.

(** [disconnect]. *)
Definition disconnect : action :=
  modify (set_intentionalDisconnectRef true);;
  (λ h,
     match reconnectTimeoutRef h with
     | Some handle =>
         (set_reconnectTimeoutRef None
            (set_timers (timers h ∖ {[handle]}) (nextTimer h) h),
          [ClearTimeout handle])
     | None => skip h
     end);;
  (λ h,
     match wsRef h with
     | Some id => (set_wsRef None (close_socket id h), [WsClose id])
     | None => skip h
     end);;
  updateConnectionState ConnectionState.disconnected.

(** [handleMessage], on the parsed [event.data]; [now] is
    [new Date().toISOString()]. *)
Definition handleMessage (data : MessageData) (now : string) : action :=
  match data with
  | BadJson => emit (OnError "Failed to parse server message")
  | UnknownType => skip
  | Parsed (driver_location message) =>
      let location :=
        {| lat := msg_lat message;
           lng := msg_lng message;
           address := msg_address message;
           timestamp :=
             Some (if decide (msg_timestamp message = "") then now
                   else msg_timestamp message) |} in
      modify (set_driverLocation (Some location));;
      emit (OnLocationUpdate location (msg_driver_id message))
  | Parsed (tracking_ended _ _) => disconnect
  | Parsed (subscribed _) => skip
  | Parsed (unsubscribed _) => skip
  | Parsed (error_message message) => emit (OnError message)
  end.

(** [specificParcelId || parcelId]: the left operand when it is truthy.
    Parcel ids are integers, of which only 0 is falsy; an argument left out
    is [undefined], falsy too. *)
Definition parcel_id_or (specificParcelId : option Z) : Z :=
  match specificParcelId with
  | Some n => if decide (n = 0) then parcelId opts else n
  | None => parcelId opts
  end.

(** [sendLocationUpdate].  [ws.send] on an open socket does not throw, so
    the [catch] around it is never entered. *)
Definition sendLocationUpdate (location : DriverLocation)
    (specificParcelId : option Z) : action := λ h,
  match wsRef h, readyState h with
  | Some id, Some OPEN =>
      let message :=
        location_update (lat location) (lng location) (address location)
          (Some (parcel_id_or specificParcelId)) in
      emit (WsSend id message) h
  | _, _ => emit (OnError "Not connected to tracking server") h
  end.

(** *** The events that drive the hook *)

(** Calls made by the component that uses the hook, and what the browser
    delivers: a socket opens, a message arrives on it, it fails (the
    browser fires [error] and then [close] in one task), it closes, a
    timer fires, the stored tokens change. *)
Inductive event :=
| EvConnect
| EvDisconnect
| EvSendLocationUpdate (location : DriverLocation) (specificParcelId : option Z)
| EvOpen (id : nat)
| EvMessage (id : nat) (data : MessageData) (now : string)
| EvFail (id : nat)
| EvClose (id : nat)
| EvTimeout (handle : nat)
| EvStorage (item : TokensItem).

Definition set_readyState (id : nat) (r : ReadyState) : action :=
  modify (λ h, set_sockets (<[id := r]> (sockets h)) h).

(** One event.  The browser delivers [open] only to a connecting socket,
    a message only to an open one, [close] only to a socket that is not yet
    closed, and fires only pending timers; anything else is ignored. *)
Definition step (h : Hook) (ev : event) : Hook * list effect :=
  match ev with
  | EvConnect => connect h
  | EvDisconnect => disconnect h
  | EvSendLocationUpdate location specificParcelId =>
      sendLocationUpdate location specificParcelId h
  | EvOpen id =>
      match sockets h !! id with
      | Some CONNECTING => (set_readyState id OPEN;; onopen) h
      | _ => skip h
      end
  | EvMessage id data now =>
      match sockets h !! id with
      | Some OPEN => handleMessage data now h
      | _ => skip h
      end
  | EvFail id =>
      match sockets h !! id with
      | Some CLOSED | None => skip h
      | Some _ => (set_readyState id CLOSED;; onerror;; onclose) h
      end
  | EvClose id =>
      match sockets h !! id with
      | Some CLOSED | None => skip h
      | Some _ => (set_readyState id CLOSED;; onclose) h
      end
  | EvTimeout handle =>
      if decide (handle ∈ timers h)
      then (modify (set_timers (timers h ∖ {[handle]}) (nextTimer h));;
            connect) h
      else skip h
  | EvStorage item => modify (set_localStorage_tokens item) h
  end.

(** A sequence of events, with the log of all effects in order. *)
Fixpoint run (h : Hook) (evs : list event) : Hook * list effect :=
  match evs with
  | [] => (h, [])
  | ev :: evs =>
      let '(h1, e1) := step h ev in
      let '(h2, e2) := run h1 evs in
      (h2, e1 ++ e2)
  end.

(** The state of the first render. *)
Definition init (item : TokensItem) : Hook :=
  {| connectionState := ConnectionState.disconnected;
     driverLocation := None;
     wsRef := None;
     reconnectTimeoutRef := None;
     reconnectAttemptsRef := 0;
     intentionalDisconnectRef := false;
     sockets := [];
     timers := ∅;
     nextTimer := 1;
     localStorage_tokens := item |}.

(** The mount effect and its cleanup. *)
Definition mount : action :=
  if autoConnect opts then connect else skip.
Definition unmount : action := disconnect.

End useTrackingSocket.


(** ** Reading the hook's runs *)

Definition is_SetTimeout (e : effect) : bool :=
  match e with SetTimeout _ _ => true | _ => false end.
Definition is_NewWebSocket (e : effect) : bool :=
  match e with NewWebSocket _ _ => true | _ => false end.

(** The number of reconnections scheduled, and of sockets constructed, in a
    log. *)
Definition scheduled (log : list effect) : nat :=
  length (List.filter is_SetTimeout log).
Definition constructed (log : list effect) : nat :=
  length (List.filter is_NewWebSocket log).

(** The values passed to [updateConnectionState], in order. *)
Fixpoint changes (log : list effect) : list ConnectionState :=
  match log with
  | [] => []
  | OnConnectionChange st :: log => st :: changes log
  | _ :: log => changes log
  end.

(** The notification sent when the controller gives up, and how often a log
    has it. *)
Definition fatal : effect := OnError "Failed to reconnect to tracking server".
Definition is_fatal (e : effect) : bool := bool_decide (e = fatal).
Definition gave_up (log : list effect) : nat :=
  length (List.filter is_fatal log).

(** Nothing is left that could change the controller by itself: it shows
    [disconnected], holds no socket, no socket is alive and no timer is
    pending. *)
Definition terminal (h : Hook) : Prop :=
  connectionState h = ConnectionState.disconnected
  ∧ wsRef h = None
  ∧ Forall (eq CLOSED) (sockets h)
  ∧ timers h = ∅.

(** An unexpected drop of socket [id]: it fails (error, then close) or it
    just closes. *)
Definition drop (failed : bool) (id : nat) : event :=
  if failed then EvFail id else EvClose id.

(** Consecutive drops with the scheduled reconnections in between, on a
    fresh hook: socket [k] drops and timer [k+1] fires, for each entry of
    [fails], starting at [k]. *)
Fixpoint rounds_from (k : nat) (fails : list bool) : list event :=
  match fails with
  | [] => []
  | f :: fails => drop f k :: EvTimeout (S k) :: rounds_from (S k) fails
  end.

(** [connect], then [length fails + 1] consecutive unexpected drops: every
    drop but the last is followed by the reconnection it scheduled. *)
Definition consecutive_drops (fails : list bool) (last : bool) : list event :=
  EvConnect :: rounds_from 0 fails ++ [drop last (length fails)].

(** The state machine as specified: [disconnected → connecting → connected],
    [connected|connecting → disconnected], and [error] entered from anywhere;
    a state may also be set again to the value it has. *)
Definition specified_move (a b : ConnectionState) : bool :=
  bool_decide (a = b) ||
  match a, b with
  | ConnectionState.disconnected, ConnectionState.connecting
  | ConnectionState.connecting, ConnectionState.connected
  | ConnectionState.connected, ConnectionState.disconnected
  | ConnectionState.connecting, ConnectionState.disconnected
  | _, ConnectionState.error => true
  | _, _ => false
  end.

(** The same machine with the two ways out of [error]. *)
Definition actual_move (a b : ConnectionState) : bool :=
  specified_move a b ||
  match a, b with
  | ConnectionState.error, ConnectionState.disconnected
  | ConnectionState.error, ConnectionState.connecting => true
  | _, _ => false
  end.

(** Every step of the sequence [a :: l] is a move of [move]. *)
Fixpoint follows (move : ConnectionState → ConnectionState → bool)
    (a : ConnectionState) (l : list ConnectionState) : bool :=
  match l with
  | [] => true
  | b :: l => move a b && follows move b l
  end.

(** No socket of the hook is alive and no timer is pending. *)
Definition quiet (h : Hook) : bool :=
  bool_decide (Forall (eq CLOSED) (sockets h)) && bool_decide (timers h = ∅).

(** The guard of [connect] holds: the socket in [wsRef] is open or
    connecting. *)
Definition active (h : Hook) : bool :=
  match readyState h with
  | Some OPEN | Some CONNECTING => true
  | _ => false
  end.

(** A run is orderly when the component calls [connect] only on a quiet hook
    (or where the guard makes the call a no-op): not while a socket it asked
    to close is still closing, and not while a reconnection is pending. *)
Definition permitted (h : Hook) (ev : event) : bool :=
  match ev with
  | EvConnect => quiet h || active h
  | _ => true
  end.

Fixpoint orderly (opts : UseTrackingSocketOptions) (h : Hook)
    (evs : list event) : bool :=
  match evs with
  | [] => true
  | ev :: evs => permitted h ev && orderly opts (fst (step opts h ev)) evs
  end.

(** The component does not call [connect] in [evs]. *)
Definition no_connect_call (evs : list event) : Prop :=
  Forall (λ ev, ev ≠ EvConnect) evs.

(** No socket opens in [evs]. *)
Definition no_open (evs : list event) : Prop :=
  Forall (λ ev, ∀ id, ev ≠ EvOpen id) evs.

(** At most the socket [o] is alive in [l]. *)
Definition only_alive (o : option nat) (l : list ReadyState) : Prop :=
  ∀ j r, l !! j = Some r → r ≠ CLOSED → o = Some j.

(** The four situations of the hook in an orderly run. *)
Inductive phase (h : Hook) : Prop :=
| phase_idle :
    only_alive None (sockets h) → wsRef h = None → timers h = ∅ →
    connectionState h = ConnectionState.disconnected
    ∨ connectionState h = ConnectionState.error →
    phase h
| phase_active id r :
    sockets h !! id = Some r → only_alive (Some id) (sockets h) →
    wsRef h = Some id → timers h = ∅ →
    intentionalDisconnectRef h = false →
    r = CONNECTING ∧ connectionState h = ConnectionState.connecting
    ∨ r = OPEN ∧ connectionState h = ConnectionState.connected →
    phase h
| phase_closing id :
    sockets h !! id = Some CLOSING → only_alive (Some id) (sockets h) →
    wsRef h = None → timers h = ∅ →
    intentionalDisconnectRef h = true →
    connectionState h = ConnectionState.disconnected →
    phase h
| phase_backoff handle :
    only_alive None (sockets h) → wsRef h = None →
    timers h = {[handle]} → reconnectTimeoutRef h = Some handle →
    intentionalDisconnectRef h = false →
    connectionState h = ConnectionState.disconnected →
    phase h.

(** Sample states for the witnesses. *)
Definition sample_opts : UseTrackingSocketOptions :=
  {| parcelId := 7; autoConnect := true; VITE_WS_URL := None |}.
Definition sample_location : DriverLocation :=
  {| lat := 286139 # 10000; lng := 772090 # 10000; address := "Delhi";
     timestamp := None |}.
Definition sample_open : Hook :=
  fst (run sample_opts (init (Tokens "t")) [EvConnect; EvOpen 0%nat]).

(** The parcel id of a sent [location_update] in the words of the
    specification: the explicitly supplied id when one is given, otherwise
    the hook's configured [parcelId]. *)
Definition explicit_or_configured (opts : UseTrackingSocketOptions)
    (specificParcelId : option Z) : Z :=
  default (parcelId opts) specificParcelId.

(** What the specification says of [sendLocationUpdate] on an open socket:
    one [location_update] goes out, carrying that parcel id. *)
Definition sends_explicit_or_configured (opts : UseTrackingSocketOptions)
    (h : Hook) (location : DriverLocation) (specificParcelId : option Z) : Prop :=
  ∀ id, wsRef h = Some id → readyState h = Some OPEN →
    sendLocationUpdate opts location specificParcelId h
    = (h, [WsSend id (location_update (lat location) (lng location)
                        (address location)
                        (Some (explicit_or_configured opts specificParcelId)))]).

(** What [onerror] adds in front of [onclose] when a socket fails. *)
Definition drop_prefix (failed : bool) : list effect :=
  if failed
  then [OnConnectionChange ConnectionState.error;
        OnError "WebSocket connection error"]
  else [].

(** The state [onclose] runs on when socket [id] drops: the socket is closed
    and, if it failed, [onerror] has set the connection state. *)
Definition dropped (failed : bool) (id : nat) (h : Hook) : Hook :=
  let h0 := set_sockets (<[id := CLOSED]> (sockets h)) h in
  if failed then set_connectionState ConnectionState.error h0 else h0.

(** The hook during its [k]-th reconnection attempt in a run of consecutive
    drops: sockets [0..k-1] are closed, socket [k] is connecting, [k]
    attempts are counted and nothing is pending. *)
Definition attempting (access : string) (k : nat) (h : Hook) : Prop :=
  sockets h = replicate k CLOSED ++ [CONNECTING]
  ∧ wsRef h = Some k
  ∧ reconnectAttemptsRef h = k
  ∧ timers h = ∅
  ∧ nextTimer h = S k
  ∧ intentionalDisconnectRef h = false
  ∧ connectionState h = ConnectionState.connecting
  ∧ localStorage_tokens h = Tokens access.

(** What the specification says of a run of consecutive drops: after the
    last of them the controller is in a terminal disconnected state and has
    surfaced the fatal notification to the caller. *)
Definition gives_up_after (opts : UseTrackingSocketOptions) (access : string)
    (fails : list bool) (last : bool) : Prop :=
  let r := run opts (init (Tokens access)) (consecutive_drops fails last) in
  terminal (fst r) ∧ gave_up (snd r) = 1%nat.

(** The connection state after an action is the last value it passed to
    [updateConnectionState], or the one before when it passed none. *)
Definition settles (h : Hook) (r : Hook * list effect) : Prop :=
  connectionState (fst r) = List.last (changes (snd r)) (connectionState h).

(** What every step of an orderly run keeps: the hook stays in one of the
    four situations, every change of the connection state is a move of the
    state machine, and the state shown is the last one set. *)
Definition keeps_phase (h : Hook) (r : Hook * list effect) : Prop :=
  phase (fst r)
  ∧ follows actual_move (connectionState h) (changes (snd r)) = true
  ∧ settles h r.

(** What the specification says of the connection state in a run from a
    fresh hook: it moves along the specified state machine only. *)
Definition moves_as_specified (opts : UseTrackingSocketOptions)
    (item : TokensItem) (evs : list event) : Prop :=
  follows specified_move ConnectionState.disconnected
    (changes (snd (run opts (init item) evs))) = true.

(** The events on which each connection state may be set: [connecting] when
    a connection is initiated (by a call or by the reconnect timer),
    [connected] when a socket opens, [error] when a socket fails or
    initiating throws, [disconnected] when a socket fails or closes, on a
    [disconnect] call and on a [tracking_ended] message. *)
Definition may_set (ev : event) (st : ConnectionState) : Prop :=
  match st with
  | ConnectionState.connecting =>
      ev = EvConnect ∨ ∃ handle, ev = EvTimeout handle
  | ConnectionState.connected => ∃ id, ev = EvOpen id
  | ConnectionState.error =>
      ev = EvConnect ∨ (∃ handle, ev = EvTimeout handle) ∨ ∃ id, ev = EvFail id
  | ConnectionState.disconnected =>
      ev = EvDisconnect
      ∨ (∃ id, ev = EvFail id) ∨ (∃ id, ev = EvClose id)
      ∨ ∃ id p s now, ev = EvMessage id (Parsed (tracking_ended p s)) now
  end.

(** A run in which the component calls [connect] again while the first
    reconnection is pending: sockets 0 and 1 both fail, the timer of the
    second failure overwrites the handle of the first in
    [reconnectTimeoutRef], and then the component disconnects. *)
Definition retry_during_backoff : list event :=
  [EvConnect; EvFail 0%nat; EvConnect; EvFail 1%nat; EvDisconnect].

(** A run in which the component calls [connect] again before the socket
    it asked to close has closed: the [close] event of socket 0 arrives
    when [wsRef] already holds socket 1. *)
Definition reconnect_before_close : list event :=
  [EvConnect; EvOpen 0%nat; EvDisconnect; EvConnect; EvClose 0%nat;
   EvOpen 1%nat].




(** What [connect] does, by cases: the guard holds; building the URL throws;
    the WebSocket constructor throws; a socket is constructed. *)
Inductive connect_outcome opts (h : Hook) : Hook * list effect → Prop :=
| connect_guarded :
    active h = true →
    connect_outcome opts h (h, [])
| connect_no_url exn_message :
    active h = false →
    getWebSocketUrl opts h = inr exn_message →
    connect_outcome opts h
      (set_connectionState ConnectionState.error
         (set_intentionalDisconnectRef false h),
       [OnConnectionChange ConnectionState.error; OnError exn_message])
| connect_bad_url url :
    active h = false →
    getWebSocketUrl opts h = inl url → ws_scheme url = false →
    connect_outcome opts h
      (set_connectionState ConnectionState.error
         (set_connectionState ConnectionState.connecting
            (set_intentionalDisconnectRef false h)),
       [OnConnectionChange ConnectionState.connecting;
        OnConnectionChange ConnectionState.error;
        OnError SyntaxError_message])
| connect_socket url :
    active h = false →
    getWebSocketUrl opts h = inl url → ws_scheme url = true →
    connect_outcome opts h
      (set_wsRef (Some (length (sockets h)))
         (set_sockets (sockets h ++ [CONNECTING])
            (set_connectionState ConnectionState.connecting
               (set_intentionalDisconnectRef false h))),
       [OnConnectionChange ConnectionState.connecting;
        NewWebSocket (length (sockets h)) url]).

(** What [onclose] does, by cases: a reconnection is scheduled; the attempts
    are used up; the disconnect was deliberate. *)
Inductive onclose_outcome (h : Hook) : Hook * list effect → Prop :=
| onclose_retry :
    intentionalDisconnectRef h = false →
    (reconnectAttemptsRef h < MAX_RECONNECT_ATTEMPTS)%nat →
    onclose_outcome h
      (set_reconnectTimeoutRef (Some (nextTimer h))
         (set_timers ({[nextTimer h]} ∪ timers h) (S (nextTimer h))
            (set_reconnectAttemptsRef (S (reconnectAttemptsRef h))
               (set_wsRef None
                  (set_connectionState ConnectionState.disconnected h)))),
       [OnConnectionChange ConnectionState.disconnected;
        SetTimeout (nextTimer h) RECONNECT_DELAY])
| onclose_give_up :
    (MAX_RECONNECT_ATTEMPTS ≤ reconnectAttemptsRef h)%nat →
    onclose_outcome h
      (set_wsRef None (set_connectionState ConnectionState.disconnected h),
       [OnConnectionChange ConnectionState.disconnected; fatal])
| onclose_intentional :
    intentionalDisconnectRef h = true →
    (reconnectAttemptsRef h < MAX_RECONNECT_ATTEMPTS)%nat →
    onclose_outcome h
      (set_wsRef None (set_connectionState ConnectionState.disconnected h),
       [OnConnectionChange ConnectionState.disconnected]).

(** ** More readings of the hook's runs *)

(** No [storage] event: the stored tokens stay as they are. *)
Definition no_storage (evs : list event) : Prop :=
  Forall (λ ev, ∀ item, ev ≠ EvStorage item) evs.

(** The stored item holds no access token, so [getWebSocketUrl] throws. *)
Definition no_tokens (item : TokensItem) : Prop :=
  ∀ access, item ≠ Tokens access.

(** The messages sent in a log, each with the socket it was sent on. *)
Definition sent (log : list effect) : list (nat * OutgoingMessage) :=
  omap (λ e, match e with WsSend id m => Some (id, m) | _ => None end) log.


(** The messages the callback [onError] was called with in a log. *)
Definition errors (log : list effect) : list string :=
  omap (λ e, match e with OnError msg => Some msg | _ => None end) log.


(** The [sendLocationUpdate] calls of a run. *)
Definition send_calls (evs : list event) : list (DriverLocation * option Z) :=
  omap (λ ev, match ev with
              | EvSendLocationUpdate location specificParcelId =>
                  Some (location, specificParcelId)
              | _ => None
              end) evs.

(** No socket of the list is open or connecting. *)
Definition none_active (l : list ReadyState) : Prop :=
  ∀ j r, l !! j = Some r → r = CLOSING ∨ r = CLOSED.

(** An orderly run with an opening, a failure and a reconnection. *)
Definition sample_orderly : list event :=
  [EvConnect; EvOpen 0%nat; EvFail 0%nat; EvTimeout 1%nat].

(** The hook after the component has disconnected from an open socket and
    connected again at once: socket 0 is still closing when socket 1 is
    constructed. *)
Definition sample_reconnected : Hook :=
  fst (run sample_opts (init (Tokens "t"))
         [EvConnect; EvOpen 0%nat; EvDisconnect; EvConnect]).

(** ** [admin/AdminTracking.tsx]: the socket of one parcel *)

(** The fields of [LiveParcel] and [LiveDriver] that the page's socket
    handler reads and writes (their declarations, in [types/admin], are not
    among the sources).  The parcel's field [driver_location] is
    [driver_location_of] here, the plain name being that of the message
    kind. *)
Record LiveParcel := {
  id : Z;
  driver_location_of : option DriverLocation;
}.

Record LiveDriver := {
  driver_id : string;
  current_location : option DriverLocation;
}.

(** The state the handler works on: the two [useState] lists, the two
    [useRef] maps keyed by parcel id, and the sockets the page has opened. *)
Record AdminTracking := {
  liveParcels : list LiveParcel;
  liveDrivers : list LiveDriver;
  wsConnectionsRef : gmap Z nat;
  admin_reconnectAttemptsRef : gmap Z nat;
  admin_sockets : list ReadyState;
}.

Inductive admin_effect :=
| ToastInfo (text : string)
| AdminWsClose (ws : nat).

(** [ws.onmessage] of the socket [ws] that [connectParcelWebSocket(parcelId)]
    opened, on the parsed [event.data]. *)
Definition admin_onmessage (parcelId : Z) (ws : nat) (data : MessageData)
    (a : AdminTracking) : AdminTracking * list admin_effect :=
  match data with
  | Parsed (driver_location message) =>
      let location :=
        {| lat := msg_lat message;
           lng := msg_lng message;
           address := msg_address message;
           timestamp := Some (msg_timestamp message) |} in
      ({| liveParcels :=
            (λ p, if decide (id p = parcelId)
                  then {| id := id p; driver_location_of := Some location |}
                  else p) <$> liveParcels a;
          liveDrivers :=
            (λ d, if decide (driver_id d = msg_driver_id message)
                  then {| driver_id := driver_id d;
                          current_location := Some location |}
                  else d) <$> liveDrivers a;
          wsConnectionsRef := wsConnectionsRef a;
          admin_reconnectAttemptsRef := admin_reconnectAttemptsRef a;
          admin_sockets := admin_sockets a |},
       [])
  | Parsed (tracking_ended _ _) =>
      ({| liveParcels :=
            List.filter (λ p, bool_decide (id p ≠ parcelId)) (liveParcels a);
          liveDrivers := liveDrivers a;
          wsConnectionsRef := delete parcelId (wsConnectionsRef a);
          admin_reconnectAttemptsRef := admin_reconnectAttemptsRef a;
          admin_sockets :=
            match admin_sockets a !! ws with
            | Some CONNECTING | Some OPEN => <[ws := CLOSING]> (admin_sockets a)
            | _ => admin_sockets a
            end |},
       [AdminWsClose ws;
        ToastInfo ("Tracking ended for parcel #" +:+ pretty parcelId)])
  | _ => (a, [])
  end.

(** The browser delivers a message to an open socket only. *)
Definition admin_message_event (parcelId : Z) (ws : nat) (data : MessageData)
    (a : AdminTracking) : AdminTracking * list admin_effect :=
  match admin_sockets a !! ws with
  | Some OPEN => admin_onmessage parcelId ws data a
  | _ => (a, [])
  end.

(** ** The broadcast message on the wire *)












(** ** [admin/AdminTracking.tsx]: opening and closing the parcels' sockets *)

(** What the page does to the outside when it manages its sockets. *)
Inductive page_effect :=
| PageNewWebSocket (ws : nat) (url : string)
| PageSetTimeout (handle : nat) (delay : Z)
| PageToastError (text : string).

(** How a call ends: it returns, or it throws. *)
Inductive completion := Returned | Threw (exn_message : string).

(** The page with the part of the browser its sockets live in: the state
    of the message handler above, the parcel each socket was opened for (the
    variable [parcelId] its handlers close over), the pending [setTimeout]
    callbacks with the parcel and the number of attempts each has captured,
    and the stored tokens. *)
Record AdminPage := {
  tracking : AdminTracking;
  socket_parcel : gmap nat Z;
  page_timers : gmap nat (Z * nat);
  page_nextTimer : nat;
  page_tokens : TokensItem;
}.

Definition with_lists (parcels : list LiveParcel) (drivers : list LiveDriver)
    (t : AdminTracking) : AdminTracking :=
  {| liveParcels := parcels; liveDrivers := drivers;
     wsConnectionsRef := wsConnectionsRef t;
     admin_reconnectAttemptsRef := admin_reconnectAttemptsRef t;
     admin_sockets := admin_sockets t |}.
Definition with_connections (m : gmap Z nat) (t : AdminTracking)
    : AdminTracking :=
  {| liveParcels := liveParcels t; liveDrivers := liveDrivers t;
     wsConnectionsRef := m;
     admin_reconnectAttemptsRef := admin_reconnectAttemptsRef t;
     admin_sockets := admin_sockets t |}.
Definition with_attempts (m : gmap Z nat) (t : AdminTracking)
    : AdminTracking :=
  {| liveParcels := liveParcels t; liveDrivers := liveDrivers t;
     wsConnectionsRef := wsConnectionsRef t;
     admin_reconnectAttemptsRef := m;
     admin_sockets := admin_sockets t |}.
Definition with_sockets (l : list ReadyState) (t : AdminTracking)
    : AdminTracking :=
  {| liveParcels := liveParcels t; liveDrivers := liveDrivers t;
     wsConnectionsRef := wsConnectionsRef t;
     admin_reconnectAttemptsRef := admin_reconnectAttemptsRef t;
     admin_sockets := l |}.

Definition set_tracking (t : AdminTracking) (a : AdminPage) : AdminPage :=
  {| tracking := t; socket_parcel := socket_parcel a;
     page_timers := page_timers a; page_nextTimer := page_nextTimer a;
     page_tokens := page_tokens a |}.

(** The maximum of the page's reconnection attempts and their delay, the
    literals 3 and 3000 of [ws.onclose]. *)
Definition ADMIN_MAX_ATTEMPTS : nat := 3.
Definition ADMIN_RECONNECT_DELAY : Z := 3000.

(** [reconnectAttemptsRef.current.get(parcelId) || 0]. *)
Definition attempts_of (t : AdminTracking) (parcelId : Z) : nat :=
  default 0%nat (admin_reconnectAttemptsRef t !! parcelId).

(** The browser's part of [ws.close()]: a socket that is connecting or
    open starts closing, any other is left as it is. *)
Definition after_close (r : ReadyState) : ReadyState :=
  match r with
  | CONNECTING | OPEN => CLOSING
  | _ => r
  end.

(** [ws.close()] on each socket of a set. *)
Definition close_sockets (closed : gset nat) (l : list ReadyState)
    : list ReadyState :=
  imap (λ ws r, if decide (ws ∈ closed) then after_close r else r) l.

Section AdminPage.
(** The build-time variable [import.meta.env.VITE_WS_URL]. *)
Variable env_VITE_WS_URL : option string.

(** [import.meta.env.VITE_WS_URL || 'ws://localhost:8000']. *)
Definition wsUrl : string :=
  match env_VITE_WS_URL with
  | Some u => if decide (u = "") then "ws://localhost:8000" else u
  | None => "ws://localhost:8000"
  end.

(** [connectParcelWebSocket]: without tokens it returns at once; parsing the
    tokens is outside its [try], so an item that does not parse makes it
    throw; an exception of the WebSocket constructor is caught and logged.
    The new socket is stored under its parcel, replacing (without closing)
    any socket stored there. *)
Definition connectParcelWebSocket (parcelId : Z) (a : AdminPage)
    : AdminPage * list page_effect * completion :=
  match page_tokens a with
  | NoItem => (a, [], Returned)
  | Unparsable exn_message => (a, [], Threw exn_message)
  | Tokens access =>
      let url := wsUrl +:+ "/ws/tracking/?parcel_id=" +:+ pretty parcelId
                   +:+ "&token=" +:+ access in
      if ws_scheme url then
        let ws := length (admin_sockets (tracking a)) in
        ({| tracking :=
              with_connections
                (<[parcelId := ws]> (wsConnectionsRef (tracking a)))
                (with_sockets (admin_sockets (tracking a) ++ [CONNECTING])
                   (tracking a));
            socket_parcel := <[ws := parcelId]> (socket_parcel a);
            page_timers := page_timers a;
            page_nextTimer := page_nextTimer a;
            page_tokens := page_tokens a |},
         [PageNewWebSocket ws url], Returned)
      else (a, [], Returned)
  end.

(** [ws.onopen] of socket [ws]. *)
Definition page_onopen (ws : nat) (a : AdminPage) : AdminPage :=
  match socket_parcel a !! ws with
  | Some parcelId =>
      set_tracking
        (with_attempts
           (<[parcelId := 0%nat]> (admin_reconnectAttemptsRef (tracking a)))
           (tracking a)) a
  | None => a
  end.

(** [ws.onclose] of socket [ws]: the entry of its parcel is deleted from
    [wsConnectionsRef], and with fewer than 3 attempts counted a timer is
    set whose callback has captured the parcel and the count. *)
Definition page_onclose (ws : nat) (a : AdminPage)
    : AdminPage * list page_effect :=
  match socket_parcel a !! ws with
  | Some parcelId =>
      let t := with_connections
                 (delete parcelId (wsConnectionsRef (tracking a)))
                 (tracking a) in
      let attempts := attempts_of (tracking a) parcelId in
      if decide (attempts < ADMIN_MAX_ATTEMPTS)%nat then
        let handle := page_nextTimer a in
        ({| tracking := t; socket_parcel := socket_parcel a;
            page_timers := <[handle := (parcelId, attempts)]> (page_timers a);
            page_nextTimer := S handle;
            page_tokens := page_tokens a |},
         [PageSetTimeout handle ADMIN_RECONNECT_DELAY])
      else (set_tracking t a, [])
  | None => (a, [])
  end.

(** The callback of a timer set by [ws.onclose], when it fires. *)
Definition page_timeout (handle : nat) (a : AdminPage)
    : AdminPage * list page_effect * completion :=
  match page_timers a !! handle with
  | Some (parcelId, attempts) =>
      connectParcelWebSocket parcelId
        {| tracking :=
             with_attempts
               (<[parcelId := S attempts]>
                  (admin_reconnectAttemptsRef (tracking a)))
               (tracking a);
           socket_parcel := socket_parcel a;
           page_timers := delete handle (page_timers a);
           page_nextTimer := page_nextTimer a;
           page_tokens := page_tokens a |}
  | None => (a, [], Returned)
  end.

(** The browser closes socket [ws]: it is closed and its [close] handler
    runs. *)
Definition page_close_event (ws : nat) (a : AdminPage)
    : AdminPage * list page_effect :=
  match admin_sockets (tracking a) !! ws with
  | Some CLOSED | None => (a, [])
  | Some _ =>
      page_onclose ws
        (set_tracking
           (with_sockets (<[ws := CLOSED]> (admin_sockets (tracking a)))
              (tracking a)) a)
  end.

(** A message arrives on socket [ws]: its [onmessage] handler runs, for
    the parcel the socket was opened for. *)
Definition page_message_event (ws : nat) (data : MessageData) (a : AdminPage)
    : AdminPage * list admin_effect :=
  match socket_parcel a !! ws with
  | Some parcelId =>
      (set_tracking (fst (admin_message_event parcelId ws data (tracking a))) a,
       snd (admin_message_event parcelId ws data (tracking a)))
  | None => (a, [])
  end.

(** The first loop of [loadLiveData]: a socket is opened for every parcel
    of the response that has none; an exception ends the loop. *)
Fixpoint connect_missing (parcels : list LiveParcel) (a : AdminPage)
    : AdminPage * list page_effect * completion :=
  match parcels with
  | [] => (a, [], Returned)
  | parcel :: parcels =>
      match wsConnectionsRef (tracking a) !! id parcel with
      | Some _ => connect_missing parcels a
      | None =>
          match connectParcelWebSocket (id parcel) a with
          | (a1, e1, Returned) =>
              let '(a2, e2, c) := connect_missing parcels a1 in
              (a2, e1 ++ e2, c)
          | (a1, e1, Threw exn_message) => (a1, e1, Threw exn_message)
          end
      end
  end.

(** The entries of [wsConnectionsRef] whose parcel is not in the
    response. *)
Definition inactive (parcels : list LiveParcel) (m : gmap Z nat)
    : gmap Z nat :=
  filter (λ entry, entry.1 ∉ (id <$> parcels)) m.

(** [loadLiveData] once both responses have arrived: the two lists are
    set, sockets are opened for the parcels that have none, and the
    sockets of the parcels that are no longer in the response are closed
    and forgotten.  An exception on the way skips the rest and is reported
    by a toast unless the closure's [isLoading] is set.  The sockets
    [close()] is called on are returned as a set: the order of the calls is
    that of the Map's entries, which [wsConnectionsRef] does not keep. *)
Definition loadLiveData_loaded (parcels : list LiveParcel)
    (drivers : list LiveDriver) (isLoading : bool) (a : AdminPage)
    : AdminPage * list page_effect * gset nat :=
  let a0 := set_tracking (with_lists parcels drivers (tracking a)) a in
  match connect_missing parcels a0 with
  | (a1, e1, Returned) =>
      let gone := inactive parcels (wsConnectionsRef (tracking a1)) in
      let closed : gset nat := map_img gone in
      (set_tracking
         (with_connections
            (filter (λ entry, entry.1 ∈ (id <$> parcels))
               (wsConnectionsRef (tracking a1)))
            (with_sockets
               (close_sockets closed (admin_sockets (tracking a1)))
               (tracking a1))) a1,
       e1, closed)
  | (a1, e1, Threw _) =>
      (a1,
       e1 ++ (if isLoading then []
              else [PageToastError "Failed to load live tracking data"]),
       ∅)
  end.

(** The cleanup of the mount effect: [close()] is called on the sockets
    of [wsConnectionsRef] that are open, and the map is cleared. *)
Definition page_cleanup (a : AdminPage) : AdminPage * gset nat :=
  let closed : gset nat :=
    map_img (filter (λ entry, admin_sockets (tracking a) !! entry.2 = Some OPEN)
               (wsConnectionsRef (tracking a))) in
  (set_tracking
     (with_connections ∅
        (with_sockets (close_sockets closed (admin_sockets (tracking a)))
           (tracking a))) a,
   closed).

End AdminPage.

(** A page with tokens stored and one open socket, for parcel 7. *)
Definition sample_page : AdminPage :=
  {| tracking :=
       {| liveParcels := [{| id := 7; driver_location_of := None |}];
          liveDrivers := [];
          wsConnectionsRef := {[ 7 := 0%nat ]};
          admin_reconnectAttemptsRef := {[ 7 := 0%nat ]};
          admin_sockets := [OPEN] |};
     socket_parcel := {[ 0%nat := 7 ]};
     page_timers := ∅;
     page_nextTimer := 1;
     page_tokens := Tokens "t" |}.

(** Every socket stored in [wsConnectionsRef] is one the page has
    constructed, and is stored under the parcel it was opened for. *)
Definition registered (a : AdminPage) : Prop :=
  ∀ parcelId ws,
    wsConnectionsRef (tracking a) !! parcelId = Some ws →
    (ws < length (admin_sockets (tracking a)))%nat
    ∧ socket_parcel a !! ws = Some parcelId.

(** * The server-side broadcast core

    The Django Channels consumer ([backend/track_driver/consumers.py]) and
    its models are not among the sources; the definitions of this module are
    modelled from the specification.  Messages are those of
    [types/tracking.ts], which states the consumer's message format: what the
    client calls [OutgoingMessage] is inbound here, and [IncomingMessage] is
    outbound. *)

Module Core.

(** Modelled from the spec: the actor of a session (section 3), derived
    from the verified credential by the absent JWT middleware. *)
Inductive Role := courier | observer | administrator.

#[global] Instance Role_eq_dec : EqDecision Role.
Proof. solve_decision. Defined.

(** Modelled from the spec: an actor of the absent consumer (section 3), the
    user id of the credential with its role. *)
Record Actor := { actor_id : string; role : Role }.

(** Modelled from the spec: the connection state of a session
    (section 3). *)
Inductive SessionState := open | closing | closed.

#[global] Instance SessionState_eq_dec : EqDecision SessionState.
Proof. solve_decision. Defined.

(** Modelled from the spec: a session of the absent consumer (section 3):
    its actor, the shipments it is subscribed to, a sample counter per
    shipment, and its connection state. *)
Record Session := {
  actor : Actor;
  subscribed_to : gset Z;
  counters : gmap Z nat;
  conn : SessionState;
}.

(** Modelled from the spec: a location sample (section 3); the shipment id
    is optional, absent meaning every shipment the courier's session
    serves. *)
Record LocationSample := {
  latitude : number;
  longitude : number;
  label : string;
  capture_time : string;
  courier_id : string;
  shipment_id : option Z;
}.

(** Modelled from the spec: a tracking group (section 3), keyed by
    shipment id in [groups] below. *)
Record TrackingGroup := {
  members : gset nat;
  last_known : option LocationSample;
}.

(** Modelled from the spec: the state of the absent consumer process: the
    session registry, the group registry and the durable location
    history (the absent [DriverLocation] table: a sample with the shipment
    it was written for), newest first. *)
Record State := {
  sessions : gmap nat Session;
  groups : gmap Z TrackingGroup;
  durable : list (Z * LocationSample);
}.

(** Modelled from the spec: what the Shipment Directory (the absent parcel
    models) answers for a shipment: its owner, its assigned courier and
    whether its status is terminal.  It is consulted afresh on every
    call, so it is an argument of every operation. *)
Record Shipment := {
  owner : string;
  assigned : option string;
  is_terminal : bool;
}.
Definition Directory := Z → option Shipment.

(** Modelled from the spec: what the absent consumer does to the outside: a
    message sent down a session's connection, a connection closed, a write
    to durable storage requested for a sample of a (session, shipment)
    pair. *)
Inductive output :=
| Deliver (sid : nat) (m : IncomingMessage)
| CloseConnection (sid : nat)
| PersistWrite (sid : nat) (shipment : Z) (sample : LocationSample).

(** Modelled from the spec: the reasons of [Publish] (section 4.4) and the
    error taxonomy (section 7). *)
Inductive Reason := invalid_coordinates | unauthorized.
Inductive Rejection := AuthorizationDenied | InvalidPayload.

#[global] Instance Reason_eq_dec : EqDecision Reason.
Proof. solve_decision. Defined.
#[global] Instance Rejection_eq_dec : EqDecision Rejection.
Proof. solve_decision. Defined.

(** Modelled from the spec: the class of section 7 that each reason of
    [Publish] falls in. *)
Definition taxonomy (r : Reason) : Rejection :=
  match r with
  | invalid_coordinates => InvalidPayload
  | unauthorized => AuthorizationDenied
  end.

(** Modelled from the spec: the result of [Publish] for one target
    (section 4.4: [Ok | Rejected(reason)]). *)
Inductive Result := Ok | Rejected (reason : Reason).

#[global] Instance Result_eq_dec : EqDecision Result.
Proof. solve_decision. Defined.

(** Modelled from the spec: the fixed sampling interval of the absent
    persistence throttler (section 4.5, reference value 5). *)
Definition N : nat := 5.

(** ** Permission Resolver (section 4.2) *)

(** Modelled from the spec: [CanPublish] of the absent consumer, the
    policy table of section 4.2: a courier may publish iff it is currently
    assigned, an observer and an administrator never. *)
Definition CanPublish (dir : Directory) (a : Actor) (shipment : Z) : bool :=
  match role a, dir shipment with
  | courier, Some s => bool_decide (assigned s = Some (actor_id a))
  | _, _ => false
  end.

(** Modelled from the spec: [CanObserve] of the absent consumer
    (section 4.2). *)
Definition CanObserve (dir : Directory) (a : Actor) (shipment : Z) : bool :=
  match role a, dir shipment with
  | courier, Some s => bool_decide (assigned s = Some (actor_id a))
  | observer, Some s => bool_decide (owner s = actor_id a)
  | administrator, _ => true
  | _, None => false
  end.

(** ** Group Membership Manager (section 4.3) *)

Definition set_sessions (v : gmap nat Session) (σ : State) : State :=
  {| sessions := v; groups := groups σ; durable := durable σ |}.
Definition set_groups (v : gmap Z TrackingGroup) (σ : State) : State :=
  {| sessions := sessions σ; groups := v; durable := durable σ |}.
Definition set_durable (v : list (Z * LocationSample)) (σ : State) : State :=
  {| sessions := sessions σ; groups := groups σ; durable := v |}.

Definition set_subscribed (v : gset Z) (s : Session) : Session :=
  {| actor := actor s; subscribed_to := v; counters := counters s;
     conn := conn s |}.
Definition set_counters (v : gmap Z nat) (s : Session) : Session :=
  {| actor := actor s; subscribed_to := subscribed_to s; counters := v;
     conn := conn s |}.
Definition set_conn (v : SessionState) (s : Session) : Session :=
  {| actor := actor s; subscribed_to := subscribed_to s; counters := counters s;
     conn := v |}.

(** Modelled from the spec: the current members of a shipment's group in
    the absent consumer's registry; a shipment without a group has none. *)
Definition group_members (σ : State) (shipment : Z) : gset nat :=
  match groups σ !! shipment with
  | Some g => members g
  | None => ∅
  end.

(** Modelled from the spec: [Join] of the absent consumer (section 4.3):
    denied unless the actor may observe the shipment; the group is created
    on the first join; joining twice changes nothing. *)
Definition Join (dir : Directory) (sid : nat) (shipment : Z) (σ : State)
    : State * bool :=
  match sessions σ !! sid with
  | None => (σ, false)
  | Some s =>
      if CanObserve dir (actor s) shipment then
        let g := match groups σ !! shipment with
                 | Some g => {| members := {[sid]} ∪ members g;
                                last_known := last_known g |}
                 | None => {| members := {[sid]}; last_known := None |}
                 end in
        (set_groups (<[shipment := g]> (groups σ))
           (set_sessions
              (<[sid := set_subscribed ({[shipment]} ∪ subscribed_to s) s]>
                 (sessions σ)) σ),
         true)
      else (σ, false)
  end.

(** Modelled from the spec: [Leave] of the absent consumer (section 4.3):
    the session leaves the group, and a group left empty is deallocated. *)
Definition Leave (sid : nat) (shipment : Z) (σ : State) : State :=
  let gs :=
    match groups σ !! shipment with
    | Some g =>
        let ms := members g ∖ {[sid]} in
        if decide (ms = ∅) then delete shipment (groups σ)
        else <[shipment := {| members := ms; last_known := last_known g |}]>
               (groups σ)
    | None => groups σ
    end in
  let ss :=
    match sessions σ !! sid with
    | Some s =>
        <[sid := set_counters (delete shipment (counters s))
                   (set_subscribed (subscribed_to s ∖ {[shipment]}) s)]>
          (sessions σ)
    | None => sessions σ
    end in
  set_groups gs (set_sessions ss σ).

(** Modelled from the spec: [BroadcastTo] of the absent consumer
    (section 4.3): the message goes to every current member of the group
    except the excluded sender, each delivery on its own. *)
Definition BroadcastTo (σ : State) (shipment : Z) (m : IncomingMessage)
    (exclude : option nat) : list output :=
  (λ sid, Deliver sid m)
    <$> List.filter (λ sid, bool_decide (Some sid ≠ exclude))
          (elements (group_members σ shipment)).

(** ** Persistence Throttler (section 4.5) *)

(** Modelled from the spec: the per-(session, shipment) counter of the
    absent throttler; a pair without a counter counts from zero. *)
Definition counter (s : Session) (shipment : Z) : nat :=
  default 0%nat (counters s !! shipment).

(** Modelled from the spec: [MaybePersist] of the absent consumer
    (section 4.5): the counter of the (session, shipment) pair is
    incremented; when it reaches [N] it is reset to zero and the sample is
    written to durable storage, otherwise the sample is not written. *)
Definition MaybePersist (sid : nat) (shipment : Z) (sample : LocationSample)
    (σ : State) : State * list output :=
  match sessions σ !! sid with
  | None => (σ, [])
  | Some s =>
      let c := S (counter s shipment) in
      if decide (c = N) then
        (set_durable ((shipment, sample) :: durable σ)
           (set_sessions
              (<[sid := set_counters (<[shipment := 0%nat]> (counters s)) s]>
                 (sessions σ)) σ),
         [PersistWrite sid shipment sample])
      else
        (set_sessions
           (<[sid := set_counters (<[shipment := c]> (counters s)) s]>
              (sessions σ)) σ,
         [])
  end.

(** ** Location Broadcast Engine (section 4.4) *)

(** Modelled from the spec: the range check of step (1) of [Publish]:
    latitude in [-90, 90] and longitude in [-180, 180]. *)
Definition in_range (sample : LocationSample) : bool :=
  Qle_bool (-90) (latitude sample) && Qle_bool (latitude sample) 90
  && Qle_bool (-180) (longitude sample) && Qle_bool (longitude sample) 180.

(** Modelled from the spec: the outbound [driver_location] message of
    section 6, with the flat fields of [DriverLocationMessage]. *)
Definition location_message (sample : LocationSample) (shipment : Z)
    : IncomingMessage :=
  driver_location
    {| msg_driver_id := courier_id sample;
       msg_lat := latitude sample;
       msg_lng := longitude sample;
       msg_address := label sample;
       msg_timestamp := capture_time sample;
       msg_parcel_id := Some shipment |}.

(** Modelled from the spec: step (4) of [Publish] for one authorized
    target: the group's last-known sample is updated, the location message
    is broadcast to the group except the publisher, and persistence is
    requested. *)
Definition publish_to (sid : nat) (sample : LocationSample) (shipment : Z)
    (σ : State) : State * list output :=
  let σ1 :=
    set_groups
      (alter (λ g, {| members := members g; last_known := Some sample |})
         shipment (groups σ)) σ in
  let out := BroadcastTo σ1 shipment (location_message sample shipment)
               (Some sid) in
  let '(σ2, written) := MaybePersist sid shipment sample σ1 in
  (σ2, out ++ written).

(** Modelled from the spec: steps (2) to (4) of [Publish] over the
    targets, each attempted on its own: a target the actor may not publish
    to is rejected as [unauthorized] and nothing is broadcast to it. *)
Fixpoint publish_targets (dir : Directory) (sid : nat) (a : Actor)
    (sample : LocationSample) (targets : list Z) (σ : State)
    : State * list (Z * Result) * list output :=
  match targets with
  | [] => (σ, [], [])
  | shipment :: targets =>
      if CanPublish dir a shipment then
        let '(σ1, out1) := publish_to sid sample shipment σ in
        let '(σ2, results, out2) :=
          publish_targets dir sid a sample targets σ1 in
        (σ2, (shipment, Ok) :: results, out1 ++ out2)
      else
        let '(σ2, results, out2) :=
          publish_targets dir sid a sample targets σ in
        (σ2, (shipment, Rejected unauthorized) :: results, out2)
  end.

(** What a [Publish] call returns: the whole sample rejected, or one
    result per target shipment. *)
Inductive Published :=
| RejectedSample (reason : Reason)
| Targets (results : list (Z * Result)).

(** Modelled from the spec: [Publish] of the absent consumer
    (section 4.4). (1) A sample out of range is rejected with
    [invalid_coordinates]; (2) the target is the shipment of the sample or,
    when absent, every shipment the session is subscribed to; (3, 4) each
    target is published to or rejected on its own. *)
Definition Publish (dir : Directory) (sid : nat) (sample : LocationSample)
    (σ : State) : State * Published * list output :=
  match sessions σ !! sid with
  | None => (σ, Targets [], [])
  | Some s =>
      if in_range sample then
        let targets :=
          match shipment_id sample with
          | Some shipment => [shipment]
          | None => elements (subscribed_to s)
          end in
        let '(σ', results, out) :=
          publish_targets dir sid (actor s) sample targets σ in
        (σ', Targets results, out)
      else (σ, RejectedSample invalid_coordinates, [])
  end.

(** The call succeeded for at least one target. *)
Definition succeeded (p : Published) : bool :=
  match p with
  | RejectedSample _ => false
  | Targets results => existsb (λ r, bool_decide (r.2 = Ok)) results
  end.

(** ** Lifecycle Controller (section 4.6) *)

(** Modelled from the spec: the text of the absent consumer's
    [tracking_ended] message. *)
Definition ended_text : string := "Parcel delivered. Tracking ended.".

(** Modelled from the spec: the session has no other purpose than this
    shipment (section 4.6), that is, it is subscribed to it only. *)
Definition only_for (shipment : Z) (s : Session) : bool :=
  bool_decide (subscribed_to s = {[shipment]}).

(** Modelled from the spec: the handler of a terminal status event of the
    absent consumer (section 4.6, section 8): when the shipment has a
    group, a [tracking_ended] message is broadcast to all its members,
    every member subscribed to this shipment only is closed, the members
    leave the group and the group is deallocated; when it has none (a
    second event) nothing is done. *)
Definition OnTerminal (shipment : Z) (σ : State) : State * list output :=
  match groups σ !! shipment with
  | None => (σ, [])
  | Some g =>
      let out := BroadcastTo σ shipment
                   (tracking_ended shipment ended_text) None in
      let leave (sid : nat) (s : Session) : Session :=
        if decide (sid ∈ members g) then
          set_conn (if only_for shipment s then closed else conn s)
            (set_counters (delete shipment (counters s))
               (set_subscribed (subscribed_to s ∖ {[shipment]}) s))
        else s in
      let closes :=
        CloseConnection
          <$> List.filter
                (λ sid, match sessions σ !! sid with
                        | Some s => only_for shipment s
                        | None => false
                        end)
                (elements (members g)) in
      (set_groups (delete shipment (groups σ))
         (set_sessions (map_imap (λ sid s, Some (leave sid s)) (sessions σ)) σ),
       out ++ closes)
  end.

(** ** Inbound messages (section 6) *)

(** Modelled from the spec: the texts of the absent consumer's [error]
    messages. *)
Definition only_drivers : string := "Only drivers can send location updates".
Definition invalid_text : string := "Invalid coordinates".
Definition denied_text : string := "Unauthorized".

(** Modelled from the spec: the inbound dispatch of the absent consumer
    for a message on an open session.  A [location_update] from a session
    that is not a courier's is refused at once (the role enforcement of
    section 8, enforced in the consumer before the update is looked at,
    with the error 'Only drivers can send location updates', as the
    repository's verification report records); from a courier's session
    it becomes a sample and is published.  Every rejection answers the
    sender with an [error] message and leaves the connection open
    (section 7). *)
Definition receive (dir : Directory) (now : string) (sid : nat)
    (m : OutgoingMessage) (σ : State)
    : State * option Rejection * list output :=
  match sessions σ !! sid with
  | None => (σ, None, [])
  | Some s =>
      match conn s, m with
      | open, location_update lat lng address parcel_id =>
          match role (actor s) with
          | courier =>
              let sample :=
                {| latitude := lat; longitude := lng; label := address;
                   capture_time := now; courier_id := actor_id (actor s);
                   shipment_id := parcel_id |} in
              match Publish dir sid sample σ with
              | (σ', RejectedSample reason, out) =>
                  (σ', Some (taxonomy reason),
                   out ++ [Deliver sid (error_message invalid_text)])
              | (σ', Targets results, out) =>
                  if forallb (λ r, bool_decide (r.2 = Ok)) results
                  then (σ', None, out)
                  else (σ', Some AuthorizationDenied,
                        out ++ [Deliver sid (error_message denied_text)])
              end
          | _ =>
              (σ, Some AuthorizationDenied,
               [Deliver sid (error_message only_drivers)])
          end
      | open, subscribe_parcel shipment =>
          match Join dir sid shipment σ with
          | (σ', true) => (σ', None, [Deliver sid (subscribed shipment)])
          | (σ', false) =>
              (σ', Some AuthorizationDenied,
               [Deliver sid (error_message denied_text)])
          end
      | open, unsubscribe_parcel shipment =>
          (Leave sid shipment σ, None, [Deliver sid (unsubscribed shipment)])
      | _, _ => (σ, None, [])
      end
  end.

(** ** Reading the outputs *)

Definition is_ended_for (sid : nat) (shipment : Z) (o : output) : bool :=
  match o with
  | Deliver sid' (tracking_ended shipment' _) =>
      bool_decide (sid' = sid) && bool_decide (shipment' = shipment)
  | _ => false
  end.








(** The number of [tracking_ended] messages for a shipment delivered to a
    session in some outputs. *)
Definition ended_count (sid : nat) (shipment : Z) (out : list output) : nat :=
  length (List.filter (is_ended_for sid shipment) out).

(** The members of a group are exactly the sessions subscribed to its
    shipment. *)
Definition consistent (σ : State) : Prop :=
  ∀ sid shipment,
    sid ∈ group_members σ shipment
    ↔ ∃ s, sessions σ !! sid = Some s ∧ shipment ∈ subscribed_to s.

(** The same, checked by evaluation: every member of every group is a
    session subscribed to the group's shipment, and every session is a
    member of the group of every shipment it is subscribed to. *)
Definition subscribed_in (σ : State) (sid : nat) (shipment : Z) : bool :=
  match sessions σ !! sid with
  | Some s => bool_decide (shipment ∈ subscribed_to s)
  | None => false
  end.

Definition consistentb (σ : State) : bool :=
  bool_decide
    (map_Forall
       (λ shipment g,
          set_Forall (λ sid, subscribed_in σ sid shipment = true) (members g))
       (groups σ))
  && bool_decide
       (map_Forall
          (λ sid s,
             set_Forall (λ shipment, sid ∈ group_members σ shipment)
               (subscribed_to s))
          (sessions σ)).

End Core.

(** ** A sample state of the core *)

Module CoreSample.
Import Core.

(** Shipment 7 is owned by alice and assigned to courier 5; shipment 8 is
    owned by bob and unassigned. *)
Definition dir : Directory := λ shipment,
  if decide (shipment = 7)
  then Some {| owner := "alice"; assigned := Some "5"; is_terminal := false |}
  else if decide (shipment = 8)
  then Some {| owner := "bob"; assigned := None; is_terminal := false |}
  else None.

(** Session 1 is the courier's, 2 the owner's, 3 an administrator's that
    also watches shipment 8. *)
Definition courier_session : Session :=
  {| actor := {| actor_id := "5"; role := courier |};
     subscribed_to := {[ 7 ]}; counters := ∅; conn := open |}.

Definition state : State :=
  {| sessions :=
       {[ 1%nat := courier_session;
          2%nat := {| actor := {| actor_id := "alice"; role := observer |};
                      subscribed_to := {[ 7 ]}; counters := ∅;
                      conn := open |};
          3%nat := {| actor := {| actor_id := "root"; role := administrator |};
                      subscribed_to := {[ 7; 8 ]}; counters := ∅;
                      conn := open |} ]};
     groups :=
       {[ 7 := {| members := {[ 1%nat; 2%nat; 3%nat ]}; last_known := None |};
          8 := {| members := {[ 3%nat ]}; last_known := None |} ]};
     durable := [] |}.

End CoreSample.

(** * [data/store.ts]: the in-memory store with localStorage persistence

    The types [Parcel], [Driver] and [Notification] come from [data/mockData],
    which is not among the sources; their fields are those the store and its
    callers ([SendParcel], [AdminDrivers]) read and write.  Each record is
    cut the way the store cuts it: the generated fields ([id] and the dates)
    and the rest, which is what [Omit<.., 'id' | ..>] is given by the
    caller.  Dates are milliseconds. *)

Module Store.

Record Location := { lat : number; lng : number; address : string }.

Module Parcel.
(** [Omit<Parcel, 'id' | 'createdAt' | 'updatedAt'>]. *)
Record body := {
  clientId : string;
  clientName : string;
  senderName : string;
  pickupLocation : Location;
  dropLocation : Location;
  parcelType : string;
  weight : number;
  size : string;
  height : option number;
  width : option number;
  contactNumber : string;
  status : string;
  driverId : option string;
  driverName : option string;
}.
Record t := { id : string; createdAt : Z; updatedAt : Z; rest : body }.

(** [Partial<Parcel>]: the fields that are given, each with its value (a
    field given as [undefined], which no caller does, is not
    represented). *)
Record updates := {
  set_id : option string;
  set_createdAt : option Z;
  set_clientId : option string;
  set_clientName : option string;
  set_senderName : option string;
  set_pickupLocation : option Location;
  set_dropLocation : option Location;
  set_parcelType : option string;
  set_weight : option number;
  set_size : option string;
  set_height : option number;
  set_width : option number;
  set_contactNumber : option string;
  set_status : option string;
  set_driverId : option string;
  set_driverName : option string;
}.

Definition no_updates : updates :=
  {| set_id := None; set_createdAt := None; set_clientId := None;
     set_clientName := None; set_senderName := None;
     set_pickupLocation := None; set_dropLocation := None;
     set_parcelType := None; set_weight := None; set_size := None;
     set_height := None; set_width := None; set_contactNumber := None;
     set_status := None; set_driverId := None; set_driverName := None |}.

(** [{ ...parcel, ...updates, updatedAt }]. *)
Definition spread (p : t) (u : updates) (updatedAt : Z) : t :=
  {| id := default (id p) (set_id u);
     createdAt := default (createdAt p) (set_createdAt u);
     updatedAt := updatedAt;
     rest :=
       {| clientId := default (clientId (rest p)) (set_clientId u);
          clientName := default (clientName (rest p)) (set_clientName u);
          senderName := default (senderName (rest p)) (set_senderName u);
          pickupLocation :=
            default (pickupLocation (rest p)) (set_pickupLocation u);
          dropLocation := default (dropLocation (rest p)) (set_dropLocation u);
          parcelType := default (parcelType (rest p)) (set_parcelType u);
          weight := default (weight (rest p)) (set_weight u);
          size := default (size (rest p)) (set_size u);
          height := from_option Some (height (rest p)) (set_height u);
          width := from_option Some (width (rest p)) (set_width u);
          contactNumber :=
            default (contactNumber (rest p)) (set_contactNumber u);
          status := default (status (rest p)) (set_status u);
          driverId := from_option Some (driverId (rest p)) (set_driverId u);
          driverName :=
            from_option Some (driverName (rest p)) (set_driverName u) |} |}.
End Parcel.

Module Driver.
(** [Omit<Driver, 'id'>]. *)
Record body := {
  name : string;
  email : string;
  phone : string;
  vehicleType : string;
  vehicleNumber : string;
  isAvailable : bool;
  rating : number;
  currentLocation : Location;
}.
Record t := { id : string; rest : body }.

(** [Partial<Omit<Driver, 'id'>>]. *)
Record updates := {
  set_name : option string;
  set_email : option string;
  set_phone : option string;
  set_vehicleType : option string;
  set_vehicleNumber : option string;
  set_isAvailable : option bool;
  set_rating : option number;
  set_currentLocation : option Location;
}.

(** [{ ...driver, ...updates }]. *)
Definition spread (d : t) (u : updates) : t :=
  {| id := id d;
     rest :=
       {| name := default (name (rest d)) (set_name u);
          email := default (email (rest d)) (set_email u);
          phone := default (phone (rest d)) (set_phone u);
          vehicleType := default (vehicleType (rest d)) (set_vehicleType u);
          vehicleNumber :=
            default (vehicleNumber (rest d)) (set_vehicleNumber u);
          isAvailable := default (isAvailable (rest d)) (set_isAvailable u);
          rating := default (rating (rest d)) (set_rating u);
          currentLocation :=
            default (currentLocation (rest d)) (set_currentLocation u) |} |}.
End Driver.

Module Notification.
(** [Omit<Notification, 'id' | 'createdAt'>]. *)
Record body := {
  userId : string;
  title : string;
  message : string;
  type : string;
  read : bool;
}.
Record t := { id : string; createdAt : Z; rest : body }.

Definition mark_read (n : t) : t :=
  {| id := id n; createdAt := createdAt n;
     rest := {| userId := userId (rest n); title := title (rest n);
                message := message (rest n); type := type (rest n);
                read := true |} |}.
End Notification.

(** What [localStorage] holds under the keys 'parcels', 'notifications'
    and 'drivers': nothing, or the JSON text of a list the store has
    written, which is kept here as the list that [JSON.parse] and the
    revival of the dates give back. *)
Record Storage := {
  stored_parcels : option (list Parcel.t);
  stored_notifications : option (list Notification.t);
  stored_drivers : option (list Driver.t);
}.

(** The store: its three private arrays, the browser's [localStorage], and
    the number of times the clock has been read. *)
Record t := {
  parcels : list Parcel.t;
  notifications : list Notification.t;
  drivers : list Driver.t;
  localStorage : Storage;
  reads : nat;
}.

(** What the store takes from outside: the library functions
    [String.prototype.toLowerCase] and [slice(-4)], the clock (the value of
    its n-th reading), and the initial data of [data/mockData]. *)
Record Env := {
  toLowerCase : string → string;
  last4 : string → string;
  clock : nat → Z;
  initialParcels : list Parcel.t;
  initialNotifications : list Notification.t;
  mockDrivers : list Driver.t;
}.

(** The results [{ success, driver?, error? }] of the driver operations. *)
Inductive outcome (A : Type) :=
| success (value : A)
| failure (error : string).
Arguments success {A} value.
Arguments failure {A} error.

Definition set_parcels (v : list Parcel.t) (s : t) : t :=
  {| parcels := v; notifications := notifications s; drivers := drivers s;
     localStorage := localStorage s; reads := reads s |}.
Definition set_notifications (v : list Notification.t) (s : t) : t :=
  {| parcels := parcels s; notifications := v; drivers := drivers s;
     localStorage := localStorage s; reads := reads s |}.
Definition set_drivers (v : list Driver.t) (s : t) : t :=
  {| parcels := parcels s; notifications := notifications s; drivers := v;
     localStorage := localStorage s; reads := reads s |}.

Section DataStore.
Variable env : Env.

(** [Date.now()] and [new Date()]: one reading of the clock. *)
Definition now (s : t) : Z * t :=
  (clock env (reads s),
   {| parcels := parcels s; notifications := notifications s;
      drivers := drivers s; localStorage := localStorage s;
      reads := S (reads s) |}).

(** [loadFromStorage], called by the constructor on the browser's
    storage. *)
Definition loadFromStorage (storage : Storage) : t :=
  {| parcels := default (initialParcels env) (stored_parcels storage);
     notifications :=
       default (initialNotifications env) (stored_notifications storage);
     drivers := default (mockDrivers env) (stored_drivers storage);
     localStorage := storage;
     reads := 0 |}.

(** [saveToStorage]. *)
Definition saveToStorage (s : t) : t :=
  {| parcels := parcels s; notifications := notifications s;
     drivers := drivers s;
     localStorage :=
       {| stored_parcels := Some (parcels s);
          stored_notifications := Some (notifications s);
          stored_drivers := Some (drivers s) |};
     reads := reads s |}.

(** ** Notification operations *)

Definition getUnreadNotificationCount (userId : string) (s : t) : nat :=
  length (List.filter
            (λ n, bool_decide (Notification.userId (Notification.rest n) = userId)
                  && negb (Notification.read (Notification.rest n)))
            (notifications s)).

Definition addNotification (notification : Notification.body) (s : t)
    : t * Notification.t :=
  let '(t_id, s1) := now s in
  let '(t_created, s2) := now s1 in
  let newNotification :=
    {| Notification.id := "notif-" +:+ pretty t_id;
       Notification.createdAt := t_created;
       Notification.rest := notification |} in
  (saveToStorage (set_notifications (notifications s2 ++ [newNotification]) s2),
   newNotification).

Definition markNotificationRead (notificationId : string) (s : t) : t :=
  match list_find (λ n, Notification.id n = notificationId) (notifications s) with
  | Some (index, n) =>
      saveToStorage
        (set_notifications
           (<[index := Notification.mark_read n]> (notifications s)) s)
  | None => s
  end.

Definition markAllNotificationsRead (userId : string) (s : t) : t :=
  saveToStorage
    (set_notifications
       ((λ n, if decide (Notification.userId (Notification.rest n) = userId)
              then Notification.mark_read n else n) <$> notifications s) s).

(** ** Parcel operations *)

Definition getParcels (s : t) : list Parcel.t := parcels s.

Definition getParcelsByClient (clientId : string) (s : t) : list Parcel.t :=
  List.filter (λ p, bool_decide (Parcel.clientId (Parcel.rest p) = clientId))
    (parcels s).

Definition getParcelsByDriver (driverId : string) (s : t) : list Parcel.t :=
  List.filter
    (λ p, bool_decide (Parcel.driverId (Parcel.rest p) = Some driverId))
    (parcels s).

Definition getParcelById (parcelId : string) (s : t) : option Parcel.t :=
  snd <$> list_find (λ p, Parcel.id p = parcelId) (parcels s).

Definition addParcel (parcel : Parcel.body) (s : t) : t * Parcel.t :=
  let '(t_id, s1) := now s in
  let '(t_created, s2) := now s1 in
  let '(t_updated, s3) := now s2 in
  let newParcel :=
    {| Parcel.id := "parcel-" +:+ pretty t_id;
       Parcel.createdAt := t_created;
       Parcel.updatedAt := t_updated;
       Parcel.rest := parcel |} in
  let s4 := saveToStorage (set_parcels (parcels s3 ++ [newParcel]) s3) in
  (fst (addNotification
          {| Notification.userId := "admin-1";
             Notification.title := "New Parcel Request";
             Notification.message :=
               "New parcel request from " +:+ Parcel.clientName parcel;
             Notification.type := "info";
             Notification.read := false |} s4),
   newParcel).

Definition updateParcel (parcelId : string) (updates : Parcel.updates) (s : t)
    : t * option Parcel.t :=
  match list_find (λ p, Parcel.id p = parcelId) (parcels s) with
  | None => (s, None)
  | Some (index, p) =>
      let '(t_updated, s1) := now s in
      let updated := Parcel.spread p updates t_updated in
      (saveToStorage (set_parcels (<[index := updated]> (parcels s1)) s1),
       Some updated)
  end.

Definition status_only (status : string) : Parcel.updates :=
  {| Parcel.set_id := None; Parcel.set_createdAt := None;
     Parcel.set_clientId := None; Parcel.set_clientName := None;
     Parcel.set_senderName := None; Parcel.set_pickupLocation := None;
     Parcel.set_dropLocation := None; Parcel.set_parcelType := None;
     Parcel.set_weight := None; Parcel.set_size := None;
     Parcel.set_height := None; Parcel.set_width := None;
     Parcel.set_contactNumber := None; Parcel.set_status := Some status;
     Parcel.set_driverId := None; Parcel.set_driverName := None |}.

Definition acceptParcel (parcelId : string) (s : t) : t * option Parcel.t :=
  match updateParcel parcelId (status_only "accepted") s with
  | (s1, Some parcel) =>
      (fst (addNotification
              {| Notification.userId := Parcel.clientId (Parcel.rest parcel);
                 Notification.title := "Parcel Accepted";
                 Notification.message :=
                   "Your parcel request #" +:+ last4 env parcelId
                     +:+ " has been accepted.";
                 Notification.type := "success";
                 Notification.read := false |} s1),
       Some parcel)
  | (s1, None) => (s1, None)
  end.

Definition rejectParcel (parcelId : string) (s : t) : t * bool :=
  match getParcelById parcelId s with
  | None => (s, false)
  | Some parcel =>
      let s1 :=
        saveToStorage
          (set_parcels
             (List.filter (λ p, bool_decide (Parcel.id p ≠ parcelId))
                (parcels s)) s) in
      (fst (addNotification
              {| Notification.userId := Parcel.clientId (Parcel.rest parcel);
                 Notification.title := "Parcel Rejected";
                 Notification.message :=
                   "Your parcel request #" +:+ last4 env parcelId
                     +:+ " has been rejected.";
                 Notification.type := "warning";
                 Notification.read := false |} s1),
       true)
  end.

Definition assignment (driverId driverName : string) : Parcel.updates :=
  {| Parcel.set_id := None; Parcel.set_createdAt := None;
     Parcel.set_clientId := None; Parcel.set_clientName := None;
     Parcel.set_senderName := None; Parcel.set_pickupLocation := None;
     Parcel.set_dropLocation := None; Parcel.set_parcelType := None;
     Parcel.set_weight := None; Parcel.set_size := None;
     Parcel.set_height := None; Parcel.set_width := None;
     Parcel.set_contactNumber := None; Parcel.set_status := Some "in-transit";
     Parcel.set_driverId := Some driverId;
     Parcel.set_driverName := Some driverName |}.

Definition assignDriver (parcelId driverId : string) (s : t)
    : t * option Parcel.t :=
  match list_find (λ d, Driver.id d = driverId) (drivers s) with
  | None => (s, None)
  | Some (_, driver) =>
      match updateParcel parcelId
              (assignment driverId (Driver.name (Driver.rest driver))) s with
      | (s1, Some parcel) =>
          let s2 :=
            fst (addNotification
                   {| Notification.userId :=
                        Parcel.clientId (Parcel.rest parcel);
                      Notification.title := "Driver Assigned";
                      Notification.message :=
                        Driver.name (Driver.rest driver)
                          +:+ " has been assigned to your parcel #"
                          +:+ last4 env parcelId +:+ ".";
                      Notification.type := "info";
                      Notification.read := false |} s1) in
          (fst (addNotification
                  {| Notification.userId := driverId;
                     Notification.title := "New Assignment";
                     Notification.message :=
                       "You have been assigned a new parcel from "
                         +:+ Parcel.clientName (Parcel.rest parcel) +:+ ".";
                     Notification.type := "info";
                     Notification.read := false |} s2),
           Some parcel)
      | (s1, None) => (s1, None)
      end
  end.

Definition deliverParcel (parcelId : string) (s : t) : t * option Parcel.t :=
  match updateParcel parcelId (status_only "delivered") s with
  | (s1, Some parcel) =>
      (fst (addNotification
              {| Notification.userId := Parcel.clientId (Parcel.rest parcel);
                 Notification.title := "Parcel Delivered";
                 Notification.message :=
                   "Your parcel #" +:+ last4 env parcelId
                     +:+ " has been delivered successfully!";
                 Notification.type := "success";
                 Notification.read := false |} s1),
       Some parcel)
  | (s1, None) => (s1, None)
  end.

(** ** Driver operations *)

Definition getDrivers (s : t) : list Driver.t := drivers s.

Definition getAvailableDrivers (s : t) : list Driver.t :=
  List.filter (λ d, Driver.isAvailable (Driver.rest d)) (drivers s).

Definition getDriverById (driverId : string) (s : t) : option Driver.t :=
  snd <$> list_find (λ d, Driver.id d = driverId) (drivers s).

Definition updateDriverLocation (driverId : string) (location : Location)
    (s : t) : t :=
  match list_find (λ d, Driver.id d = driverId) (drivers s) with
  | Some (index, d) =>
      saveToStorage
        (set_drivers
           (<[index :=
                Driver.spread d
                  {| Driver.set_name := None; Driver.set_email := None;
                     Driver.set_phone := None; Driver.set_vehicleType := None;
                     Driver.set_vehicleNumber := None;
                     Driver.set_isAvailable := None;
                     Driver.set_rating := None;
                     Driver.set_currentLocation := Some location |}]>
              (drivers s)) s)
  | None => s
  end.

(** The two drivers' emails are the same but for case. *)
Definition same_email (a b : string) : Prop :=
  toLowerCase env a = toLowerCase env b.

#[global] Instance same_email_dec a b : Decision (same_email a b).
Proof. unfold same_email. apply _. Defined.

Definition addDriver (driverData : Driver.body) (s : t)
    : t * outcome Driver.t :=
  match list_find
          (λ d, same_email (Driver.email (Driver.rest d))
                  (Driver.email driverData))
          (drivers s) with
  | Some _ => (s, failure "A driver with this email already exists")
  | None =>
      let '(t_id, s1) := now s in
      let newDriver :=
        {| Driver.id := "driver-" +:+ pretty t_id;
           Driver.rest := driverData |} in
      (saveToStorage (set_drivers (drivers s1 ++ [newDriver]) s1),
       success newDriver)
  end.

(** [updateDriver]: the duplicate check is made only when [updates.email]
    is truthy, that is, given and not empty. *)
Definition updateDriver (driverId : string) (updates : Driver.updates) (s : t)
    : t * outcome Driver.t :=
  match list_find (λ d, Driver.id d = driverId) (drivers s) with
  | None => (s, failure "Driver not found")
  | Some (index, d) =>
      let duplicate :=
        match Driver.set_email updates with
        | Some e =>
            if decide (e = "") then None
            else list_find
                   (λ d', same_email (Driver.email (Driver.rest d')) e
                          ∧ Driver.id d' ≠ driverId)
                   (drivers s)
        | None => None
        end in
      match duplicate with
      | Some _ => (s, failure "A driver with this email already exists")
      | None =>
          let updated := Driver.spread d updates in
          (saveToStorage (set_drivers (<[index := updated]> (drivers s)) s),
           success updated)
      end
  end.

(** The parcels a driver is delivering. *)
Definition activeParcels (driverId : string) (s : t) : list Parcel.t :=
  List.filter
    (λ p, bool_decide (Parcel.driverId (Parcel.rest p) = Some driverId)
          && bool_decide (Parcel.status (Parcel.rest p) = "in-transit"))
    (parcels s).

Definition deleteDriver (driverId : string) (s : t) : t * outcome unit :=
  match list_find (λ d, Driver.id d = driverId) (drivers s) with
  | None => (s, failure "Driver not found")
  | Some (index, _) =>
      if decide (0 < length (activeParcels driverId s))%nat then
        (s, failure ("Cannot delete driver with "
                       +:+ pretty (length (activeParcels driverId s))
                       +:+ " active delivery(ies)"))
      else
        (saveToStorage (set_drivers (delete index (drivers s)) s),
         success ())
  end.

(** [reset]: the three arrays are set to the arrays of [data/mockData]
    as they are declared.  (The source copies those arrays but shares their
    elements with the store, so what [updateDriverLocation],
    [markNotificationRead] and [markAllNotificationsRead] have written into
    an element that is still the declared one is there again after the
    source's [reset]; the elements are kept apart here.) *)
Definition reset (s : t) : t :=
  saveToStorage
    {| parcels := initialParcels env;
       notifications := initialNotifications env;
       drivers := mockDrivers env;
       localStorage := localStorage s;
       reads := reads s |}.

End DataStore.

(** ** Reading the store *)

(** What [localStorage] holds is what the store holds. *)
Definition in_sync (s : t) : Prop :=
  localStorage s
  = {| stored_parcels := Some (parcels s);
       stored_notifications := Some (notifications s);
       stored_drivers := Some (drivers s) |}.

(** The three arrays of the store. *)
Definition memory (s : t)
    : list Parcel.t * list Notification.t * list Driver.t :=
  (parcels s, notifications s, drivers s).

(** From [s] to [s'] nothing was changed, neither in the store nor in
    [localStorage], or what [localStorage] holds is what the store holds. *)
Definition persisted (s s' : t) : Prop :=
  (memory s' = memory s ∧ localStorage s' = localStorage s) ∨ in_sync s'.

(** No two drivers have the same email but for case. *)
Definition unique_emails (env : Env) (l : list Driver.t) : Prop :=
  ∀ i j a b,
    l !! i = Some a → l !! j = Some b →
    same_email env (Driver.email (Driver.rest a)) (Driver.email (Driver.rest b)) →
    i = j.

(** The driver of every parcel in transit is a driver of the store. *)
Definition assigned_exist (s : t) : Prop :=
  ∀ p driverId,
    p ∈ parcels s →
    Parcel.status (Parcel.rest p) = "in-transit" →
    Parcel.driverId (Parcel.rest p) = Some driverId →
    ∃ d, d ∈ drivers s ∧ Driver.id d = driverId.

(** A parcel that is in transit with a driver has a driver of the
    store. *)
Definition known_driver (s : t) (b : Parcel.body) : Prop :=
  Parcel.status b = "in-transit" →
  ∀ driverId, Parcel.driverId b = Some driverId →
  ∃ d, d ∈ drivers s ∧ Driver.id d = driverId.

(** The two properties as tests. *)
Fixpoint unique_emailsb (env : Env) (l : list Driver.t) : bool :=
  match l with
  | [] => true
  | a :: l =>
      forallb (λ b, negb (bool_decide
                            (same_email env (Driver.email (Driver.rest a))
                               (Driver.email (Driver.rest b))))) l
      && unique_emailsb env l
  end.

Definition assigned_existb (s : t) : bool :=
  forallb
    (λ p, if bool_decide (Parcel.status (Parcel.rest p) = "in-transit")
          then match Parcel.driverId (Parcel.rest p) with
               | Some driverId =>
                   bool_decide (driverId ∈ Driver.id <$> drivers s)
               | None => true
               end
          else true)
    (parcels s).

End Store.

(** ** A sample store *)

Module StoreSample.
Import Store.

(** [toLowerCase] and [slice(-4)] on ASCII strings. *)
Definition lower_ascii (c : Ascii.ascii) : Ascii.ascii :=
  let n := Ascii.N_of_ascii c in
  if ((65 <=? n) && (n <=? 90))%N then Ascii.ascii_of_N (n + 32) else c.

Fixpoint lower (s : string) : string :=
  match s with
  | EmptyString => EmptyString
  | String c s => String (lower_ascii c) (lower s)
  end.

Definition slice_last4 (s : string) : string :=
  String.substring (String.length s - 4) 4 s.

(** A clock that is read eight times in a millisecond. *)
Definition slow_clock (n : nat) : Z := 1767866400000 + Z.of_nat (n / 8).

Definition kolhapur : Location :=
  {| lat := 16705 # 1000; lng := 74243 # 1000; address := "Kolhapur" |}.
Definition pune : Location :=
  {| lat := 18520 # 1000; lng := 73856 # 1000; address := "Pune" |}.

Definition ravi : Driver.t :=
  {| Driver.id := "driver-1";
     Driver.rest :=
       {| Driver.name := "Ravi"; Driver.email := "ravi@routex.com";
          Driver.phone := "9000000001"; Driver.vehicleType := "bike";
          Driver.vehicleNumber := "MH09-1"; Driver.isAvailable := true;
          Driver.rating := 45 # 10; Driver.currentLocation := kolhapur |} |}.
Definition meera : Driver.t :=
  {| Driver.id := "driver-2";
     Driver.rest :=
       {| Driver.name := "Meera"; Driver.email := "Meera@RouteX.com";
          Driver.phone := "9000000002"; Driver.vehicleType := "van";
          Driver.vehicleNumber := "MH12-2"; Driver.isAvailable := false;
          Driver.rating := 48 # 10; Driver.currentLocation := pune |} |}.

Definition box (client clientName status : string) (driver : option Driver.t)
    : Parcel.body :=
  {| Parcel.clientId := client; Parcel.clientName := clientName;
     Parcel.senderName := clientName;
     Parcel.pickupLocation := kolhapur; Parcel.dropLocation := pune;
     Parcel.parcelType := "documents"; Parcel.weight := 2 # 1;
     Parcel.size := "small"; Parcel.height := None; Parcel.width := None;
     Parcel.contactNumber := "9000000009"; Parcel.status := status;
     Parcel.driverId := Driver.id <$> driver;
     Parcel.driverName := (λ d, Driver.name (Driver.rest d)) <$> driver |}.

(** Parcel 1 is in transit with Ravi, parcel 2 is waiting. *)
Definition parcel_1 : Parcel.t :=
  {| Parcel.id := "parcel-1"; Parcel.createdAt := 1767860000000;
     Parcel.updatedAt := 1767860000500;
     Parcel.rest := box "client-1" "Asha" "in-transit" (Some ravi) |}.
Definition parcel_2 : Parcel.t :=
  {| Parcel.id := "parcel-2"; Parcel.createdAt := 1767861000000;
     Parcel.updatedAt := 1767861000000;
     Parcel.rest := box "client-2" "Bala" "pending" None |}.

Definition welcome : Notification.t :=
  {| Notification.id := "notif-1"; Notification.createdAt := 1767860000000;
     Notification.rest :=
       {| Notification.userId := "client-1"; Notification.title := "Welcome";
          Notification.message := "Welcome to RouteX";
          Notification.type := "info"; Notification.read := false |} |}.

Definition env : Env :=
  {| toLowerCase := lower; last4 := slice_last4; clock := slow_clock;
     initialParcels := [parcel_1; parcel_2];
     initialNotifications := [welcome];
     mockDrivers := [ravi; meera] |}.

(** The store as the constructor makes it in a browser whose storage is
    empty. *)
Definition store : t :=
  loadFromStorage env
    {| stored_parcels := None; stored_notifications := None;
       stored_drivers := None |}.

(** A parcel a client asks to be sent, and a driver whose email differs
    from Meera's in case only. *)
Definition request : Parcel.body := box "client-3" "Chitra" "pending" None.
Definition newcomer : Driver.body :=
  {| Driver.name := "Mira"; Driver.email := "MEERA@ROUTEX.COM";
     Driver.phone := "9000000003"; Driver.vehicleType := "bike";
     Driver.vehicleNumber := "MH10-3"; Driver.isAvailable := true;
     Driver.rating := 5 # 1; Driver.currentLocation := kolhapur |}.

(** An update of a driver's email. *)
Definition new_email (e : string) : Driver.updates :=
  {| Driver.set_name := None; Driver.set_email := Some e;
     Driver.set_phone := None; Driver.set_vehicleType := None;
     Driver.set_vehicleNumber := None; Driver.set_isAvailable := None;
     Driver.set_rating := None; Driver.set_currentLocation := None |}.
End StoreSample.

(** * Properties of the hook *)

Ltac unfold_actions :=
  unfold onclose, onopen, onerror, disconnect, schedule_reconnect,
    updateConnectionState, set_readyState, andThen, modify, emit, skip in *.

(** Case analysis on every [match] of the goal. *)
Ltac crunch :=
  repeat (simpl in *;
          match goal with
          | |- context [match ?x with _ => _ end] => destruct x eqn:?
          end);
  simpl in *; simplify_eq.

Lemma run_app opts h evs1 evs2 :
  run opts h (evs1 ++ evs2) =
  let '(h1, e1) := run opts h evs1 in
  let '(h2, e2) := run opts h1 evs2 in
  (h2, e1 ++ e2).
Proof.
  revert h. induction evs1 as [|ev evs1 IH]; intros h; simpl.
  - by destruct (run opts h evs2).
  - destruct (step opts h ev) as [h1 e1]. rewrite IH.
    destruct (run opts h1 evs1) as [h2 e2].
    destruct (run opts h2 evs2) as [h3 e3]. by rewrite app_assoc.
Qed.

Lemma changes_app log1 log2 :
  changes (log1 ++ log2) = changes log1 ++ changes log2.
Proof.
  induction log1 as [|e log1 IH]; [done|].
  destruct e; simpl; by rewrite ?IH.
Qed.

Lemma scheduled_app log1 log2 :
  scheduled (log1 ++ log2) = (scheduled log1 + scheduled log2)%nat.
Proof. unfold scheduled. by rewrite List.filter_app, length_app. Qed.

Lemma gave_up_app log1 log2 :
  gave_up (log1 ++ log2) = (gave_up log1 + gave_up log2)%nat.
Proof. unfold gave_up. by rewrite List.filter_app, length_app. Qed.

Lemma run_cons opts h ev evs :
  run opts h (ev :: evs) =
  (fst (run opts (fst (step opts h ev)) evs),
   snd (step opts h ev) ++ snd (run opts (fst (step opts h ev)) evs)).
Proof.
  simpl. destruct (step opts h ev) as [h1 e1]. simpl.
  by destruct (run opts h1 evs).
Qed.

Lemma run_nil opts h : run opts h [] = (h, []).
Proof. done. Qed.

Lemma constructed_app log1 log2 :
  constructed (log1 ++ log2) = (constructed log1 + constructed log2)%nat.
Proof. unfold constructed. by rewrite List.filter_app, length_app. Qed.

(** ** The four outcomes of [connect] *)

Lemma connect_cases opts h : connect_outcome opts h (connect opts h).
Proof.
  unfold connect.
  destruct (readyState h) as [r|] eqn:Hr.
  - destruct r; try (apply connect_guarded; unfold active; by rewrite Hr);
      unfold_actions; simpl;
      (destruct (getWebSocketUrl opts h) as [url|m] eqn:Hu;
       unfold getWebSocketUrl in *; simpl; rewrite Hu; simpl;
       [destruct (ws_scheme url) eqn:Hs; simpl|]);
      [ eapply connect_socket | eapply connect_bad_url | eapply connect_no_url
      | eapply connect_socket | eapply connect_bad_url | eapply connect_no_url ];
      eauto; unfold active; by rewrite Hr.
  - unfold_actions; simpl.
    destruct (getWebSocketUrl opts h) as [url|m] eqn:Hu;
      unfold getWebSocketUrl in *; simpl; rewrite Hu; simpl;
      [destruct (ws_scheme url) eqn:Hs; simpl|];
      [ eapply connect_socket | eapply connect_bad_url | eapply connect_no_url ];
      eauto; unfold active; by rewrite Hr.
Qed.

Lemma step_connect opts h : step opts h EvConnect = connect opts h.
Proof. done. Qed.

Lemma connect_guard opts h :
  readyState h = Some OPEN ∨ readyState h = Some CONNECTING →
  connect opts h = (h, []).
Proof. unfold connect. by intros [-> | ->]. Qed.

(** A second [connect] right after one that constructed a socket does
    nothing. *)
Lemma connect_twice opts h :
  constructed (snd (connect opts h)) ≠ 0%nat →
  connect opts (fst (connect opts h)) = (fst (connect opts h), []).
Proof.
  intros Hc. apply connect_guard. right.
  destruct (connect_cases opts h) as [Ha|m Ha Hu|url Ha Hu Hs|url Ha Hu Hs];
    simpl in *; try done.
  unfold readyState; simpl. by rewrite lookup_app_r, Nat.sub_diag.
Qed.

(** C9. Calling [connect] while the socket in [wsRef] is OPEN or CONNECTING
    does nothing: the state is returned as it was, so no socket is added and
    the connection state, the attempt counter and the intentional-disconnect
    flag are unchanged, and no effect is produced (no second socket is
    constructed). *)
Theorem connect_noop_on_active_connection opts h :
  readyState h = Some OPEN ∨ readyState h = Some CONNECTING →
  connect opts h = (h, [])
  ∧ step opts h EvConnect = (h, [])
  ∧ sockets (fst (connect opts h)) = sockets h
  ∧ connectionState (fst (connect opts h)) = connectionState h
  ∧ reconnectAttemptsRef (fst (connect opts h)) = reconnectAttemptsRef h
  ∧ intentionalDisconnectRef (fst (connect opts h)) = intentionalDisconnectRef h
  ∧ constructed (snd (connect opts h)) = 0%nat.
Proof.
  intros Hactive. simpl.
  rewrite (connect_guard opts h Hactive). done.
Qed.

Lemma connect_noop_on_active_connection_witness :
  connect sample_opts sample_open = (sample_open, []).
Proof.
  apply (connect_noop_on_active_connection sample_opts sample_open).
  left. reflexivity.
Defined.

(** ** [sendLocationUpdate] *)

(** An explicitly supplied parcel id of 0 is not the one sent: on an open
    socket the hook's configured [parcelId] (7 here) goes out instead. *)
Lemma sendLocationUpdate_explicit_zero_not_sent :
  ¬ sends_explicit_or_configured sample_opts sample_open sample_location (Some 0).
Proof.
  intros Hclaim. specialize (Hclaim 0%nat eq_refl eq_refl). discriminate Hclaim.
Qed.

Lemma parcel_id_or_spec opts specificParcelId :
  (∀ n, specificParcelId = Some n → n ≠ 0 →
     parcel_id_or opts specificParcelId = n)
  ∧ (specificParcelId = None ∨ specificParcelId = Some 0 →
     parcel_id_or opts specificParcelId = parcelId opts).
Proof.
  unfold parcel_id_or. split.
  - intros n -> Hn. by destruct (decide (n = 0)).
  - by intros [-> | ->].
Qed.

(** C10 (amended). [sendLocationUpdate] never throws.  When the socket in
    [wsRef] is not OPEN (or there is none) it sends nothing, leaves the state
    as it is and calls [onError] with 'Not connected to tracking server'.
    When it is OPEN it sends exactly one [location_update] on that socket,
    with the location's coordinates and address, whose [parcel_id] is the
    explicitly supplied id when one is given and is not 0, and the hook's
    configured [parcelId] when none is given or the given one is 0. *)
Theorem sendLocationUpdate_sends_or_reports opts h location specificParcelId :
  (readyState h ≠ Some OPEN →
   sendLocationUpdate opts location specificParcelId h
   = (h, [OnError "Not connected to tracking server"]))
  ∧ (∀ id, wsRef h = Some id → readyState h = Some OPEN →
     ∃ p,
       sendLocationUpdate opts location specificParcelId h
       = (h, [WsSend id (location_update (lat location) (lng location)
                           (address location) (Some p))])
       ∧ (∀ n, specificParcelId = Some n → n ≠ 0 → p = n)
       ∧ (specificParcelId = None ∨ specificParcelId = Some 0 →
          p = parcelId opts)).
Proof.
  split.
  - intros Hr. unfold sendLocationUpdate.
    destruct (wsRef h); [|done].
    by destruct (readyState h) as [[]|].
  - intros id Hid Hr. exists (parcel_id_or opts specificParcelId).
    split; [|apply parcel_id_or_spec].
    unfold sendLocationUpdate. by rewrite Hid, Hr.
Qed.

Lemma sendLocationUpdate_sends_or_reports_witness :
  sendLocationUpdate sample_opts sample_location (Some 12) (init NoItem)
  = (init NoItem, [OnError "Not connected to tracking server"])
  ∧ ∃ p,
      sendLocationUpdate sample_opts sample_location (Some 12) sample_open
      = (sample_open,
         [WsSend 0 (location_update (lat sample_location) (lng sample_location)
                      (address sample_location) (Some p))])
      ∧ p = 12.
Proof.
  split.
  - apply (sendLocationUpdate_sends_or_reports sample_opts (init NoItem)).
    discriminate.
  - destruct (proj2 (sendLocationUpdate_sends_or_reports sample_opts
        sample_open sample_location (Some 12)) 0%nat eq_refl eq_refl)
      as (p & Hsend & Hgiven & _).
    exists p. split; [exact Hsend|]. by apply Hgiven.
Defined.

(** ** Drops and reconnection *)

Lemma onclose_cases h : onclose_outcome h (onclose h).
Proof.
  unfold_actions; simpl.
  destruct (intentionalDisconnectRef h) eqn:Hi; simpl.
  - case_bool_decide; simpl.
    + by apply onclose_give_up.
    + apply onclose_intentional; [done|]. unfold MAX_RECONNECT_ATTEMPTS in *. lia.
  - case_bool_decide as Hlt; simpl.
    + by apply onclose_retry.
    + rewrite bool_decide_true by lia. simpl. apply onclose_give_up. lia.
Qed.

(** What a drop of a socket that is not yet closed runs. *)
Lemma step_drop opts h id r failed :
  sockets h !! id = Some r → r ≠ CLOSED →
  step opts h (drop failed id) =
  (fst (onclose (dropped failed id h)),
   drop_prefix failed ++ snd (onclose (dropped failed id h))).
Proof.
  intros Hid Hr. unfold dropped.
  destruct failed; simpl; rewrite Hid; destruct r; try done;
    unfold set_readyState, onerror, updateConnectionState, andThen, modify, emit;
    simpl; by destruct (onclose _).
Qed.

Lemma step_timeout opts h handle :
  handle ∈ timers h →
  step opts h (EvTimeout handle) =
  connect opts (set_timers (timers h ∖ {[handle]}) (nextTimer h) h).
Proof.
  intros Hin. simpl. rewrite decide_True by done.
  unfold_actions. simpl. by destruct (connect _ _).
Qed.

(** What [disconnect] leaves and emits. *)
Lemma disconnect_fields h :
  let h' := fst (disconnect h) in
  intentionalDisconnectRef h' = true
  ∧ wsRef h' = None
  ∧ reconnectTimeoutRef h' = None
  ∧ connectionState h' = ConnectionState.disconnected
  ∧ reconnectAttemptsRef h' = reconnectAttemptsRef h
  ∧ timers h' = match reconnectTimeoutRef h with
                | Some handle => timers h ∖ {[handle]}
                | None => timers h
                end
  ∧ sockets h' = match wsRef h with
                 | Some id => sockets (close_socket id h)
                 | None => sockets h
                 end
  ∧ nextTimer h' = nextTimer h
  ∧ localStorage_tokens h' = localStorage_tokens h
  ∧ driverLocation h' = driverLocation h.
Proof. unfold_actions. unfold close_socket. crunch; done. Qed.

Lemma disconnect_log h :
  snd (disconnect h) =
  match reconnectTimeoutRef h with
  | Some handle => [ClearTimeout handle]
  | None => []
  end ++
  match wsRef h with
  | Some id => [WsClose id]
  | None => []
  end ++ [OnConnectionChange ConnectionState.disconnected].
Proof. unfold_actions. crunch; done. Qed.

(** The attempt counter counts the scheduled reconnections: outside of a
    socket opening, an event raises it by the number of timers it sets, which
    is at most one, and one only below the maximum. *)
Lemma step_scheduled opts h ev :
  (∀ id, ev ≠ EvOpen id) →
  reconnectAttemptsRef (fst (step opts h ev))
  = (reconnectAttemptsRef h + scheduled (snd (step opts h ev)))%nat
  ∧ (scheduled (snd (step opts h ev)) = 0%nat
     ∨ scheduled (snd (step opts h ev)) = 1%nat
       ∧ (reconnectAttemptsRef h < MAX_RECONNECT_ATTEMPTS)%nat).
Proof.
  intros Hev.
  assert (Hdisc : ∀ h0,
    reconnectAttemptsRef (fst (disconnect h0))
    = (reconnectAttemptsRef h0 + scheduled (snd (disconnect h0)))%nat
    ∧ (scheduled (snd (disconnect h0)) = 0%nat
       ∨ scheduled (snd (disconnect h0)) = 1%nat
         ∧ (reconnectAttemptsRef h0 < MAX_RECONNECT_ATTEMPTS)%nat)).
  { intros h0. rewrite disconnect_log.
    destruct (disconnect_fields h0) as (_ & _ & _ & _ & -> & _).
    unfold scheduled.
    destruct (reconnectTimeoutRef h0), (wsRef h0); simpl; split; auto. }
  assert (Hconn : ∀ h0,
    reconnectAttemptsRef (fst (connect opts h0))
    = (reconnectAttemptsRef h0 + scheduled (snd (connect opts h0)))%nat
    ∧ (scheduled (snd (connect opts h0)) = 0%nat
       ∨ scheduled (snd (connect opts h0)) = 1%nat
         ∧ (reconnectAttemptsRef h0 < MAX_RECONNECT_ATTEMPTS)%nat)).
  { intros h0. unfold scheduled.
    destruct (connect_cases opts h0); simpl; split; auto. }
  assert (Hdrop : ∀ id r failed, sockets h !! id = Some r → r ≠ CLOSED →
    reconnectAttemptsRef (fst (step opts h (drop failed id)))
    = (reconnectAttemptsRef h + scheduled (snd (step opts h (drop failed id))))%nat
    ∧ (scheduled (snd (step opts h (drop failed id))) = 0%nat
       ∨ scheduled (snd (step opts h (drop failed id))) = 1%nat
         ∧ (reconnectAttemptsRef h < MAX_RECONNECT_ATTEMPTS)%nat)).
  { intros id r failed Hid Hr. rewrite (step_drop opts h id r failed Hid Hr).
    cbn [fst snd]. rewrite scheduled_app.
    assert (reconnectAttemptsRef (dropped failed id h) = reconnectAttemptsRef h)
      as <- by by destruct failed.
    assert (scheduled (drop_prefix failed) = 0%nat) as -> by by destruct failed.
    destruct (onclose_cases (dropped failed id h)) as [Hi Hlt|Hge|Hi Hlt];
      unfold scheduled; simpl; split; auto with lia. }
  destruct ev as [| |loc sp|id|id data now|id|id|handle|item]; simpl.
  - apply Hconn.
  - apply Hdisc.
  - unfold sendLocationUpdate.
    destruct (wsRef h); [destruct (readyState h) as [[]|]|]; simpl; auto.
  - by destruct (Hev id).
  - destruct (sockets h !! id) as [[]|]; simpl; auto.
    destruct data as [|[]|]; simpl; auto. apply Hdisc.
  - destruct (sockets h !! id) as [r|] eqn:Hid; [|simpl; auto].
    destruct (decide (r = CLOSED)) as [->|Hr]; [simpl; auto|].
    specialize (Hdrop id r true Hid Hr). simpl in Hdrop. rewrite Hid in Hdrop.
    by destruct r.
  - destruct (sockets h !! id) as [r|] eqn:Hid; [|simpl; auto].
    destruct (decide (r = CLOSED)) as [->|Hr]; [simpl; auto|].
    specialize (Hdrop id r false Hid Hr). simpl in Hdrop. rewrite Hid in Hdrop.
    by destruct r.
  - destruct (decide (handle ∈ timers h)) as [Hin|]; [|simpl; auto].
    pose proof (step_timeout opts h handle Hin) as Hstep. simpl in Hstep.
    rewrite decide_True in Hstep by done. rewrite Hstep.
    exact (Hconn (set_timers (timers h ∖ {[handle]}) (nextTimer h) h)).
  - auto.
Qed.

(** Between two openings at most [MAX_RECONNECT_ATTEMPTS] reconnections are
    scheduled, whatever else happens. *)
Lemma scheduled_bound opts h evs :
  no_open evs →
  (scheduled (snd (run opts h evs))
   ≤ MAX_RECONNECT_ATTEMPTS - reconnectAttemptsRef h)%nat.
Proof.
  intros Hno. revert h. induction Hno as [|ev evs Hev _ IH]; intros h; simpl.
  - unfold scheduled. simpl. lia.
  - destruct (step_scheduled opts h ev Hev) as [Hatt Hsch].
    destruct (step opts h ev) as [h1 e1]. specialize (IH h1).
    destruct (run opts h1 evs) as [h2 e2]. simpl in *.
    rewrite scheduled_app. lia.
Qed.

(** *** Consecutive drops *)

Lemma prefix_append p a b :
  String.prefix p a = true → String.prefix p (a +:+ b) = true.
Proof.
  revert a. induction p as [|c p IH]; intros a.
  - intros _. by destruct (a +:+ b).
  - destruct a as [|c' a]; [done|].
    change (String c' a +:+ b) with (String c' (a +:+ b)). simpl.
    destruct (Ascii.ascii_dec c c'); [apply IH|done].
Qed.

Lemma ws_scheme_append a b : ws_scheme a = true → ws_scheme (a +:+ b) = true.
Proof.
  unfold ws_scheme. intros [H|H]%orb_true_iff; apply orb_true_iff;
    [left|right]; by apply prefix_append.
Qed.

Lemma getWebSocketUrl_ok opts h access :
  ws_scheme (baseUrl opts) = true →
  localStorage_tokens h = Tokens access →
  ∃ url, getWebSocketUrl opts h = inl url ∧ ws_scheme url = true.
Proof.
  intros Hb Ht. unfold getWebSocketUrl. rewrite Ht. eexists. split; [done|].
  by apply ws_scheme_append.
Qed.

Lemma lookup_replicate_end {A} k (x y : A) :
  (replicate k x ++ [y]) !! k = Some y.
Proof. rewrite lookup_app_r; rewrite length_replicate; [|done]. by rewrite Nat.sub_diag. Qed.

Lemma insert_replicate_end {A} k (x y : A) :
  <[k := x]> (replicate k x ++ [y]) = replicate (S k) x.
Proof. induction k as [|k IH]; simpl; [done|]. by rewrite IH. Qed.

Lemma Forall_replicate_eq {A} k (x : A) : Forall (eq x) (replicate k x).
Proof. induction k; simpl; by constructor. Qed.

(** From the first [connect] on a fresh hook. *)
Lemma attempting_first opts access :
  ws_scheme (baseUrl opts) = true →
  attempting access 0 (fst (step opts (init (Tokens access)) EvConnect))
  ∧ scheduled (snd (step opts (init (Tokens access)) EvConnect)) = 0%nat
  ∧ constructed (snd (step opts (init (Tokens access)) EvConnect)) = 1%nat
  ∧ gave_up (snd (step opts (init (Tokens access)) EvConnect)) = 0%nat.
Proof.
  intros Hb. rewrite step_connect.
  destruct (getWebSocketUrl_ok opts (init (Tokens access)) access Hb eq_refl)
    as (url & Hu & Hs).
  destruct (connect_cases opts (init (Tokens access)))
    as [Ha|m Ha Hu'|url' Ha Hu' Hs'|url' Ha Hu' Hs']; try done;
    try (rewrite Hu in Hu'; simplify_eq; congruence).
Qed.

(** One drop and the reconnection it schedules. *)
Lemma attempting_round opts access k h failed :
  ws_scheme (baseUrl opts) = true →
  attempting access k h → (k < MAX_RECONNECT_ATTEMPTS)%nat →
  attempting access (S k) (fst (run opts h [drop failed k; EvTimeout (S k)]))
  ∧ scheduled (snd (run opts h [drop failed k; EvTimeout (S k)])) = 1%nat
  ∧ constructed (snd (run opts h [drop failed k; EvTimeout (S k)])) = 1%nat
  ∧ gave_up (snd (run opts h [drop failed k; EvTimeout (S k)])) = 0%nat.
Proof.
  intros Hb (Hsock & Hws & Hatt & Htim & Hnext & Hint & Hst & Htok) Hk.
  assert (sockets h !! k = Some CONNECTING) as Hlook
    by (rewrite Hsock; apply lookup_replicate_end).
  rewrite !run_cons, run_nil.
  rewrite (step_drop opts h k CONNECTING failed Hlook) by done.
  destruct (onclose_cases (dropped failed k h)) as [Hi Hlt|Hge|Hi Hlt];
    [ | exfalso; destruct failed; simpl in *; lia
      | exfalso; destruct failed; simpl in *; congruence ].
  cbn [fst snd].
  match goal with |- context [step opts ?h1 (EvTimeout _)] => set (h1' := h1) end.
  assert (S k ∈ timers h1') as Hin.
  { subst h1'. destruct failed; simpl; rewrite Hnext;
      apply elem_of_union_l, elem_of_singleton; done. }
  rewrite (step_timeout opts h1' (S k) Hin).
  match goal with |- context [connect opts ?h2] => set (h2' := h2) end.
  destruct (getWebSocketUrl_ok opts h2' access Hb) as (url & Hu & Hs).
  { subst h2' h1'. by destruct failed. }
  destruct (connect_cases opts h2')
    as [Ha|m Ha Hu'|url' Ha Hu' Hs'|url' Ha Hu' Hs'];
    try (rewrite Hu in Hu'; simplify_eq; congruence).
  { exfalso. subst h2' h1'. unfold active, readyState in Ha.
    by destruct failed. }
  subst h2' h1'. unfold attempting, scheduled, constructed, gave_up.
  destruct failed; simpl; rewrite ?Hsock, ?Hatt, ?Hnext, ?Htim,
    ?insert_replicate_end, ?length_app, ?length_replicate; simpl;
    (repeat split; try done;
     rewrite union_empty_r_L; apply difference_diag_L).
Qed.

Lemma attempting_rounds opts access fails : ∀ k h,
  ws_scheme (baseUrl opts) = true →
  attempting access k h → (k + length fails ≤ MAX_RECONNECT_ATTEMPTS)%nat →
  attempting access (k + length fails) (fst (run opts h (rounds_from k fails)))
  ∧ scheduled (snd (run opts h (rounds_from k fails))) = length fails
  ∧ constructed (snd (run opts h (rounds_from k fails))) = length fails
  ∧ gave_up (snd (run opts h (rounds_from k fails))) = 0%nat.
Proof.
  induction fails as [|f fails IH]; intros k h Hb Hatt Hk.
  - simpl. by rewrite Nat.add_0_r.
  - change (rounds_from k (f :: fails))
      with ([drop f k; EvTimeout (S k)] ++ rounds_from (S k) fails).
    rewrite run_app.
    simpl length in *.
    destruct (attempting_round opts access k h f Hb Hatt) as (H1 & H2 & H3 & H4);
      [lia|].
    destruct (run opts h [drop f k; EvTimeout (S k)]) as [h1 e1].
    destruct (IH (S k) h1 Hb H1) as (H5 & H6 & H7 & H8); [cbn [fst]; lia|].
    destruct (run opts h1 (rounds_from (S k) fails)) as [h2 e2].
    cbn [fst snd] in *.
    rewrite scheduled_app, constructed_app, gave_up_app.
    replace (k + S (length fails))%nat with (S k + length fails)%nat by lia.
    split; [exact H5|]. rewrite H2, H3, H4, H6, H7, H8. done.
Qed.

(** A drop while reconnections remain: one is scheduled, 3000 ms ahead. *)
Lemma drop_schedules opts h id r failed :
  sockets h !! id = Some r → r ≠ CLOSED →
  intentionalDisconnectRef h = false →
  (reconnectAttemptsRef h < MAX_RECONNECT_ATTEMPTS)%nat →
  snd (step opts h (drop failed id))
  = drop_prefix failed
    ++ [OnConnectionChange ConnectionState.disconnected;
        SetTimeout (nextTimer h) 3000]
  ∧ connectionState (fst (step opts h (drop failed id)))
    = ConnectionState.disconnected
  ∧ wsRef (fst (step opts h (drop failed id))) = None
  ∧ sockets (fst (step opts h (drop failed id))) = <[id := CLOSED]> (sockets h)
  ∧ reconnectAttemptsRef (fst (step opts h (drop failed id)))
    = S (reconnectAttemptsRef h)
  ∧ timers (fst (step opts h (drop failed id))) = {[nextTimer h]} ∪ timers h
  ∧ reconnectTimeoutRef (fst (step opts h (drop failed id)))
    = Some (nextTimer h).
Proof.
  intros Hid Hr Hint Hlt. rewrite (step_drop opts h id r failed Hid Hr).
  destruct (onclose_cases (dropped failed id h)) as [Hi Hlt'|Hge|Hi Hlt'];
    [ | exfalso; destruct failed; simpl in *; lia
      | exfalso; destruct failed; simpl in *; congruence ].
  by destruct failed.
Qed.

(** A drop when the attempts are used up: nothing is scheduled and the
    caller is told. *)
Lemma drop_gives_up opts h id r failed :
  sockets h !! id = Some r → r ≠ CLOSED →
  (MAX_RECONNECT_ATTEMPTS ≤ reconnectAttemptsRef h)%nat →
  snd (step opts h (drop failed id))
  = drop_prefix failed
    ++ [OnConnectionChange ConnectionState.disconnected; fatal]
  ∧ connectionState (fst (step opts h (drop failed id)))
    = ConnectionState.disconnected
  ∧ wsRef (fst (step opts h (drop failed id))) = None
  ∧ sockets (fst (step opts h (drop failed id))) = <[id := CLOSED]> (sockets h)
  ∧ reconnectAttemptsRef (fst (step opts h (drop failed id)))
    = reconnectAttemptsRef h
  ∧ timers (fst (step opts h (drop failed id))) = timers h.
Proof.
  intros Hid Hr Hge. rewrite (step_drop opts h id r failed Hid Hr).
  destruct (onclose_cases (dropped failed id h)) as [Hi Hlt'|Hge'|Hi Hlt'];
    [ exfalso; destruct failed; simpl in *; lia | 
    | exfalso; destruct failed; simpl in *; lia ].
  by destruct failed.
Qed.

Lemma scheduled_drop_prefix failed : scheduled (drop_prefix failed) = 0%nat.
Proof. by destruct failed. Qed.
Lemma constructed_drop_prefix failed : constructed (drop_prefix failed) = 0%nat.
Proof. by destruct failed. Qed.
Lemma gave_up_drop_prefix failed : gave_up (drop_prefix failed) = 0%nat.
Proof. by destruct failed. Qed.

(** The whole run of [length fails + 1] consecutive drops. *)
Lemma consecutive_drops_run opts access fails last :
  ws_scheme (baseUrl opts) = true →
  let r := run opts (init (Tokens access)) (consecutive_drops fails last) in
  ((length fails < MAX_RECONNECT_ATTEMPTS)%nat →
   connectionState (fst r) = ConnectionState.disconnected
   ∧ timers (fst r) = {[S (length fails)]}
   ∧ scheduled (snd r) = S (length fails)
   ∧ constructed (snd r) = S (length fails)
   ∧ gave_up (snd r) = 0%nat)
  ∧ (length fails = MAX_RECONNECT_ATTEMPTS →
     terminal (fst r)
     ∧ scheduled (snd r) = MAX_RECONNECT_ATTEMPTS
     ∧ constructed (snd r) = S MAX_RECONNECT_ATTEMPTS
     ∧ gave_up (snd r) = 1%nat).
Proof.
  intros Hb r. subst r. unfold consecutive_drops.
  rewrite run_cons, run_app.
  destruct (attempting_first opts access Hb) as (H0 & S0 & C0 & G0).
  destruct (step opts (init (Tokens access)) EvConnect) as [h0 e0].
  cbn [fst snd] in *.
  assert (Hrounds : (length fails ≤ MAX_RECONNECT_ATTEMPTS)%nat →
    attempting access (length fails) (fst (run opts h0 (rounds_from 0 fails)))
    ∧ scheduled (snd (run opts h0 (rounds_from 0 fails))) = length fails
    ∧ constructed (snd (run opts h0 (rounds_from 0 fails))) = length fails
    ∧ gave_up (snd (run opts h0 (rounds_from 0 fails))) = 0%nat).
  { intros Hle. apply (attempting_rounds opts access fails 0 h0 Hb H0). lia. }
  destruct (run opts h0 (rounds_from 0 fails)) as [h1 e1].
  cbn [fst snd] in *. rewrite run_cons, run_nil. cbn [fst snd].
  rewrite app_nil_r, !scheduled_app, !constructed_app, !gave_up_app.
  split.
  - intros Hlt. destruct Hrounds as (Hatt & S1 & C1 & G1); [lia|].
    destruct Hatt as (Hsock & Hws & Hatt & Htim & Hnext & Hint & Hst & Htok).
    destruct (drop_schedules opts h1 (length fails) CONNECTING last)
      as (-> & -> & _ & _ & _ & -> & _);
      [rewrite Hsock; apply lookup_replicate_end | done | done | lia |].
    rewrite !scheduled_app, !constructed_app, !gave_up_app,
      scheduled_drop_prefix, constructed_drop_prefix, gave_up_drop_prefix.
    rewrite S0, S1, C0, C1, G0, G1, Hnext, Htim.
    unfold scheduled, constructed, gave_up; simpl.
    repeat split; try done; try lia. by rewrite union_empty_r_L.
  - intros Heq. destruct Hrounds as (Hatt & S1 & C1 & G1); [lia|].
    destruct Hatt as (Hsock & Hws & Hatt & Htim & Hnext & Hint & Hst & Htok).
    destruct (drop_gives_up opts h1 (length fails) CONNECTING last)
      as (-> & Hd & Hw & Hs & _ & Ht);
      [rewrite Hsock; apply lookup_replicate_end | done | lia |].
    rewrite !scheduled_app, !constructed_app, !gave_up_app,
      scheduled_drop_prefix, constructed_drop_prefix, gave_up_drop_prefix.
    rewrite S0, S1, C0, C1, G0, G1.
    unfold scheduled, constructed, gave_up; simpl.
    repeat split; try done; try lia.
    + rewrite Hs, Hsock, insert_replicate_end. apply Forall_replicate_eq.
    + by rewrite Ht.
Qed.

(** After the 5th consecutive drop the controller has not given up: the
    5th reconnection is pending and the caller has not been told. *)
Lemma fifth_drop_is_retried :
  ¬ gives_up_after sample_opts "t" [true; true; true; true] true.
Proof. intros [_ Hgave]. vm_compute in Hgave. discriminate Hgave. Qed.

(** C1 (amended). An unexpected drop (the socket fails or closes while the
    intentional-disconnect flag is down) with fewer than 5 reconnection
    attempts counted sets the state to [disconnected], counts one more
    attempt and schedules one reconnection 3000 ms ahead, which calls
    [connect] when it fires.  Between two successful openings at most 5
    reconnections are scheduled, whatever the events.  A drop with 5 attempts
    counted schedules nothing and calls [onError] with the fatal message.  So
    in a run of consecutive unexpected drops from a fresh hook each of the
    first 5 drops is followed by a reconnection attempt, and it is the 6th
    drop, that of the 5th reconnection attempt, after which the controller is
    in a terminal disconnected state with the fatal notification surfaced
    once: 6 sockets were constructed, the first and 5 reconnections, and
    there is no 6th reconnection. *)
Theorem reconnection_attempts_bounded opts :
  (∀ h id r failed,
     sockets h !! id = Some r → r ≠ CLOSED →
     intentionalDisconnectRef h = false →
     (reconnectAttemptsRef h < 5)%nat →
     snd (step opts h (drop failed id))
     = drop_prefix failed
       ++ [OnConnectionChange ConnectionState.disconnected;
           SetTimeout (nextTimer h) 3000]
     ∧ connectionState (fst (step opts h (drop failed id)))
       = ConnectionState.disconnected
     ∧ reconnectAttemptsRef (fst (step opts h (drop failed id)))
       = S (reconnectAttemptsRef h)
     ∧ timers (fst (step opts h (drop failed id))) = {[nextTimer h]} ∪ timers h)
  ∧ (∀ h handle,
       handle ∈ timers h →
       step opts h (EvTimeout handle)
       = connect opts (set_timers (timers h ∖ {[handle]}) (nextTimer h) h))
  ∧ (∀ h evs,
       no_open evs →
       (scheduled (snd (run opts h evs)) ≤ 5 - reconnectAttemptsRef h)%nat)
  ∧ (∀ h id r failed,
       sockets h !! id = Some r → r ≠ CLOSED →
       (5 ≤ reconnectAttemptsRef h)%nat →
       snd (step opts h (drop failed id))
       = drop_prefix failed
         ++ [OnConnectionChange ConnectionState.disconnected; fatal]
       ∧ connectionState (fst (step opts h (drop failed id)))
         = ConnectionState.disconnected
       ∧ timers (fst (step opts h (drop failed id))) = timers h)
  ∧ (∀ access fails last,
       ws_scheme (baseUrl opts) = true →
       let r := run opts (init (Tokens access)) (consecutive_drops fails last) in
       ((length fails < 5)%nat →
        connectionState (fst r) = ConnectionState.disconnected
        ∧ timers (fst r) = {[S (length fails)]}
        ∧ scheduled (snd r) = S (length fails)
        ∧ gave_up (snd r) = 0%nat)
       ∧ (length fails = 5%nat →
          terminal (fst r)
          ∧ scheduled (snd r) = 5%nat
          ∧ constructed (snd r) = 6%nat
          ∧ gave_up (snd r) = 1%nat)).
Proof.
  split; [|split; [|split; [|split]]].
  - intros h id r failed Hid Hr Hint Hlt.
    destruct (drop_schedules opts h id r failed Hid Hr Hint Hlt)
      as (? & ? & _ & _ & ? & ? & _). done.
  - apply step_timeout.
  - intros h evs Hno. apply (scheduled_bound opts h evs Hno).
  - intros h id r failed Hid Hr Hge.
    destruct (drop_gives_up opts h id r failed Hid Hr Hge)
      as (? & ? & _ & _ & _ & ?). done.
  - intros access fails last Hb.
    destruct (consecutive_drops_run opts access fails last Hb) as [Hlt Heq].
    split.
    + intros Hn. destruct (Hlt Hn) as (? & ? & ? & _ & ?). done.
    + exact Heq.
Qed.

Lemma reconnection_attempts_bounded_witness :
  terminal
    (fst (run sample_opts (init (Tokens "t"))
            (consecutive_drops [true; false; true; false; true] true)))
  ∧ gave_up
      (snd (run sample_opts (init (Tokens "t"))
              (consecutive_drops [true; false; true; false; true] true)))
    = 1%nat.
Proof.
  destruct (reconnection_attempts_bounded sample_opts)
    as (_ & _ & _ & _ & Hrun).
  destruct (Hrun "t" [true; false; true; false; true] true eq_refl)
    as [_ Hsix].
  destruct (Hsix eq_refl) as (Hterminal & _ & _ & Hgave).
  split; [exact Hterminal | exact Hgave].
Defined.

(** ** Orderly runs *)

#[local] Arguments connect : simpl never.
#[local] Arguments disconnect : simpl never.
#[local] Arguments onclose : simpl never.

Lemma only_alive_closed l j r :
  only_alive None l → l !! j = Some r → r = CLOSED.
Proof.
  intros Hal Hj. destruct (decide (r = CLOSED)) as [|Hr]; [done|].
  by specialize (Hal j r Hj Hr).
Qed.

Lemma only_alive_same id l j r :
  only_alive (Some id) l → l !! j = Some r → r ≠ CLOSED → j = id.
Proof. intros Hal Hj Hr. specialize (Hal j r Hj Hr). by simplify_eq. Qed.

Lemma only_alive_app l r :
  only_alive None l → only_alive (Some (length l)) (l ++ [r]).
Proof.
  intros Hal j r' Hj Hr'.
  destruct (decide (j < length l)%nat) as [Hlt|Hge].
  - rewrite lookup_app_l in Hj by done.
    by rewrite (only_alive_closed l j r' Hal Hj) in Hr'.
  - apply lookup_lt_Some in Hj. rewrite length_app in Hj. simpl in Hj.
    f_equal. lia.
Qed.

Lemma only_alive_insert_closed id l :
  only_alive (Some id) l → only_alive None (<[id := CLOSED]> l).
Proof.
  intros Hal j r Hj Hr. exfalso.
  destruct (decide (j = id)) as [->|Hne].
  - assert (id < length l)%nat as Hlt
      by (apply lookup_lt_Some in Hj; by rewrite length_insert in Hj).
    rewrite list_lookup_insert_eq in Hj by done. by simplify_eq.
  - rewrite list_lookup_insert_ne in Hj by done.
    apply Hne. by eapply only_alive_same.
Qed.

Lemma only_alive_insert id l r :
  only_alive (Some id) l → only_alive (Some id) (<[id := r]> l).
Proof.
  intros Hal j r' Hj Hr'.
  destruct (decide (j = id)) as [->|Hne]; [done|].
  rewrite list_lookup_insert_ne in Hj by done. by apply (Hal j r').
Qed.

Lemma only_alive_Forall l : only_alive None l ↔ Forall (eq CLOSED) l.
Proof.
  rewrite Forall_lookup. split.
  - intros Hal j r Hj. symmetry. by eapply only_alive_closed.
  - intros Hall j r Hj Hr. by specialize (Hall j r Hj).
Qed.

(** [phase] reads six fields only. *)
Lemma phase_ext h h' :
  sockets h' = sockets h → wsRef h' = wsRef h → timers h' = timers h →
  reconnectTimeoutRef h' = reconnectTimeoutRef h →
  intentionalDisconnectRef h' = intentionalDisconnectRef h →
  connectionState h' = connectionState h →
  phase h → phase h'.
Proof.
  intros Hs Hw Ht Hr Hi Hc
    [Hal Hws Htim Hst | id r Hlook Hal Hws Htim Hint Hst
    | id Hlook Hal Hws Htim Hint Hst | t Hal Hws Htim Href Hint Hst];
    [ apply phase_idle | eapply phase_active | eapply phase_closing
    | eapply phase_backoff ]; rewrite ?Hs, ?Hw, ?Ht, ?Hr, ?Hi, ?Hc; eauto.
Qed.

(** [connect], called where no socket is alive, none is held and no timer is
    pending. *)
Lemma phase_connect_quiet opts h :
  only_alive None (sockets h) → wsRef h = None → timers h = ∅ →
  connectionState h = ConnectionState.disconnected
  ∨ connectionState h = ConnectionState.error →
  keeps_phase h (connect opts h).
Proof.
  intros Hal Hws Htim Hst. unfold keeps_phase, settles.
  destruct (connect_cases opts h) as [Ha|m Ha Hu|url Ha Hu Hs|url Ha Hu Hs];
    simpl.
  - unfold active, readyState in Ha. by rewrite Hws in Ha.
  - split; [|split; [|done]].
    + apply phase_idle; simpl; auto.
    + by destruct Hst as [-> | ->].
  - split; [|split; [|done]].
    + apply phase_idle; simpl; auto.
    + by destruct Hst as [-> | ->].
  - split; [|split; [|done]].
    + eapply phase_active; simpl; eauto.
      * by rewrite lookup_app_r, Nat.sub_diag.
      * by apply only_alive_app.
    + by destruct Hst as [-> | ->].
Qed.

Ltac phase_cases H :=
  destruct H as
    [Hal Hws Htim Hst | id0 r0 Hlook Hal Hws Htim Hint Hst
    | id0 Hlook Hal Hws Htim Hint Hst | t0 Hal Hws Htim Href Hint Hst].

Lemma follows_one move a b : follows move a [b] = move a b.
Proof. simpl. by rewrite andb_true_r. Qed.

Lemma disconnected_from_anywhere a :
  actual_move a ConnectionState.disconnected = true.
Proof. by destruct a. Qed.

Lemma changes_disconnect h :
  changes (snd (disconnect h)) = [ConnectionState.disconnected].
Proof.
  rewrite disconnect_log.
  by destruct (reconnectTimeoutRef h), (wsRef h).
Qed.

Lemma phase_disconnect h :
  phase h →
  keeps_phase h (disconnect h)
  ∧ timers (fst (disconnect h)) = ∅
  ∧ intentionalDisconnectRef (fst (disconnect h)) = true.
Proof.
  intros Hph. unfold keeps_phase, settles. rewrite changes_disconnect.
  destruct (disconnect_fields h)
    as (Hi & Hw & Hr & Hc & _ & Ht & Hs & _).
  rewrite follows_one, disconnected_from_anywhere. cbn [List.last].
  assert (timers (disconnect h).1 = ∅) as Htimers.
  { rewrite Ht. phase_cases Hph; rewrite Htim; try rewrite Href;
      destruct (reconnectTimeoutRef h);
      first [done | apply empty_difference_L | apply difference_diag_L]. }
  split; [|done]. split; [|done].
  phase_cases Hph; rewrite Hws in Hs.
  - apply phase_idle; [by rewrite Hs | done | done | by left].
  - assert (sockets (disconnect h).1 = <[id0 := CLOSING]> (sockets h)) as Hs'.
    { rewrite Hs. unfold close_socket. rewrite Hlook.
      by destruct Hst as [[-> _]|[-> _]]. }
    apply (phase_closing _ id0); try done.
    + rewrite Hs'. apply list_lookup_insert_eq. by eapply lookup_lt_Some.
    + rewrite Hs'. by apply only_alive_insert.
  - apply (phase_closing _ id0); try done; by rewrite Hs.
  - apply phase_idle; [by rewrite Hs | done | done | by left].
Qed.

Lemma phase_drop opts h id r failed :
  phase h → sockets h !! id = Some r → r ≠ CLOSED →
  keeps_phase h (step opts h (drop failed id)).
Proof.
  intros Hph Hid Hr. unfold keeps_phase, settles.
  rewrite (step_drop opts h id r failed Hid Hr). cbn [fst snd].
  rewrite changes_app.
  assert (Hsock : sockets (dropped failed id h) = <[id := CLOSED]> (sockets h))
    by by destruct failed.
  assert (Htimers : timers (dropped failed id h) = timers h)
    by by destruct failed.
  assert (Hflag : intentionalDisconnectRef (dropped failed id h)
                  = intentionalDisconnectRef h) by by destruct failed.
  assert (Hnone : only_alive None (sockets h) → False).
  { intros Hal. by apply Hr, (only_alive_closed _ id r Hal). }
  phase_cases Hph; try (by destruct Hnone).
  - assert (id = id0) as -> by by eapply only_alive_same.
    apply only_alive_insert_closed in Hal.
    destruct (onclose_cases (dropped failed id0 h)) as [Hi Hlt|Hge|Hi Hlt];
      cbn [fst snd].
    + split; [|split].
      * eapply phase_backoff; simpl; rewrite ?Hsock, ?Htimers, ?Htim; eauto.
        by rewrite union_empty_r_L.
      * destruct failed, Hst as [[_ ->]|[_ ->]]; done.
      * by destruct failed.
    + split; [|split].
      * apply phase_idle; simpl; rewrite ?Hsock, ?Htimers; auto.
      * destruct failed, Hst as [[_ ->]|[_ ->]]; done.
      * by destruct failed.
    + congruence.
  - assert (id = id0) as -> by by eapply only_alive_same.
    apply only_alive_insert_closed in Hal.
    destruct (onclose_cases (dropped failed id0 h)) as [Hi Hlt|Hge|Hi Hlt];
      cbn [fst snd].
    + congruence.
    + split; [|split].
      * apply phase_idle; simpl; rewrite ?Hsock, ?Htimers; auto.
      * destruct failed; by rewrite Hst.
      * by destruct failed.
    + split; [|split].
      * apply phase_idle; simpl; rewrite ?Hsock, ?Htimers; auto.
      * destruct failed; by rewrite Hst.
      * by destruct failed.
Qed.

(** An action that leaves the six fields and sets no connection state. *)
Lemma keeps_phase_unchanged h h' log :
  phase h → changes log = [] →
  sockets h' = sockets h → wsRef h' = wsRef h → timers h' = timers h →
  reconnectTimeoutRef h' = reconnectTimeoutRef h →
  intentionalDisconnectRef h' = intentionalDisconnectRef h →
  connectionState h' = connectionState h →
  keeps_phase h (h', log).
Proof.
  intros Hph Hlog Hs Hw Ht Hr Hi Hc. unfold keeps_phase, settles. simpl.
  rewrite Hlog. split; [by eapply phase_ext|done].
Qed.

Lemma keeps_phase_skip h : phase h → keeps_phase h (skip h).
Proof. intros Hph. by apply keeps_phase_unchanged. Qed.

Lemma phase_open opts h id :
  phase h → keeps_phase h (step opts h (EvOpen id)).
Proof.
  intros Hph. simpl.
  destruct (sockets h !! id) as [r|] eqn:Hid; [|by apply keeps_phase_skip].
  destruct r; try by apply keeps_phase_skip.
  assert (Hnone : only_alive None (sockets h) → False).
  { intros Hal. by pose proof (only_alive_closed _ id _ Hal Hid). }
  unfold keeps_phase, settles.
  phase_cases Hph; try (by destruct Hnone).
  - assert (id = id0) as -> by by eapply only_alive_same.
    rewrite Hid in Hlook. simplify_eq.
    destruct Hst as [[_ Hst]|[? _]]; [|done].
    unfold_actions. simpl. rewrite Hst. split; [|done].
    eapply (phase_active _ id0 OPEN); simpl; eauto.
    + apply list_lookup_insert_eq. by eapply lookup_lt_Some.
    + by apply only_alive_insert.
  - assert (id = id0) as -> by by eapply only_alive_same.
    rewrite Hid in Hlook. simplify_eq.
Qed.

Lemma phase_message opts h id data now :
  phase h → keeps_phase h (step opts h (EvMessage id data now)).
Proof.
  intros Hph. simpl.
  destruct (sockets h !! id) as [[]|]; try by apply keeps_phase_skip.
  destruct data as [|[m|p|p|p s|s]|]; simpl;
    try (by apply keeps_phase_skip);
    try (by apply keeps_phase_unchanged).
  apply phase_disconnect, Hph.
Qed.

Lemma phase_timeout opts h handle :
  phase h → keeps_phase h (step opts h (EvTimeout handle)).
Proof.
  intros Hph.
  destruct (decide (handle ∈ timers h)) as [Hin|Hnot].
  - rewrite (step_timeout opts h handle Hin).
    phase_cases Hph; rewrite Htim in Hin; try by apply not_elem_of_empty in Hin.
    apply elem_of_singleton in Hin as ->.
    destruct (phase_connect_quiet opts
                (set_timers (timers h ∖ {[t0]}) (nextTimer h) h))
      as (H1 & H2 & H3); simpl; auto.
    { rewrite Htim. apply difference_diag_L. }
    split; [exact H1 | split; [exact H2 | exact H3]].
  - simpl. rewrite decide_False by done. by apply keeps_phase_skip.
Qed.

Lemma phase_connect_permitted opts h :
  phase h → permitted h EvConnect = true →
  keeps_phase h (step opts h EvConnect).
Proof.
  intros Hph Hperm. rewrite step_connect. simpl in Hperm.
  apply orb_true_iff in Hperm as [Hquiet|Hactive].
  - apply andb_true_iff in Hquiet as [Hclosed Htimers].
    apply bool_decide_eq_true in Hclosed, Htimers.
    apply only_alive_Forall in Hclosed.
    phase_cases Hph.
    + by apply phase_connect_quiet.
    + exfalso. pose proof (only_alive_closed _ _ _ Hclosed Hlook).
      by destruct Hst as [[-> _]|[-> _]].
    + exfalso. by pose proof (only_alive_closed _ _ _ Hclosed Hlook).
    + exfalso. rewrite Htim in Htimers.
      by apply (non_empty_singleton_L (C := gset nat) t0).
  - rewrite connect_guard; [by apply keeps_phase_skip|].
    unfold active in Hactive.
    destruct (readyState h) as [[]|]; auto; done.
Qed.

(** Every permitted event keeps the hook in one of the four situations. *)
Lemma phase_step opts h ev :
  phase h → permitted h ev = true → keeps_phase h (step opts h ev).
Proof.
  intros Hph Hperm.
  destruct ev as [| |loc sp|id|id data now|id|id|handle|item].
  - by apply phase_connect_permitted.
  - by apply phase_disconnect.
  - simpl. unfold sendLocationUpdate.
    destruct (wsRef h); [destruct (readyState h) as [[]|]|];
      by apply keeps_phase_unchanged.
  - by apply phase_open.
  - by apply phase_message.
  - destruct (sockets h !! id) as [r|] eqn:Hid.
    + destruct (decide (r = CLOSED)) as [->|Hr].
      * simpl. rewrite Hid. by apply keeps_phase_skip.
      * by apply (phase_drop opts h id r true).
    + simpl. rewrite Hid. by apply keeps_phase_skip.
  - destruct (sockets h !! id) as [r|] eqn:Hid.
    + destruct (decide (r = CLOSED)) as [->|Hr].
      * simpl. rewrite Hid. by apply keeps_phase_skip.
      * by apply (phase_drop opts h id r false).
    + simpl. rewrite Hid. by apply keeps_phase_skip.
  - by apply phase_timeout.
  - by apply keeps_phase_unchanged.
Qed.

Lemma phase_init item : phase (init item).
Proof.
  apply phase_idle; simpl; auto. intros j r Hj. by rewrite lookup_nil in Hj.
Qed.

Lemma last_cons {A} (l : list A) a b : List.last (b :: l) a = List.last l b.
Proof.
  revert a b. induction l as [|c l IH]; intros a b; [done|].
  change (List.last (b :: c :: l) a) with (List.last (c :: l) a).
  by rewrite (IH a c), (IH b c).
Qed.

Lemma last_app_default {A} (l1 l2 : list A) a :
  List.last (l1 ++ l2) a = List.last l2 (List.last l1 a).
Proof.
  revert a. induction l1 as [|b l1 IH]; intros a; [done|].
  change ((b :: l1) ++ l2) with (b :: (l1 ++ l2)).
  by rewrite !last_cons, IH.
Qed.

Lemma follows_app move a l1 l2 :
  follows move a (l1 ++ l2)
  = follows move a l1 && follows move (List.last l1 a) l2.
Proof.
  revert a. induction l1 as [|b l1 IH]; intros a; [done|].
  rewrite last_cons. simpl. by rewrite IH, andb_assoc.
Qed.

(** In an orderly run the hook stays in one of the four situations and the
    connection state changes by moves of the state machine only. *)
Lemma orderly_run opts evs : ∀ h,
  phase h → orderly opts h evs = true → keeps_phase h (run opts h evs).
Proof.
  induction evs as [|ev evs IH]; intros h Hph Hord.
  - by apply keeps_phase_skip.
  - simpl in Hord. apply andb_true_iff in Hord as [Hperm Hord].
    rewrite run_cons.
    destruct (phase_step opts h ev Hph Hperm) as (Hph1 & Hf1 & Hs1).
    destruct (IH _ Hph1 Hord) as (Hph2 & Hf2 & Hs2).
    unfold keeps_phase, settles in *. cbn [fst snd] in *.
    rewrite changes_app, follows_app, Hf1, <- Hs1, Hf2.
    split; [done|]. split; [done|].
    by rewrite Hs2, last_app_default, Hs1.
Qed.

(** ** The connection state machine *)

Lemma changes_connect opts h st :
  st ∈ changes (snd (connect opts h)) →
  st = ConnectionState.connecting ∨ st = ConnectionState.error.
Proof.
  destruct (connect_cases opts h); simpl; intros Hin;
    repeat (apply elem_of_cons in Hin as [->|Hin]; auto);
    by apply elem_of_nil in Hin.
Qed.

Lemma changes_onclose h st :
  st ∈ changes (snd (onclose h)) → st = ConnectionState.disconnected.
Proof.
  destruct (onclose_cases h); simpl; intros Hin;
    repeat (apply elem_of_cons in Hin as [->|Hin]; auto);
    by apply elem_of_nil in Hin.
Qed.

(** Each connection state is set on its own events only. *)
Lemma step_may_set opts h ev st :
  st ∈ changes (snd (step opts h ev)) → may_set ev st.
Proof.
  destruct ev as [| |loc sp|id|id data now|id|id|handle|item].
  - rewrite step_connect. intros [-> | ->]%changes_connect; simpl; auto.
  - change (step opts h EvDisconnect) with (disconnect h).
    rewrite changes_disconnect.
    intros ->%list_elem_of_singleton. simpl. auto.
  - simpl. unfold sendLocationUpdate.
    destruct (wsRef h); [destruct (readyState h) as [[]|]|]; simpl;
      by intros ?%elem_of_nil.
  - simpl. destruct (sockets h !! id) as [[]|]; simpl;
      try by intros ?%elem_of_nil.
    intros ->%list_elem_of_singleton. simpl. eauto.
  - simpl. destruct (sockets h !! id) as [[]|]; simpl;
      try by intros ?%elem_of_nil.
    destruct data as [|[m|p|p|p s|s]|];
      try (simpl; by intros ?%elem_of_nil).
    change (handleMessage (Parsed (tracking_ended p s)) now h)
      with (disconnect h).
    rewrite changes_disconnect. intros ->%list_elem_of_singleton.
    simpl. do 3 right. eauto.
  - destruct (sockets h !! id) as [r|] eqn:Hid;
      [destruct (decide (r = CLOSED)) as [->|Hr]|];
      try (simpl; rewrite Hid; by intros ?%elem_of_nil).
    pose proof (step_drop opts h id r true Hid Hr) as Hstep.
    simpl drop in Hstep. rewrite Hstep. cbn [snd]. rewrite changes_app.
    intros [Hin|Hin]%elem_of_app.
    + simpl in Hin. apply list_elem_of_singleton in Hin as ->. simpl. eauto.
    + apply changes_onclose in Hin as ->. simpl. eauto.
  - destruct (sockets h !! id) as [r|] eqn:Hid;
      [destruct (decide (r = CLOSED)) as [->|Hr]|];
      try (simpl; rewrite Hid; by intros ?%elem_of_nil).
    pose proof (step_drop opts h id r false Hid Hr) as Hstep.
    simpl drop in Hstep. rewrite Hstep. cbn [snd]. rewrite changes_app.
    intros [Hin|Hin]%elem_of_app; [by apply elem_of_nil in Hin|].
    apply changes_onclose in Hin as ->. simpl. eauto.
  - destruct (decide (handle ∈ timers h)) as [Hin|Hnot].
    + rewrite (step_timeout opts h handle Hin).
      intros [-> | ->]%changes_connect; simpl; eauto.
    + simpl. rewrite decide_False by done. by intros ?%elem_of_nil.
  - by intros ?%elem_of_nil.
Qed.

(** A socket that fails takes the state from [connecting] to [error] and on
    to [disconnected]: the second move is not one of the specified machine. *)
Lemma failed_socket_leaves_error :
  ¬ moves_as_specified sample_opts (Tokens "t") [EvConnect; EvFail 0%nat].
Proof. intros Hmoves. vm_compute in Hmoves. discriminate Hmoves. Qed.

(** C8 (amended). The connection state is always one of [disconnected],
    [connecting], [connected], [error], and each value is set on its own
    events only: [connecting] when a connection is initiated, [connected]
    when a socket opens, [disconnected] on a drop, a [disconnect] call or a
    [tracking_ended] message, [error] when a socket fails or initiating the
    connection throws.  In a run from a fresh hook in which [connect] is
    called only on a quiet hook (or as a no-op on an active socket), the
    state moves along [disconnected → connecting → connected],
    [connected|connecting → disconnected], into [error] from any state, and
    out of [error] to [disconnected] (when the failed socket closes, or on a
    [disconnect] call) or to [connecting] (when a connection is initiated
    again); the state held at the end is the last one set. *)
Theorem connection_state_moves opts :
  (∀ st : ConnectionState,
     st = ConnectionState.disconnected ∨ st = ConnectionState.connecting
     ∨ st = ConnectionState.connected ∨ st = ConnectionState.error)
  ∧ (∀ h ev st, st ∈ changes (snd (step opts h ev)) → may_set ev st)
  ∧ (∀ item evs,
       orderly opts (init item) evs = true →
       follows actual_move ConnectionState.disconnected
         (changes (snd (run opts (init item) evs))) = true
       ∧ connectionState (fst (run opts (init item) evs))
         = List.last (changes (snd (run opts (init item) evs)))
             ConnectionState.disconnected).
Proof.
  split; [|split].
  - intros []; auto.
  - apply step_may_set.
  - intros item evs Hord.
    destruct (orderly_run opts evs (init item) (phase_init item) Hord)
      as (_ & Hmoves & Hlast).
    split; [exact Hmoves | exact Hlast].
Qed.

Lemma connection_state_moves_witness :
  follows actual_move ConnectionState.disconnected
    (changes (snd (run sample_opts (init (Tokens "t"))
                     [EvConnect; EvFail 0%nat; EvTimeout 1%nat; EvOpen 1%nat;
                      EvDisconnect; EvClose 1%nat]))) = true.
Proof.
  destruct (connection_state_moves sample_opts) as (_ & _ & Hruns).
  destruct (Hruns (Tokens "t")
              [EvConnect; EvFail 0%nat; EvTimeout 1%nat; EvOpen 1%nat;
               EvDisconnect; EvClose 1%nat]) as [Hmoves _].
  - vm_compute. reflexivity.
  - exact Hmoves.
Defined.

(** Outside orderly runs the moves are not kept.  When the late [close]
    event of the old socket arrives, [onclose] sets [disconnected] and clears
    [wsRef], which by then holds the new socket; the opening of the new
    socket then takes the state from [disconnected] straight to
    [connected]. *)
Lemma late_close_skips_connecting :
  orderly sample_opts (init (Tokens "t")) reconnect_before_close = false
  ∧ changes (snd (run sample_opts (init (Tokens "t")) reconnect_before_close))
    = [ConnectionState.connecting; ConnectionState.connected;
       ConnectionState.disconnected; ConnectionState.connecting;
       ConnectionState.disconnected; ConnectionState.connected]
  ∧ follows actual_move ConnectionState.disconnected
      (changes (snd (run sample_opts (init (Tokens "t"))
                       reconnect_before_close))) = false.
Proof. vm_compute. repeat split; reflexivity. Qed.

(** ** Deliberate disconnects *)

(** Once the flag is up and no timer is pending, nothing but a [connect]
    call schedules a reconnection or constructs a socket. *)
Lemma step_after_disconnect opts h ev :
  timers h = ∅ → intentionalDisconnectRef h = true → ev ≠ EvConnect →
  timers (fst (step opts h ev)) = ∅
  ∧ intentionalDisconnectRef (fst (step opts h ev)) = true
  ∧ scheduled (snd (step opts h ev)) = 0%nat
  ∧ constructed (snd (step opts h ev)) = 0%nat.
Proof.
  intros Htim Hint Hev.
  assert (Hdisc : timers (fst (disconnect h)) = ∅
    ∧ intentionalDisconnectRef (fst (disconnect h)) = true
    ∧ scheduled (snd (disconnect h)) = 0%nat
    ∧ constructed (snd (disconnect h)) = 0%nat).
  { rewrite disconnect_log.
    destruct (disconnect_fields h) as (-> & _ & _ & _ & _ & -> & _).
    rewrite Htim.
    destruct (reconnectTimeoutRef h), (wsRef h); repeat split; try done;
      apply empty_difference_L. }
  assert (Hdrop : ∀ id r failed, sockets h !! id = Some r → r ≠ CLOSED →
    timers (fst (step opts h (drop failed id))) = ∅
    ∧ intentionalDisconnectRef (fst (step opts h (drop failed id))) = true
    ∧ scheduled (snd (step opts h (drop failed id))) = 0%nat
    ∧ constructed (snd (step opts h (drop failed id))) = 0%nat).
  { intros id r failed Hid Hr. rewrite (step_drop opts h id r failed Hid Hr).
    cbn [fst snd]. rewrite scheduled_app, constructed_app,
      scheduled_drop_prefix, constructed_drop_prefix.
    assert (intentionalDisconnectRef (dropped failed id h) = true) as Hflag
      by by destruct failed.
    assert (timers (dropped failed id h) = ∅) as Htimers by by destruct failed.
    destruct (onclose_cases (dropped failed id h)) as [Hi Hlt|Hge|Hi Hlt];
      [congruence| |]; done. }
  destruct ev as [| |loc sp|id|id data now|id|id|handle|item]; try done.
  - simpl. unfold sendLocationUpdate.
    by destruct (wsRef h); [destruct (readyState h) as [[]|]|].
  - simpl. by destruct (sockets h !! id) as [[]|].
  - simpl. destruct (sockets h !! id) as [[]|]; try done.
    by destruct data as [|[m|p|p|p s|s]|].
  - destruct (sockets h !! id) as [r|] eqn:Hid;
      [destruct (decide (r = CLOSED)) as [->|Hr]|];
      try (simpl; by rewrite Hid).
    by apply (Hdrop id r true).
  - destruct (sockets h !! id) as [r|] eqn:Hid;
      [destruct (decide (r = CLOSED)) as [->|Hr]|];
      try (simpl; by rewrite Hid).
    by apply (Hdrop id r false).
  - simpl. rewrite decide_False; [done|]. rewrite Htim. apply not_elem_of_empty.
Qed.

Lemma run_after_disconnect opts evs : ∀ h,
  timers h = ∅ → intentionalDisconnectRef h = true → no_connect_call evs →
  scheduled (snd (run opts h evs)) = 0%nat
  ∧ constructed (snd (run opts h evs)) = 0%nat.
Proof.
  induction evs as [|ev evs IH]; intros h Htim Hint Hno; [done|].
  apply Forall_cons in Hno as [Hev Hno]. rewrite run_cons. cbn [snd].
  destruct (step_after_disconnect opts h ev Htim Hint Hev) as (H1 & H2 & H3 & H4).
  destruct (IH _ H1 H2 Hno) as [H5 H6].
  by rewrite scheduled_app, constructed_app, H3, H4, H5, H6.
Qed.

(** A [disconnect] call clears the timer whose handle is in
    [reconnectTimeoutRef] and closes the socket in [wsRef]; when every
    pending timer is that one, no reconnection is scheduled and no socket is
    constructed afterwards until the component calls [connect] again. *)
Lemma disconnect_suppresses_reconnection opts h evs :
  (∀ handle, handle ∈ timers h → reconnectTimeoutRef h = Some handle) →
  no_connect_call evs →
  timers (fst (disconnect h)) = ∅
  ∧ scheduled (snd (run opts (fst (disconnect h)) evs)) = 0%nat
  ∧ constructed (snd (run opts (fst (disconnect h)) evs)) = 0%nat.
Proof.
  intros Hheld Hno.
  destruct (disconnect_fields h) as (Hi & _ & _ & _ & _ & Ht & _).
  assert (timers (fst (disconnect h)) = ∅) as Htim.
  { rewrite Ht. destruct (reconnectTimeoutRef h) as [t|] eqn:Href.
    - apply set_eq. intros x. rewrite elem_of_difference, elem_of_singleton.
      split; [|by intros ?%not_elem_of_empty].
      intros [Hx Hne]. specialize (Hheld x Hx). by simplify_eq.
    - apply set_eq. intros x. split; [|by intros ?%not_elem_of_empty].
      intros Hx. by specialize (Hheld x Hx). }
  split; [done|]. by apply run_after_disconnect.
Qed.

(** In an orderly run every pending timer is the one held in
    [reconnectTimeoutRef]. *)
Lemma orderly_timer_held opts item evs handle :
  orderly opts (init item) evs = true →
  handle ∈ timers (fst (run opts (init item) evs)) →
  reconnectTimeoutRef (fst (run opts (init item) evs)) = Some handle.
Proof.
  intros Hord Hin.
  destruct (orderly_run opts evs (init item) (phase_init item) Hord)
    as (Hph & _ & _).
  phase_cases Hph; rewrite Htim in Hin;
    try by apply not_elem_of_empty in Hin.
  by apply elem_of_singleton in Hin as ->.
Qed.

(** X1. In an orderly run a deliberate [disconnect] leaves no timer
    pending, and whatever the sockets and timers do afterwards, no
    reconnection is scheduled and no socket is constructed until [connect]
    is called again. *)
Lemma orderly_disconnect_is_final opts item evs after :
  orderly opts (init item) evs = true → no_connect_call after →
  timers (fst (run opts (init item) (evs ++ [EvDisconnect]))) = ∅
  ∧ scheduled
      (snd (run opts (fst (run opts (init item) (evs ++ [EvDisconnect]))) after))
    = 0%nat
  ∧ constructed
      (snd (run opts (fst (run opts (init item) (evs ++ [EvDisconnect]))) after))
    = 0%nat.
Proof.
  intros Hord Hno. rewrite run_app.
  pose proof (λ handle, orderly_timer_held opts item evs handle Hord) as Hheld.
  destruct (run opts (init item) evs) as [h log]. cbn [fst] in Hheld.
  rewrite run_cons, run_nil. cbn [fst snd].
  change (step opts h EvDisconnect) with (disconnect h).
  by apply disconnect_suppresses_reconnection.
Qed.

Lemma orderly_disconnect_is_final_witness :
  constructed
    (snd (run sample_opts
            (fst (run sample_opts (init (Tokens "t"))
                    ([EvConnect; EvFail 0%nat] ++ [EvDisconnect])))
            [EvTimeout 1%nat; EvClose 0%nat; EvOpen 0%nat]))
  = 0%nat.
Proof.
  apply (orderly_disconnect_is_final sample_opts (Tokens "t")
           [EvConnect; EvFail 0%nat]
           [EvTimeout 1%nat; EvClose 0%nat; EvOpen 0%nat]).
  - vm_compute. reflexivity.
  - repeat constructor; discriminate.
Defined.

(** C4. When [connect] is called again during a backoff and the new socket
    fails too, two reconnect timers are pending and [reconnectTimeoutRef]
    holds the handle of the second only.  A [disconnect] call then raises
    the flag and clears that one; timer 1 stays pending, and when it fires
    [connect] lowers the flag again and constructs socket 2: a reconnection
    attempt after the deliberate disconnect has completed. *)
Theorem disconnect_misses_overwritten_timer :
  let r := run sample_opts (init (Tokens "t")) retry_during_backoff in
  intentionalDisconnectRef (fst r) = true
  ∧ reconnectTimeoutRef (fst r) = None
  ∧ elements (timers (fst r)) = [1%nat]
  ∧ List.last (snd r) fatal = OnConnectionChange ConnectionState.disconnected
  ∧ step sample_opts (fst r) (EvTimeout 1%nat)
    = (set_wsRef (Some 2%nat)
         (set_sockets [CLOSED; CLOSED; CONNECTING]
            (set_connectionState ConnectionState.connecting
               (set_intentionalDisconnectRef false
                  (set_timers ∅ 3%nat (fst r))))),
       [OnConnectionChange ConnectionState.connecting;
        NewWebSocket 2
          "ws://localhost:8000/ws/tracking/?parcel_id=7&token=t"]).
Proof. vm_compute. repeat split; reflexivity. Qed.

(** ** The broadcast message *)






(** * More of the hook: what every run keeps *)

(** ** The attempt counter *)

Lemma step_attempts_le opts h ev :
  (reconnectAttemptsRef h ≤ MAX_RECONNECT_ATTEMPTS)%nat →
  (reconnectAttemptsRef (fst (step opts h ev)) ≤ MAX_RECONNECT_ATTEMPTS)%nat.
Proof.
  intros Hle.
  assert (Hother : (∀ id, ev ≠ EvOpen id) →
    (reconnectAttemptsRef (fst (step opts h ev)) ≤ MAX_RECONNECT_ATTEMPTS)%nat).
  { intros Hev.
    destruct (step_scheduled opts h ev Hev) as [-> [-> | [-> Hlt] ] ]; lia. }
  destruct ev as [| |loc sp|id|id data now|id|id|handle|item];
    try (apply Hother; intros; discriminate).
  simpl. destruct (sockets h !! id) as [[]|]; simpl; try done.
  unfold MAX_RECONNECT_ATTEMPTS. lia.
Qed.

Lemma run_attempts_le opts evs : ∀ h,
  (reconnectAttemptsRef h ≤ MAX_RECONNECT_ATTEMPTS)%nat →
  (reconnectAttemptsRef (fst (run opts h evs)) ≤ MAX_RECONNECT_ATTEMPTS)%nat.
Proof.
  induction evs as [|ev evs IH]; intros h Hle; [done|].
  rewrite run_cons. cbn [fst]. apply IH. by apply step_attempts_le.
Qed.

(** X2. Whatever the component and the browser do, the attempt counter
    [reconnectAttemptsRef] never exceeds [MAX_RECONNECT_ATTEMPTS] = 5, and
    the opening of a connecting socket puts it back to 0, so that the full
    number of reconnections is available again after every successful
    connection. *)
Theorem attempts_never_exceed_maximum opts item evs :
  (reconnectAttemptsRef (fst (run opts (init item) evs)) ≤ 5)%nat
  ∧ (∀ id,
       sockets (fst (run opts (init item) evs)) !! id = Some CONNECTING →
       reconnectAttemptsRef
         (fst (run opts (init item) (evs ++ [EvOpen id]))) = 0%nat
       ∧ ∀ more, no_open more →
           (scheduled
              (snd (run opts (fst (run opts (init item) (evs ++ [EvOpen id])))
                      more)) ≤ 5)%nat).
Proof.
  split.
  - apply (run_attempts_le opts evs (init item)).
    unfold MAX_RECONNECT_ATTEMPTS. simpl. lia.
  - intros id Hid.
    assert (reconnectAttemptsRef
              (fst (run opts (init item) (evs ++ [EvOpen id]))) = 0%nat) as H0.
    { rewrite run_app. destruct (run opts (init item) evs) as [h log].
      cbn [fst] in *. rewrite run_cons, run_nil. cbn [fst step].
      by rewrite Hid. }
    split; [done|]. intros more Hno.
    pose proof (scheduled_bound opts
                  (fst (run opts (init item) (evs ++ [EvOpen id]))) more Hno)
      as Hb.
    rewrite H0 in Hb. exact Hb.
Qed.

(** ** The connection state and its callback *)

Lemma connect_settles opts h : settles h (connect opts h).
Proof. unfold settles. by destruct (connect_cases opts h). Qed.

Lemma disconnect_settles h : settles h (disconnect h).
Proof.
  unfold settles. rewrite changes_disconnect.
  by destruct (disconnect_fields h) as (_ & _ & _ & -> & _).
Qed.

Lemma drop_settles opts h id r failed :
  sockets h !! id = Some r → r ≠ CLOSED →
  settles h (step opts h (drop failed id)).
Proof.
  intros Hid Hr. unfold settles.
  rewrite (step_drop opts h id r failed Hid Hr). cbn [fst snd].
  rewrite changes_app, last_app_default.
  by destruct (onclose_cases (dropped failed id h)).
Qed.

Lemma step_settles opts h ev : settles h (step opts h ev).
Proof.
  destruct ev as [| |loc sp|id|id data now|id|id|handle|item].
  - rewrite step_connect. apply connect_settles.
  - change (step opts h EvDisconnect) with (disconnect h).
    apply disconnect_settles.
  - unfold settles. simpl. unfold sendLocationUpdate.
    by destruct (wsRef h); [destruct (readyState h) as [[]|]|].
  - unfold settles. simpl. by destruct (sockets h !! id) as [[]|].
  - cbn [step]. destruct (sockets h !! id) as [[]|]; try done.
    destruct data as [|[m|p|p|p s|s]|]; try done.
    change (handleMessage (Parsed (tracking_ended p s)) now h)
      with (disconnect h).
    apply disconnect_settles.
  - destruct (sockets h !! id) as [r|] eqn:Hid;
      [destruct (decide (r = CLOSED)) as [->|Hr]|];
      try (unfold settles; simpl; by rewrite Hid).
    apply (drop_settles opts h id r true Hid Hr).
  - destruct (sockets h !! id) as [r|] eqn:Hid;
      [destruct (decide (r = CLOSED)) as [->|Hr]|];
      try (unfold settles; simpl; by rewrite Hid).
    apply (drop_settles opts h id r false Hid Hr).
  - destruct (decide (handle ∈ timers h)) as [Hin|Hnot].
    + rewrite (step_timeout opts h handle Hin).
      apply (connect_settles opts
               (set_timers (timers h ∖ {[handle]}) (nextTimer h) h)).
    + unfold settles. simpl. by rewrite decide_False.
  - done.
Qed.

(** X3. In every run, whatever its events, the connection state the hook
    holds at the end is the one it last passed to [onConnectionChange] (or
    the one it started with when it passed none): the state is never
    changed without the callback being called with the new value. *)
Theorem connectionState_is_last_reported opts evs h :
  connectionState (fst (run opts h evs))
  = List.last (changes (snd (run opts h evs))) (connectionState h).
Proof.
  revert h. induction evs as [|ev evs IH]; intros h; [done|].
  rewrite run_cons. cbn [fst snd].
  rewrite changes_app, last_app_default, IH.
  f_equal. apply step_settles.
Qed.

(** ** Without tokens *)

Lemma connect_no_tokens opts h :
  no_tokens (localStorage_tokens h) → sockets h = [] →
  ∃ msg,
    getWebSocketUrl opts h = inr msg
    ∧ connect opts h
      = (set_connectionState ConnectionState.error
           (set_intentionalDisconnectRef false h),
         [OnConnectionChange ConnectionState.error; OnError msg]).
Proof.
  intros Hno Hs.
  assert (∃ msg, getWebSocketUrl opts h = inr msg) as [msg Hmsg].
  { unfold getWebSocketUrl. destruct (localStorage_tokens h) as [|m|access].
    - by eexists.
    - by eexists.
    - by destruct (Hno access). }
  exists msg. split; [done|].
  destruct (connect_cases opts h) as [Ha|m Ha Hu|url Ha Hu _|url Ha Hu _];
    try congruence.
  unfold active, readyState in Ha. rewrite Hs in Ha.
  by destruct (wsRef h).
Qed.

Lemma step_no_tokens opts h ev :
  no_tokens (localStorage_tokens h) → sockets h = [] → timers h = ∅ →
  (∀ item, ev ≠ EvStorage item) →
  localStorage_tokens (fst (step opts h ev)) = localStorage_tokens h
  ∧ sockets (fst (step opts h ev)) = []
  ∧ timers (fst (step opts h ev)) = ∅
  ∧ constructed (snd (step opts h ev)) = 0%nat
  ∧ scheduled (snd (step opts h ev)) = 0%nat
  ∧ sent (snd (step opts h ev)) = []
  ∧ (ConnectionState.connecting ∉ changes (snd (step opts h ev)))
  ∧ (ConnectionState.connected ∉ changes (snd (step opts h ev))).
Proof.
  intros Hno Hs Ht Hev.
  destruct ev as [| |loc sp|id|id data now|id|id|handle|item].
  - rewrite step_connect.
    destruct (connect_no_tokens opts h Hno Hs) as (msg & _ & ->).
    simpl. repeat split; try done;
      intros [?|?%elem_of_nil]%elem_of_cons; done.
  - change (step opts h EvDisconnect) with (disconnect h).
    rewrite disconnect_log.
    destruct (disconnect_fields h)
      as (_ & _ & _ & _ & _ & -> & -> & _ & -> & _).
    rewrite Ht. unfold close_socket. rewrite Hs.
    destruct (reconnectTimeoutRef h), (wsRef h); simpl;
      repeat split; try done; try apply empty_difference_L;
      intros [?|?%elem_of_nil]%elem_of_cons; done.
  - simpl. unfold sendLocationUpdate, readyState. rewrite Hs.
    destruct (wsRef h); simpl; repeat split; try done;
      by intros ?%elem_of_nil.
  - simpl. rewrite Hs. simpl. repeat split; try done; by intros ?%elem_of_nil.
  - simpl. rewrite Hs. simpl. repeat split; try done; by intros ?%elem_of_nil.
  - simpl. rewrite Hs. simpl. repeat split; try done; by intros ?%elem_of_nil.
  - simpl. rewrite Hs. simpl. repeat split; try done; by intros ?%elem_of_nil.
  - simpl. rewrite decide_False by (rewrite Ht; apply not_elem_of_empty).
    simpl. repeat split; try done; by intros ?%elem_of_nil.
  - by destruct (Hev item).
Qed.

Lemma sent_app log1 log2 : sent (log1 ++ log2) = sent log1 ++ sent log2.
Proof. apply omap_app. Qed.
Lemma errors_app log1 log2 : errors (log1 ++ log2) = errors log1 ++ errors log2.
Proof. apply omap_app. Qed.

Lemma run_no_tokens opts evs : ∀ h,
  no_tokens (localStorage_tokens h) → sockets h = [] → timers h = ∅ →
  no_storage evs →
  sockets (fst (run opts h evs)) = []
  ∧ timers (fst (run opts h evs)) = ∅
  ∧ constructed (snd (run opts h evs)) = 0%nat
  ∧ scheduled (snd (run opts h evs)) = 0%nat
  ∧ sent (snd (run opts h evs)) = []
  ∧ (ConnectionState.connecting ∉ changes (snd (run opts h evs)))
  ∧ (ConnectionState.connected ∉ changes (snd (run opts h evs))).
Proof.
  induction evs as [|ev evs IH]; intros h Hno Hs Ht Hst.
  - simpl. repeat split; try done; by intros ?%elem_of_nil.
  - apply Forall_cons in Hst as [Hev Hst]. rewrite run_cons. cbn [fst snd].
    destruct (step_no_tokens opts h ev Hno Hs Ht Hev)
      as (Hk & H1 & H2 & H3 & H4 & H5 & H6 & H7).
    rewrite <- Hk in Hno.
    destruct (IH _ Hno H1 H2 Hst) as (I1 & I2 & I3 & I4 & I5 & I6 & I7).
    rewrite constructed_app, scheduled_app, sent_app, changes_app,
      H3, H4, H5, I3, I4, I5.
    repeat split; try done; intros [?|?]%elem_of_app; done.
Qed.

(** X4. When [localStorage] holds no tokens (no item, or one that does not
    parse), [connect] constructs no socket: it sets the state to [error]
    and calls [onError] with the message of the exception, 'No
    authentication tokens found' when the item is missing.  As long as no
    tokens are stored, whatever else happens, the hook constructs no
    socket, schedules no reconnection, sends nothing, and never reports
    [connecting] or [connected]: a failed [connect] is not retried. *)
Theorem connect_without_tokens_builds_nothing opts item evs :
  no_tokens item → no_storage evs →
  (∃ msg,
     step opts (init item) EvConnect
     = (set_connectionState ConnectionState.error (init item),
        [OnConnectionChange ConnectionState.error; OnError msg])
     ∧ (item = NoItem → msg = "No authentication tokens found"))
  ∧ constructed (snd (run opts (init item) evs)) = 0%nat
  ∧ scheduled (snd (run opts (init item) evs)) = 0%nat
  ∧ sent (snd (run opts (init item) evs)) = []
  ∧ (ConnectionState.connecting ∉ changes (snd (run opts (init item) evs)))
  ∧ (ConnectionState.connected ∉ changes (snd (run opts (init item) evs))).
Proof.
  intros Hno Hst. split.
  - destruct (connect_no_tokens opts (init item) Hno eq_refl)
      as (msg & Hmsg & Hc).
    exists msg. rewrite step_connect, Hc. split; [done|].
    intros ->. unfold getWebSocketUrl in Hmsg. simpl in Hmsg.
    by inversion Hmsg.
  - destruct (run_no_tokens opts evs (init item) Hno eq_refl eq_refl Hst)
      as (_ & _ & ? & ? & ? & ? & ?).
    done.
Qed.

Lemma connect_without_tokens_builds_nothing_witness :
  constructed
    (snd (run sample_opts (init NoItem)
            [EvConnect; EvDisconnect; EvConnect; EvTimeout 1%nat])) = 0%nat
  ∧ errors
      (snd (run sample_opts (init NoItem) [EvConnect]))
    = ["No authentication tokens found"].
Proof.
  destruct (connect_without_tokens_builds_nothing sample_opts NoItem
              [EvConnect; EvDisconnect; EvConnect; EvTimeout 1%nat])
    as ((msg & Hstep & Hmsg) & Hc & _).
  - intros access. discriminate.
  - repeat constructor; intros; discriminate.
  - split; [exact Hc|]. rewrite run_cons, run_nil, Hstep.
    simpl. by rewrite (Hmsg eq_refl).
Defined.

(** ** [disconnect] *)

Lemma disconnect_at_rest h :
  wsRef h = None → reconnectTimeoutRef h = None →
  intentionalDisconnectRef h = true →
  connectionState h = ConnectionState.disconnected →
  disconnect h = (h, [OnConnectionChange ConnectionState.disconnected]).
Proof.
  destruct h as [c d w r a i s t n l]. simpl. intros -> -> -> ->.
  reflexivity.
Qed.

(** X5. [disconnect] is idempotent on the hook's state: called a second
    time it clears no timer and closes no socket, leaves every ref and both
    states as the first call left them, and only calls
    [onConnectionChange] with [disconnected] once more.  After the first
    call [wsRef] and [reconnectTimeoutRef] are empty, the flag is up and
    the state is [disconnected], whatever the hook was doing. *)
Theorem disconnect_twice h :
  disconnect (fst (disconnect h))
  = (fst (disconnect h), [OnConnectionChange ConnectionState.disconnected])
  ∧ wsRef (fst (disconnect h)) = None
  ∧ reconnectTimeoutRef (fst (disconnect h)) = None
  ∧ intentionalDisconnectRef (fst (disconnect h)) = true
  ∧ connectionState (fst (disconnect h)) = ConnectionState.disconnected.
Proof.
  destruct (disconnect_fields h) as (Hi & Hw & Hr & Hc & _).
  split; [|done]. by apply disconnect_at_rest.
Qed.

(** ** Live sockets in orderly runs *)

Lemma phase_one_live h :
  phase h →
  (∀ i j ri rj,
     sockets h !! i = Some ri → sockets h !! j = Some rj →
     ri ≠ CLOSED → rj ≠ CLOSED → i = j)
  ∧ (∀ j r, sockets h !! j = Some r → r = OPEN ∨ r = CONNECTING →
       wsRef h = Some j).
Proof.
  intros Hph.
  assert (∃ o, only_alive o (sockets h)
               ∧ (∀ j r, sockets h !! j = Some r → r = OPEN ∨ r = CONNECTING →
                    o = Some j → wsRef h = Some j)) as (o & Hal & Hheld).
  { phase_cases Hph.
    - exists None. split; [done|]. intros; discriminate.
    - exists (Some id0). split; [done|]. intros j r _ _ [= <-]. done.
    - exists (Some id0). split; [done|]. intros j r Hj Hr [= <-].
      rewrite Hlook in Hj. destruct Hr; congruence.
    - exists None. split; [done|]. intros; discriminate. }
  split.
  - intros i j ri rj Hi Hj Hri Hrj.
    pose proof (Hal i ri Hi Hri) as H1. pose proof (Hal j rj Hj Hrj) as H2.
    congruence.
  - intros j r Hj Hr. apply (Hheld j r Hj Hr). apply (Hal j r Hj).
    destruct Hr; congruence.
Qed.

Lemma phase_none_active h :
  phase h → wsRef h = None → none_active (sockets h).
Proof.
  intros Hph Hnone j r Hj.
  destruct (decide (r = CLOSED)) as [->|Hr]; [by right|].
  phase_cases Hph.
  - by pose proof (Hal j r Hj Hr).
  - congruence.
  - pose proof (Hal j r Hj Hr) as [= <-]. left. congruence.
  - by pose proof (Hal j r Hj Hr).
Qed.

(** X6. In an orderly run (one where the component calls [connect] only on
    a quiet hook or on an active socket) the hook never has two live
    sockets: at most one socket is not closed, and a socket that is open or
    connecting is the one held in [wsRef].  After a [disconnect] call in
    such a run no socket is left open or connecting. *)
Theorem orderly_one_live_socket opts item evs :
  orderly opts (init item) evs = true →
  (∀ i j ri rj,
     sockets (fst (run opts (init item) evs)) !! i = Some ri →
     sockets (fst (run opts (init item) evs)) !! j = Some rj →
     ri ≠ CLOSED → rj ≠ CLOSED → i = j)
  ∧ (∀ j r,
       sockets (fst (run opts (init item) evs)) !! j = Some r →
       r = OPEN ∨ r = CONNECTING →
       wsRef (fst (run opts (init item) evs)) = Some j)
  ∧ none_active
      (sockets (fst (run opts (init item) (evs ++ [EvDisconnect])))).
Proof.
  intros Hord.
  destruct (orderly_run opts evs (init item) (phase_init item) Hord)
    as (Hph & _ & _).
  destruct (phase_one_live _ Hph) as [Hone Hheld].
  split; [exact Hone|]. split; [exact Hheld|].
  rewrite run_app. destruct (run opts (init item) evs) as [h log].
  cbn [fst] in *. rewrite run_cons, run_nil. cbn [fst].
  change (step opts h EvDisconnect) with (disconnect h).
  destruct (phase_disconnect h Hph) as ((Hph' & _ & _) & _ & _).
  apply (phase_none_active _ Hph').
  by destruct (disconnect_fields h) as (_ & ? & _).
Qed.

Lemma orderly_one_live_socket_witness :
  wsRef (fst (run sample_opts (init (Tokens "t")) sample_orderly))
  = Some 1%nat
  ∧ none_active
      (sockets (fst (run sample_opts (init (Tokens "t"))
                       (sample_orderly ++ [EvDisconnect])))).
Proof.
  destruct (orderly_one_live_socket sample_opts (Tokens "t") sample_orderly)
    as (_ & Hheld & Hnone).
  - vm_compute. reflexivity.
  - split; [|exact Hnone].
    apply (Hheld 1%nat CONNECTING); [vm_compute; reflexivity | by right].
Defined.

(** ** What the hook sends *)

Lemma sent_connect opts h : sent (snd (connect opts h)) = [].
Proof. by destruct (connect_cases opts h). Qed.

Lemma sent_disconnect h : sent (snd (disconnect h)) = [].
Proof.
  rewrite disconnect_log. by destruct (reconnectTimeoutRef h), (wsRef h).
Qed.

Lemma sent_drop opts h id r failed :
  sockets h !! id = Some r → r ≠ CLOSED →
  sent (snd (step opts h (drop failed id))) = [].
Proof.
  intros Hid Hr. rewrite (step_drop opts h id r failed Hid Hr). cbn [snd].
  rewrite sent_app.
  assert (sent (drop_prefix failed) = []) as -> by by destruct failed.
  by destruct (onclose_cases (dropped failed id h)).
Qed.

(** Only a [sendLocationUpdate] call on an open socket sends, and it sends
    one [location_update]. *)
Lemma step_sent opts h ev :
  sent (snd (step opts h ev))
  = match ev with
    | EvSendLocationUpdate location specificParcelId =>
        match wsRef h, readyState h with
        | Some id, Some OPEN =>
            [(id, location_update (lat location) (lng location)
                    (address location)
                    (Some (parcel_id_or opts specificParcelId)))]
        | _, _ => []
        end
    | _ => []
    end.
Proof.
  destruct ev as [| |loc sp|id|id data now|id|id|handle|item].
  - rewrite step_connect. apply sent_connect.
  - change (step opts h EvDisconnect) with (disconnect h).
    apply sent_disconnect.
  - simpl. unfold sendLocationUpdate.
    by destruct (wsRef h); [destruct (readyState h) as [[]|]|].
  - simpl. by destruct (sockets h !! id) as [[]|].
  - cbn [step]. destruct (sockets h !! id) as [[]|]; try done.
    destruct data as [|[m|p|p|p s|s]|]; try done.
    change (handleMessage (Parsed (tracking_ended p s)) now h)
      with (disconnect h).
    apply sent_disconnect.
  - destruct (sockets h !! id) as [r|] eqn:Hid;
      [destruct (decide (r = CLOSED)) as [->|Hr]|];
      try (simpl; by rewrite Hid).
    apply (sent_drop opts h id r true Hid Hr).
  - destruct (sockets h !! id) as [r|] eqn:Hid;
      [destruct (decide (r = CLOSED)) as [->|Hr]|];
      try (simpl; by rewrite Hid).
    apply (sent_drop opts h id r false Hid Hr).
  - destruct (decide (handle ∈ timers h)) as [Hin|Hnot].
    + rewrite (step_timeout opts h handle Hin). apply sent_connect.
    + simpl. by rewrite decide_False.
  - done.
Qed.

(** X7. In every run, the only messages the hook sends to the server are
    [location_update] messages, one for each [sendLocationUpdate] call made
    while the socket in [wsRef] is open and none otherwise: each carries
    the coordinates and address of a call's location and a parcel id, and
    no more messages are sent than calls are made.  The hook never sends
    [subscribe_parcel] or [unsubscribe_parcel], and nothing the server or
    the browser does makes it send. *)
Theorem only_location_updates_are_sent opts evs h :
  (∀ id m, (id, m) ∈ sent (snd (run opts h evs)) →
     ∃ location specificParcelId,
       (location, specificParcelId) ∈ send_calls evs
       ∧ m = location_update (lat location) (lng location) (address location)
               (Some (parcel_id_or opts specificParcelId)))
  ∧ (length (sent (snd (run opts h evs))) ≤ length (send_calls evs))%nat.
Proof.
  revert h. induction evs as [|ev evs IH]; intros h.
  - rewrite run_nil. split; [|done]. intros id0 m Hin.
    by apply elem_of_nil in Hin.
  - rewrite run_cons. cbn [snd]. rewrite sent_app, step_sent.
    destruct (IH (fst (step opts h ev))) as [IHm IHl].
    assert (Hrest : ∀ id m,
      (id, m) ∈ sent (snd (run opts (fst (step opts h ev)) evs)) →
      ∃ location specificParcelId,
        (location, specificParcelId) ∈ send_calls (ev :: evs)
        ∧ m = location_update (lat location) (lng location)
                (address location)
                (Some (parcel_id_or opts specificParcelId))).
    { intros id m Hin. destruct (IHm id m Hin) as (loc & sp & Hc & ->).
      exists loc, sp. split; [|done].
      unfold send_calls in *. simpl. destruct ev; try done.
      by apply list_elem_of_further. }
    destruct ev as [| |loc sp|id0|id0 data now|id0|id0|handle|item];
      try (split; [exact Hrest | simpl; exact IHl]).
    change (send_calls (EvSendLocationUpdate loc sp :: evs))
      with ((loc, sp) :: send_calls evs).
    destruct (wsRef h) as [id0|]; [destruct (readyState h) as [[]|]|];
      cbn [app length];
      try (split; [exact Hrest | lia]).
    split; [|lia].
    intros id1 m [Hin|Hin]%elem_of_cons; [|exact (Hrest id1 m Hin)].
    injection Hin as -> ->.
    exists loc, sp. split; [|done]. apply list_elem_of_here.
Qed.

(** ** The URLs of the sockets *)





Lemma connect_tokens opts h :
  localStorage_tokens (fst (connect opts h)) = localStorage_tokens h.
Proof. by destruct (connect_cases opts h). Qed.

Lemma onclose_tokens h :
  localStorage_tokens (fst (onclose h)) = localStorage_tokens h.
Proof. by destruct (onclose_cases h). Qed.

(** Only a [storage] event changes the stored tokens. *)
Lemma step_tokens opts h ev :
  localStorage_tokens (fst (step opts h ev))
  = match ev with
    | EvStorage item => item
    | _ => localStorage_tokens h
    end.
Proof.
  destruct ev as [| |loc sp|id|id data now|id|id|handle|item].
  - rewrite step_connect. apply connect_tokens.
  - change (step opts h EvDisconnect) with (disconnect h).
    by destruct (disconnect_fields h) as (_ & _ & _ & _ & _ & _ & _ & _ & ? & _).
  - simpl. unfold sendLocationUpdate.
    by destruct (wsRef h); [destruct (readyState h) as [[]|]|].
  - simpl. by destruct (sockets h !! id) as [[]|].
  - cbn [step]. destruct (sockets h !! id) as [[]|]; try done.
    destruct data as [|[m|p|p|p s|s]|]; try done.
    change (handleMessage (Parsed (tracking_ended p s)) now h)
      with (disconnect h).
    by destruct (disconnect_fields h) as (_ & _ & _ & _ & _ & _ & _ & _ & ? & _).
  - destruct (sockets h !! id) as [r|] eqn:Hid;
      [destruct (decide (r = CLOSED)) as [->|Hr]|];
      try (simpl; by rewrite Hid).
    pose proof (step_drop opts h id r true Hid Hr) as Hstep.
    simpl drop in Hstep. rewrite Hstep. cbn [fst]. by rewrite onclose_tokens.
  - destruct (sockets h !! id) as [r|] eqn:Hid;
      [destruct (decide (r = CLOSED)) as [->|Hr]|];
      try (simpl; by rewrite Hid).
    pose proof (step_drop opts h id r false Hid Hr) as Hstep.
    simpl drop in Hstep. rewrite Hstep. cbn [fst]. by rewrite onclose_tokens.
  - destruct (decide (handle ∈ timers h)) as [Hin|Hnot].
    + rewrite (step_timeout opts h handle Hin). by rewrite connect_tokens.
    + simpl. by rewrite decide_False.
  - done.
Qed.



(** X9. [ws.onclose] does not look at which socket closed.  When a socket
    other than the one in [wsRef] closes or fails (a socket that
    [disconnect] asked to close, say, after [connect] was called again)
    while the flag is down and fewer than 5 attempts are counted, the
    handler clears [wsRef] although the socket it held is still open or
    connecting, reports [disconnected] and schedules a reconnection; when
    that timer fires the guard of [connect] finds no socket and, with
    tokens stored, a further socket is constructed beside the live
    one. *)
Theorem stale_close_forgets_current opts h id j r rj access failed :
  sockets h !! id = Some r → r ≠ CLOSED →
  wsRef h = Some j → j ≠ id →
  sockets h !! j = Some rj → rj = OPEN ∨ rj = CONNECTING →
  intentionalDisconnectRef h = false →
  (reconnectAttemptsRef h < 5)%nat →
  localStorage_tokens h = Tokens access → ws_scheme (baseUrl opts) = true →
  wsRef (fst (step opts h (drop failed id))) = None
  ∧ connectionState (fst (step opts h (drop failed id)))
    = ConnectionState.disconnected
  ∧ sockets (fst (step opts h (drop failed id))) !! j = Some rj
  ∧ nextTimer h ∈ timers (fst (step opts h (drop failed id)))
  ∧ wsRef (fst (run opts h [drop failed id; EvTimeout (nextTimer h)]))
    = Some (length (sockets h))
  ∧ sockets (fst (run opts h [drop failed id; EvTimeout (nextTimer h)])) !! j
    = Some rj
  ∧ sockets (fst (run opts h [drop failed id; EvTimeout (nextTimer h)]))
      !! length (sockets h)
    = Some CONNECTING
  ∧ constructed
      (snd (run opts h [drop failed id; EvTimeout (nextTimer h)])) = 1%nat.
Proof.
  intros Hid Hr Hws Hne Hj Hrj Hint Hlt Htok Hb.
  destruct (drop_schedules opts h id r failed Hid Hr Hint Hlt)
    as (Hlog & Hst & Hw1 & Hs1 & Ha1 & Ht1 & Hr1).
  assert (sockets (fst (step opts h (drop failed id))) !! j = Some rj) as Hj1.
  { rewrite Hs1, list_lookup_insert_ne by done. exact Hj. }
  assert (nextTimer h ∈ timers (fst (step opts h (drop failed id)))) as Hin.
  { rewrite Ht1. apply elem_of_union_l. by apply elem_of_singleton. }
  split; [done|]. split; [done|]. split; [done|]. split; [done|].
  rewrite !run_cons, run_nil. cbn [fst snd].
  assert (localStorage_tokens (fst (step opts h (drop failed id)))
          = Tokens access) as Htok1.
  { rewrite step_tokens. by destruct failed. }
  destruct (step opts h (drop failed id)) as [h1 log1]. cbn [fst snd] in *.
  rewrite (step_timeout opts h1 (nextTimer h) Hin).
  match goal with |- context [connect opts ?x] => set (h2 := x) end.
  destruct (getWebSocketUrl_ok opts h2 access Hb Htok1) as (url & Hu & Hs).
  destruct (connect_cases opts h2) as [Ha|m Ha Hu'|url' Ha Hu' Hs'|url' Ha Hu' Hs'];
    try (rewrite Hu in Hu'; simplify_eq; congruence).
  { exfalso. unfold active, readyState in Ha. subst h2. simpl in Ha.
    by rewrite Hw1 in Ha. }
  subst h2. cbn [fst snd wsRef set_wsRef sockets set_sockets
                 set_connectionState set_intentionalDisconnectRef set_timers].
  rewrite Hs1, length_insert.
  split; [done|]. split.
  { rewrite lookup_app_l by (rewrite length_insert; by eapply lookup_lt_Some).
    rewrite list_lookup_insert_ne by done. exact Hj. }
  split.
  { rewrite lookup_app_r by (rewrite length_insert; lia).
    by rewrite length_insert, Nat.sub_diag. }
  rewrite app_nil_r, constructed_app, Hlog.
  unfold constructed. rewrite List.filter_app. by destruct failed.
Qed.

Lemma stale_close_forgets_current_witness :
  wsRef (fst (step sample_opts sample_reconnected (EvClose 0%nat))) = None
  ∧ sockets
      (fst (run sample_opts sample_reconnected
              [EvClose 0%nat; EvTimeout 1%nat])) !! 1%nat
    = Some CONNECTING
  ∧ sockets
      (fst (run sample_opts sample_reconnected
              [EvClose 0%nat; EvTimeout 1%nat])) !! 2%nat
    = Some CONNECTING.
Proof.
  destruct (stale_close_forgets_current sample_opts sample_reconnected
              0%nat 1%nat CLOSING CONNECTING "t" false)
    as (H1 & _ & _ & _ & _ & H2 & H3 & _);
    try reflexivity; try discriminate; try (by right).
  - vm_compute. lia.
  - split; [exact H1|]. split; [exact H2 | exact H3].
Defined.

(** * The admin page's sockets *)

Lemma close_sockets_lookup closed l ws :
  close_sockets closed l !! ws
  = (λ r, if decide (ws ∈ closed) then after_close r else r) <$> l !! ws.
Proof. unfold close_sockets. apply list_lookup_imap. Qed.

Lemma close_sockets_length closed l :
  length (close_sockets closed l) = length l.
Proof. unfold close_sockets. apply length_imap. Qed.

(** ** Reconnection *)

Lemma page_onclose_spec ws parcelId a :
  socket_parcel a !! ws = Some parcelId →
  wsConnectionsRef (tracking (page_onclose ws a).1) !! parcelId = None
  ∧ admin_sockets (tracking (page_onclose ws a).1) = admin_sockets (tracking a)
  ∧ liveParcels (tracking (page_onclose ws a).1) = liveParcels (tracking a)
  ∧ page_tokens (page_onclose ws a).1 = page_tokens a
  ∧ ((attempts_of (tracking a) parcelId < ADMIN_MAX_ATTEMPTS)%nat →
     (page_onclose ws a).2
     = [PageSetTimeout (page_nextTimer a) ADMIN_RECONNECT_DELAY]
     ∧ page_timers (page_onclose ws a).1
       = <[page_nextTimer a := (parcelId, attempts_of (tracking a) parcelId)]>
           (page_timers a)
     ∧ admin_reconnectAttemptsRef (tracking (page_onclose ws a).1)
       = admin_reconnectAttemptsRef (tracking a))
  ∧ ((ADMIN_MAX_ATTEMPTS ≤ attempts_of (tracking a) parcelId)%nat →
     (page_onclose ws a).2 = []
     ∧ page_timers (page_onclose ws a).1 = page_timers a).
Proof.
  intros Hp. unfold page_onclose. rewrite Hp.
  destruct (decide (attempts_of (tracking a) parcelId < ADMIN_MAX_ATTEMPTS)%nat);
    simpl; rewrite lookup_delete_eq; repeat split; try done; lia.
Qed.

Lemma page_timeout_spec env handle parcelId k access a :
  page_timers a !! handle = Some (parcelId, k) →
  page_tokens a = Tokens access → ws_scheme (wsUrl env) = true →
  ∃ url,
    page_timeout env handle a
    = ({| tracking :=
            with_connections
              (<[parcelId := length (admin_sockets (tracking a))]>
                 (wsConnectionsRef (tracking a)))
              (with_sockets (admin_sockets (tracking a) ++ [CONNECTING])
                 (with_attempts
                    (<[parcelId := S k]>
                       (admin_reconnectAttemptsRef (tracking a)))
                    (tracking a)));
          socket_parcel :=
            <[length (admin_sockets (tracking a)) := parcelId]>
              (socket_parcel a);
          page_timers := delete handle (page_timers a);
          page_nextTimer := page_nextTimer a;
          page_tokens := page_tokens a |},
       [PageNewWebSocket (length (admin_sockets (tracking a))) url],
       Returned).
Proof.
  intros Ht Htok Hs. unfold page_timeout, connectParcelWebSocket.
  rewrite Ht. cbn [page_tokens]. rewrite Htok.
  rewrite ws_scheme_append by done. by eexists.
Qed.

Lemma page_close_event_spec ws parcelId r a :
  socket_parcel a !! ws = Some parcelId →
  admin_sockets (tracking a) !! ws = Some r → r ≠ CLOSED →
  page_close_event ws a
  = page_onclose ws
      (set_tracking
         (with_sockets (<[ws := CLOSED]> (admin_sockets (tracking a)))
            (tracking a)) a).
Proof.
  intros Hp Hr Hne. unfold page_close_event. rewrite Hr. by destruct r.
Qed.

(** What the [close] event of a socket leads to. *)
Lemma page_close_reconnects env ws parcelId r a :
  socket_parcel a !! ws = Some parcelId →
  admin_sockets (tracking a) !! ws = Some r → r ≠ CLOSED →
  admin_sockets (tracking (page_close_event ws a).1) !! ws = Some CLOSED
  ∧ wsConnectionsRef (tracking (page_close_event ws a).1) !! parcelId = None
  ∧ ((attempts_of (tracking a) parcelId < 3)%nat →
     (page_close_event ws a).2 = [PageSetTimeout (page_nextTimer a) 3000]
     ∧ page_timers (page_close_event ws a).1 !! page_nextTimer a
       = Some (parcelId, attempts_of (tracking a) parcelId)
     ∧ ∀ access,
         page_tokens a = Tokens access → ws_scheme (wsUrl env) = true →
         let d := page_timeout env (page_nextTimer a)
                    (page_close_event ws a).1 in
         d.2 = Returned
         ∧ (∃ url,
              d.1.2 = [PageNewWebSocket (length (admin_sockets (tracking a)))
                         url])
         ∧ attempts_of (tracking d.1.1) parcelId
           = S (attempts_of (tracking a) parcelId)
         ∧ wsConnectionsRef (tracking d.1.1) !! parcelId
           = Some (length (admin_sockets (tracking a)))
         ∧ admin_sockets (tracking d.1.1)
             !! length (admin_sockets (tracking a))
           = Some CONNECTING
         ∧ liveParcels (tracking d.1.1) = liveParcels (tracking a))
  ∧ ((3 ≤ attempts_of (tracking a) parcelId)%nat →
     (page_close_event ws a).2 = []
     ∧ page_timers (page_close_event ws a).1 = page_timers a).
Proof.
  intros Hp Hr Hne.
  rewrite (page_close_event_spec ws parcelId r a Hp Hr Hne).
  set (a0 := set_tracking
               (with_sockets (<[ws := CLOSED]> (admin_sockets (tracking a)))
                  (tracking a)) a).
  destruct (page_onclose_spec ws parcelId a0 Hp)
    as (Hgone & Hsock & Hlive & Htok & Hlt & Hge).
  assert (admin_sockets (tracking (page_onclose ws a0).1) !! ws = Some CLOSED)
    as Hclosed.
  { rewrite Hsock. subst a0. simpl.
    apply list_lookup_insert_eq. by eapply lookup_lt_Some. }
  split; [done|]. split; [done|]. split.
  - intros Hk. destruct (Hlt Hk) as (Hlog & Htim & Hatt).
    split; [done|]. split.
    { rewrite Htim. apply lookup_insert_eq. }
    intros access Ha Hs d.
    destruct (page_timeout_spec env (page_nextTimer a) parcelId
                (attempts_of (tracking a) parcelId) access
                (page_onclose ws a0).1) as (url & Hd).
    { rewrite Htim. apply lookup_insert_eq. }
    { by rewrite Htok. }
    { done. }
    subst d. rewrite Hd. cbn [fst snd tracking]. rewrite Hsock.
    cbn [liveParcels with_connections with_sockets with_attempts].
    rewrite Hlive.
    subst a0. cbn [admin_sockets with_sockets tracking set_tracking].
    rewrite length_insert.
    split; [done|]. split; [by exists url|].
    unfold attempts_of. simpl. rewrite !lookup_insert_eq.
    split; [done|]. split; [done|]. split; [|done].
    rewrite lookup_app_r by (rewrite length_insert; lia).
    by rewrite length_insert, Nat.sub_diag.
  - intros Hk. by apply Hge.
Qed.

(** X10. When a socket of the admin page closes, for whatever reason, the
    entry of its parcel is removed from [wsConnectionsRef] (whichever
    socket it holds).  With fewer than 3 attempts counted for the parcel
    one reconnection is scheduled 3000 ms ahead; when it fires the count
    becomes one more than the count captured at the close and, with tokens
    stored, a new socket is constructed and stored for the parcel.  With 3
    or more attempts counted nothing is scheduled and nothing is shown: the
    page gives up without a word. *)
Theorem admin_close_reconnects_up_to_three env ws parcelId r a :
  socket_parcel a !! ws = Some parcelId →
  admin_sockets (tracking a) !! ws = Some r → r ≠ CLOSED →
  admin_sockets (tracking (page_close_event ws a).1) !! ws = Some CLOSED
  ∧ wsConnectionsRef (tracking (page_close_event ws a).1) !! parcelId = None
  ∧ ((attempts_of (tracking a) parcelId < 3)%nat →
     (page_close_event ws a).2 = [PageSetTimeout (page_nextTimer a) 3000]
     ∧ page_timers (page_close_event ws a).1 !! page_nextTimer a
       = Some (parcelId, attempts_of (tracking a) parcelId)
     ∧ ∀ access,
         page_tokens a = Tokens access → ws_scheme (wsUrl env) = true →
         let d := page_timeout env (page_nextTimer a)
                    (page_close_event ws a).1 in
         d.2 = Returned
         ∧ (∃ url,
              d.1.2 = [PageNewWebSocket (length (admin_sockets (tracking a)))
                         url])
         ∧ attempts_of (tracking d.1.1) parcelId
           = S (attempts_of (tracking a) parcelId)
         ∧ wsConnectionsRef (tracking d.1.1) !! parcelId
           = Some (length (admin_sockets (tracking a)))
         ∧ admin_sockets (tracking d.1.1)
             !! length (admin_sockets (tracking a))
           = Some CONNECTING
         ∧ liveParcels (tracking d.1.1) = liveParcels (tracking a))
  ∧ ((3 ≤ attempts_of (tracking a) parcelId)%nat →
     (page_close_event ws a).2 = []
     ∧ page_timers (page_close_event ws a).1 = page_timers a).
Proof.
  intros Hp Hr Hne.
  exact (page_close_reconnects env ws parcelId r a Hp Hr Hne).
Qed.

Lemma admin_close_reconnects_up_to_three_witness :
  (page_close_event 0%nat sample_page).2 = [PageSetTimeout 1%nat 3000]
  ∧ wsConnectionsRef
      (tracking (page_timeout None 1%nat
                   (page_close_event 0%nat sample_page).1).1.1) !! 7
    = Some 1%nat.
Proof.
  destruct (admin_close_reconnects_up_to_three None 0%nat 7 OPEN sample_page)
    as (_ & _ & Hlt & _).
  - reflexivity.
  - reflexivity.
  - discriminate.
  - destruct Hlt as (Hlog & _ & Hfire); [vm_compute; lia|].
    split; [exact Hlog|].
    destruct (Hfire "t" eq_refl eq_refl) as (_ & _ & _ & Hmap & _).
    exact Hmap.
Defined.

(** X11. Closing a socket on purpose does not stop the reconnection.  When
    [tracking_ended] arrives on a parcel's open socket the handler closes
    the socket, forgets it and drops the parcel from [liveParcels]; but the
    [close] event that follows runs the same [onclose] as any other, and
    with fewer than 3 attempts counted and tokens stored the page, 3
    seconds later, constructs and stores a new socket for the parcel whose
    tracking has ended and which it no longer lists. *)
Theorem ended_parcel_is_reconnected env ws parcelId p text access a :
  socket_parcel a !! ws = Some parcelId →
  admin_sockets (tracking a) !! ws = Some OPEN →
  (attempts_of (tracking a) parcelId < 3)%nat →
  page_tokens a = Tokens access → ws_scheme (wsUrl env) = true →
  let a1 := (page_message_event ws (Parsed (tracking_ended p text)) a).1 in
  let a2 := (page_close_event ws a1).1 in
  let a3 := (page_timeout env (page_nextTimer a) a2).1.1 in
  admin_sockets (tracking a1) !! ws = Some CLOSING
  ∧ wsConnectionsRef (tracking a1) !! parcelId = None
  ∧ (page_close_event ws a1).2 = [PageSetTimeout (page_nextTimer a) 3000]
  ∧ (∀ q, q ∈ liveParcels (tracking a3) → id q ≠ parcelId)
  ∧ wsConnectionsRef (tracking a3) !! parcelId
    = Some (length (admin_sockets (tracking a)))
  ∧ admin_sockets (tracking a3) !! length (admin_sockets (tracking a))
    = Some CONNECTING.
Proof.
  intros Hp Hopen Hk Htok Hs a1.
  assert (Ha1 : a1 = set_tracking
            {| liveParcels :=
                 List.filter (λ q, bool_decide (id q ≠ parcelId))
                   (liveParcels (tracking a));
               liveDrivers := liveDrivers (tracking a);
               wsConnectionsRef := delete parcelId (wsConnectionsRef (tracking a));
               admin_reconnectAttemptsRef :=
                 admin_reconnectAttemptsRef (tracking a);
               admin_sockets := <[ws := CLOSING]> (admin_sockets (tracking a)) |}
            a).
  { subst a1. unfold page_message_event, admin_message_event.
    rewrite Hp, Hopen. simpl. by rewrite Hopen. }
  assert (admin_sockets (tracking a1) !! ws = Some CLOSING) as Hclosing.
  { rewrite Ha1. simpl. apply list_lookup_insert_eq. by eapply lookup_lt_Some. }
  assert (socket_parcel a1 !! ws = Some parcelId) as Hp1 by by rewrite Ha1.
  destruct (page_close_reconnects env ws parcelId CLOSING a1 Hp1 Hclosing)
    as (_ & _ & Hlt & _); [done|].
  assert (attempts_of (tracking a1) parcelId = attempts_of (tracking a) parcelId)
    as Hatt by by rewrite Ha1.
  assert (page_nextTimer a1 = page_nextTimer a) as Hnext by by rewrite Ha1.
  assert (length (admin_sockets (tracking a1))
          = length (admin_sockets (tracking a))) as Hlen
    by (rewrite Ha1; simpl; apply length_insert).
  rewrite Hatt, Hnext, Hlen in Hlt.
  destruct (Hlt Hk) as (Hlog & _ & Hfire).
  destruct (Hfire access) as (_ & _ & _ & Hmap & Hsock & Hlist);
    [by rewrite Ha1 | done |].
  intros a2 a3. split; [done|].
  split; [by rewrite Ha1; simpl; apply lookup_delete_eq|].
  split; [done|]. split; [|done].
  intros q Hq. subst a3 a2. rewrite Hlist, Ha1 in Hq. simpl in Hq.
  apply list_elem_of_In, List.filter_In in Hq as [_ Hq].
  by apply bool_decide_eq_true in Hq.
Qed.

Lemma ended_parcel_is_reconnected_witness :
  wsConnectionsRef
    (tracking
       (page_timeout None 1%nat
          (page_close_event 0%nat
             (page_message_event 0%nat (Parsed (tracking_ended 7 "done"))
                sample_page).1).1).1.1) !! 7
  = Some 1%nat.
Proof.
  destruct (ended_parcel_is_reconnected None 0%nat 7 7 "done" "t" sample_page)
    as (_ & _ & _ & _ & Hmap & _).
  - reflexivity.
  - reflexivity.
  - vm_compute. lia.
  - reflexivity.
  - reflexivity.
  - exact Hmap.
Defined.

(** ** Leaving the page *)

(** X13. The cleanup of the admin page calls [close()] on exactly the
    sockets stored in [wsConnectionsRef] that are open, which then are
    closing, and clears the map.  It closes no socket that is still
    connecting and no socket the map no longer holds, and it clears no
    reconnection timer: the pending timers are left as they are. *)
Theorem cleanup_closes_open_sockets_only a :
  wsConnectionsRef (tracking (page_cleanup a).1) = ∅
  ∧ (∀ ws, ws ∈ (page_cleanup a).2 ↔
       ∃ parcelId, wsConnectionsRef (tracking a) !! parcelId = Some ws
                   ∧ admin_sockets (tracking a) !! ws = Some OPEN)
  ∧ (∀ ws, ws ∈ (page_cleanup a).2 →
       admin_sockets (tracking (page_cleanup a).1) !! ws = Some CLOSING)
  ∧ (∀ ws r, admin_sockets (tracking a) !! ws = Some r →
       r ≠ OPEN ∨ (∀ parcelId,
                     wsConnectionsRef (tracking a) !! parcelId ≠ Some ws) →
       admin_sockets (tracking (page_cleanup a).1) !! ws = Some r)
  ∧ page_timers (page_cleanup a).1 = page_timers a
  ∧ socket_parcel (page_cleanup a).1 = socket_parcel a.
Proof.
  assert (Hclosed : ∀ ws, ws ∈ (page_cleanup a).2 ↔
    ∃ parcelId, wsConnectionsRef (tracking a) !! parcelId = Some ws
                ∧ admin_sockets (tracking a) !! ws = Some OPEN).
  { intros ws. unfold page_cleanup. cbn [snd].
    rewrite elem_of_map_img. split.
    - intros (p & Hp). apply map_lookup_filter_Some in Hp as [Hp Hopen].
      by exists p.
    - intros (p & Hp & Hopen). exists p.
      apply map_lookup_filter_Some. by split. }
  split; [done|]. split; [exact Hclosed|]. split; [|split; [|done]].
  - intros ws Hin. pose proof Hin as Hin'.
    apply Hclosed in Hin' as (p & _ & Hopen).
    unfold page_cleanup in *. cbn [fst snd tracking set_tracking admin_sockets
      with_connections with_sockets] in *.
    rewrite close_sockets_lookup, Hopen. simpl. by rewrite decide_True.
  - intros ws r Hr Hnot.
    assert (ws ∉ (page_cleanup a).2) as Hout.
    { intros (p & Hp & Hopen)%Hclosed. destruct Hnot as [Hne|Hnone].
      - congruence.
      - by destruct (Hnone p). }
    unfold page_cleanup in *. cbn [fst snd tracking set_tracking admin_sockets
      with_connections with_sockets] in *.
    rewrite close_sockets_lookup, Hr. simpl. by rewrite decide_False.
Qed.

(** ** Loading the live data *)

Lemma connectParcelWebSocket_spec env access parcelId a :
  page_tokens a = Tokens access → ws_scheme (wsUrl env) = true →
  ∃ url,
    connectParcelWebSocket env parcelId a
    = ({| tracking :=
            with_connections
              (<[parcelId := length (admin_sockets (tracking a))]>
                 (wsConnectionsRef (tracking a)))
              (with_sockets (admin_sockets (tracking a) ++ [CONNECTING])
                 (tracking a));
          socket_parcel :=
            <[length (admin_sockets (tracking a)) := parcelId]>
              (socket_parcel a);
          page_timers := page_timers a;
          page_nextTimer := page_nextTimer a;
          page_tokens := page_tokens a |},
       [PageNewWebSocket (length (admin_sockets (tracking a))) url],
       Returned).
Proof.
  intros Htok Hs. unfold connectParcelWebSocket. rewrite Htok.
  rewrite ws_scheme_append by done. by eexists.
Qed.

(** What the first loop of [loadLiveData] does when tokens are stored. *)
Lemma connect_missing_spec env access parcels : ∀ a,
  page_tokens a = Tokens access → ws_scheme (wsUrl env) = true →
  registered a →
  (connect_missing env parcels a).2 = Returned
  ∧ registered (connect_missing env parcels a).1.1
  ∧ liveParcels (tracking (connect_missing env parcels a).1.1)
    = liveParcels (tracking a)
  ∧ liveDrivers (tracking (connect_missing env parcels a).1.1)
    = liveDrivers (tracking a)
  ∧ page_timers (connect_missing env parcels a).1.1 = page_timers a
  ∧ (∀ p ws, wsConnectionsRef (tracking a) !! p = Some ws →
       wsConnectionsRef (tracking (connect_missing env parcels a).1.1) !! p
       = Some ws)
  ∧ (∀ p, is_Some (wsConnectionsRef
                     (tracking (connect_missing env parcels a).1.1) !! p)
          ↔ is_Some (wsConnectionsRef (tracking a) !! p)
            ∨ p ∈ id <$> parcels)
  ∧ (admin_sockets (tracking (connect_missing env parcels a).1.1)
     = admin_sockets (tracking a)
       ++ replicate (length (connect_missing env parcels a).1.2) CONNECTING)
  ∧ (∀ ws, (length (admin_sockets (tracking a)) ≤ ws
            < length (admin_sockets
                        (tracking (connect_missing env parcels a).1.1)))%nat →
       ∃ p, wsConnectionsRef
              (tracking (connect_missing env parcels a).1.1) !! p = Some ws
            ∧ wsConnectionsRef (tracking a) !! p = None)
  ∧ (∀ p ws,
       wsConnectionsRef (tracking (connect_missing env parcels a).1.1) !! p
       = Some ws →
       wsConnectionsRef (tracking a) !! p = None →
       (length (admin_sockets (tracking a)) ≤ ws)%nat).
Proof.
  induction parcels as [|parcel parcels IH]; intros a Htok Hs Hreg.
  - simpl. rewrite app_nil_r. split_and!; try done.
    + intros p. split; [by left|]. by intros [?|?%elem_of_nil].
    + intros ws Hws. lia.
    + intros p ws Hp Hnone. congruence.
  - cbn [connect_missing].
    destruct (wsConnectionsRef (tracking a) !! id parcel) as [ws0|] eqn:Hlook.
    + destruct (IH a Htok Hs Hreg)
        as (H1 & H2 & H3 & H4 & H5 & H6 & H7 & H8 & H9 & H10).
      split_and!; try done.
      intros p. rewrite H7, fmap_cons, elem_of_cons. split.
      * intros [Hp|Hp]; auto.
      * intros [Hp|[->|Hp] ]; auto; left; by rewrite Hlook.
    + destruct (connectParcelWebSocket_spec env access (id parcel) a Htok Hs)
        as (url & ->).
      set (a1 := {| tracking := _ |}).
      assert (registered a1) as Hreg1.
      { intros p ws Hp. subst a1. simpl in *.
        destruct (decide (p = id parcel)) as [->|Hne].
        - rewrite lookup_insert_eq in Hp. injection Hp as <-.
          rewrite length_app, lookup_insert_eq. simpl. split; [lia|done].
        - rewrite lookup_insert_ne in Hp by done.
          destruct (Hreg p ws Hp) as [Hlt Hsp].
          rewrite length_app, lookup_insert_ne by lia. simpl. split; [lia|done]. }
      destruct (IH a1 Htok Hs Hreg1)
        as (H1 & H2 & H3 & H4 & H5 & H6 & H7 & H8 & H9 & H10).
      destruct (connect_missing env parcels a1) as [[a2 e2] c2].
      cbn [fst snd] in *. subst a1.
      cbn [tracking admin_sockets wsConnectionsRef with_connections
           with_sockets liveParcels liveDrivers page_timers] in *.
      split_and!; try done.
      * intros p ws Hp. apply H6. rewrite lookup_insert_ne; [done|].
        intros <-. congruence.
      * intros p. rewrite H7, fmap_cons, elem_of_cons.
        destruct (decide (p = id parcel)) as [->|Hne].
        -- rewrite lookup_insert_eq. split; auto.
        -- rewrite lookup_insert_ne by done. split.
           ++ intros [Hp|Hp]; auto.
           ++ intros [Hp|[Hp|Hp] ]; auto; done.
      * rewrite H8, <- app_assoc. done.
      * intros ws Hws. rewrite H8, !length_app, length_replicate in Hws.
        simpl in Hws.
        destruct (decide (ws = length (admin_sockets (tracking a)))) as [->|Hne].
        -- exists (id parcel). split; [|done].
           apply H6. apply lookup_insert_eq.
        -- destruct (H9 ws) as (p & Hp & Hnone).
           { rewrite H8, !length_app, length_replicate. simpl. lia. }
           exists p. split; [done|].
           destruct (decide (p = id parcel)) as [->|Hne'].
           ++ by rewrite lookup_insert_eq in Hnone.
           ++ by rewrite lookup_insert_ne in Hnone.
      * intros p ws Hp Hnone.
        destruct (decide (p = id parcel)) as [->|Hne].
        -- assert (wsConnectionsRef (tracking a2) !! id parcel
                   = Some (length (admin_sockets (tracking a)))) as Hq
             by (apply H6, lookup_insert_eq).
           rewrite Hq in Hp. injection Hp as <-. lia.
        -- pose proof (H10 p ws Hp) as Hle.
           rewrite lookup_insert_ne, length_app in Hle by done.
           simpl in Hle. specialize (Hle Hnone). lia.
Qed.

(** X12. [loadLiveData], once the responses have arrived and with tokens
    stored, reconciles the sockets with the parcels of the response.  The
    two lists are set; afterwards [wsConnectionsRef] holds a socket for
    exactly the parcels of the response.  A parcel that had a socket keeps
    it untouched and gets no second one; a parcel that had none gets a new
    connecting socket, one only even if the response lists it twice, and
    every socket constructed is stored.  [close()] is called on exactly the
    sockets of the parcels that are no longer in the response, which are
    removed from the map. *)
Theorem loadLiveData_reconciles_sockets env access parcels drivers isLoading a :
  page_tokens a = Tokens access → ws_scheme (wsUrl env) = true →
  registered a →
  let c := loadLiveData_loaded env parcels drivers isLoading a in
  liveParcels (tracking c.1.1) = parcels
  ∧ liveDrivers (tracking c.1.1) = drivers
  ∧ (∀ p, is_Some (wsConnectionsRef (tracking c.1.1) !! p)
          ↔ p ∈ id <$> parcels)
  ∧ (∀ p ws, wsConnectionsRef (tracking a) !! p = Some ws →
       p ∈ id <$> parcels →
       wsConnectionsRef (tracking c.1.1) !! p = Some ws
       ∧ admin_sockets (tracking c.1.1) !! ws
         = admin_sockets (tracking a) !! ws)
  ∧ (∀ p, p ∈ id <$> parcels → wsConnectionsRef (tracking a) !! p = None →
       ∃ ws, wsConnectionsRef (tracking c.1.1) !! p = Some ws
             ∧ (length (admin_sockets (tracking a)) ≤ ws)%nat
             ∧ admin_sockets (tracking c.1.1) !! ws = Some CONNECTING)
  ∧ (∀ ws, ws ∈ c.2 ↔
       ∃ p, wsConnectionsRef (tracking a) !! p = Some ws
            ∧ p ∉ id <$> parcels)
  ∧ (∀ ws r, ws ∈ c.2 → admin_sockets (tracking a) !! ws = Some r →
       admin_sockets (tracking c.1.1) !! ws = Some (after_close r))
  ∧ (∀ ws, (length (admin_sockets (tracking a)) ≤ ws
            < length (admin_sockets (tracking c.1.1)))%nat →
       ∃ p, wsConnectionsRef (tracking c.1.1) !! p = Some ws)
  ∧ length c.1.2
    = (length (admin_sockets (tracking c.1.1))
       - length (admin_sockets (tracking a)))%nat.
Proof.
  intros Htok Hs Hreg c. subst c. unfold loadLiveData_loaded.
  set (a0 := set_tracking (with_lists parcels drivers (tracking a)) a).
  assert (registered a0) as Hreg0 by exact Hreg.
  destruct (connect_missing_spec env access parcels a0 Htok Hs Hreg0)
    as (H1 & H2 & H3 & H4 & H5 & H6 & H7 & H8 & H9 & H10).
  destruct (connect_missing env parcels a0) as [[a1 e1] c1].
  cbn [fst snd] in *. subst c1 a0.
  cbn [tracking set_tracking with_lists wsConnectionsRef admin_sockets
       liveParcels liveDrivers] in *.
  set (m1 := wsConnectionsRef (tracking a1)) in *.
  set (closed := map_img (inactive parcels m1) : gset nat).
  assert (Hclosed : ∀ ws, ws ∈ closed ↔
    ∃ p, wsConnectionsRef (tracking a) !! p = Some ws ∧ p ∉ id <$> parcels).
  { intros ws. subst closed. rewrite elem_of_map_img. unfold inactive. split.
    - intros (p & Hp). apply map_lookup_filter_Some in Hp as [Hp Hnot].
      simpl in Hnot. exists p. split; [|done].
      assert (is_Some (wsConnectionsRef (tracking a) !! p)) as [ws' Hold].
      { destruct (proj1 (H7 p)) as [?|?]; [by rewrite Hp|done|done]. }
      rewrite (H6 p ws' Hold) in Hp. by injection Hp as ->.
    - intros (p & Hp & Hnot). exists p.
      apply map_lookup_filter_Some. split; [by apply H6|done]. }
  assert (Hold_lt : ∀ ws, ws ∈ closed →
    (ws < length (admin_sockets (tracking a)))%nat).
  { intros ws (p & Hp & _)%Hclosed. by destruct (Hreg p ws Hp). }
  assert (Hlen : length (admin_sockets (tracking a1))
                 = (length (admin_sockets (tracking a)) + length e1)%nat).
  { by rewrite H8, length_app, length_replicate. }
  cbn [fst snd tracking set_tracking with_connections with_sockets
       wsConnectionsRef admin_sockets liveParcels liveDrivers].
  split; [done|]. split; [done|]. split_and!.
  - intros p. split.
    + intros [ws Hp]. by apply map_lookup_filter_Some in Hp as [_ Hin].
    + intros Hin. destruct (proj2 (H7 p) (or_intror Hin)) as [ws Hp].
      exists ws. by apply map_lookup_filter_Some.
  - intros p ws Hp Hin. split.
    + apply map_lookup_filter_Some. split; [by apply H6|done].
    + destruct (Hreg p ws Hp) as [Hlt Hsp].
      assert (ws ∉ closed) as Hout.
      { intros (p' & Hp' & Hnot)%Hclosed.
        destruct (Hreg p' ws Hp') as [_ Hsp']. congruence. }
      rewrite close_sockets_lookup, H8, lookup_app_l by done.
      destruct (admin_sockets (tracking a) !! ws); simpl; [|done].
      by rewrite decide_False.
  - intros p Hin Hnone.
    destruct (proj2 (H7 p) (or_intror Hin)) as [ws Hp].
    exists ws. pose proof (H10 p ws Hp Hnone) as Hle.
    split; [by apply map_lookup_filter_Some|]. split; [done|].
    destruct (H2 p ws Hp) as [Hlt _]. rewrite Hlen in Hlt.
    rewrite close_sockets_lookup, H8, lookup_app_r by done.
    rewrite lookup_replicate_2 by lia. simpl.
    rewrite decide_False; [done|]. intros Hc%Hold_lt. lia.
  - exact Hclosed.
  - intros ws r Hin Hr.
    rewrite close_sockets_lookup, H8, lookup_app_l
      by by eapply lookup_lt_Some.
    rewrite Hr. simpl. by rewrite decide_True.
  - intros ws Hws. rewrite close_sockets_length in Hws.
    destruct (H9 ws Hws) as (p & Hp & Hnone). exists p.
    apply map_lookup_filter_Some. split; [done|]. simpl.
    destruct (proj1 (H7 p)) as [ [? ?]|?]; [by rewrite Hp|congruence|done].
  - rewrite close_sockets_length, Hlen. lia.
Qed.

Lemma loadLiveData_reconciles_sockets_witness :
  (∀ p, is_Some
          (wsConnectionsRef
             (tracking
                (loadLiveData_loaded None
                   [{| id := 8; driver_location_of := None |};
                    {| id := 8; driver_location_of := None |}]
                   [] true sample_page).1.1) !! p)
        ↔ p ∈ [8; 8])
  ∧ (0%nat ∈ (loadLiveData_loaded None
                [{| id := 8; driver_location_of := None |};
                 {| id := 8; driver_location_of := None |}]
                [] true sample_page).2)
  ∧ length
      (loadLiveData_loaded None
         [{| id := 8; driver_location_of := None |};
          {| id := 8; driver_location_of := None |}]
         [] true sample_page).1.2 = 1%nat.
Proof.
  destruct (loadLiveData_reconciles_sockets None "t"
              [{| id := 8; driver_location_of := None |};
               {| id := 8; driver_location_of := None |}]
              [] true sample_page)
    as (_ & _ & Hdom & _ & _ & Hclosed & _ & _ & Hcount).
  - reflexivity.
  - reflexivity.
  - intros p ws Hp. unfold sample_page in *. simpl in *.
    apply lookup_singleton_Some in Hp as [<- <-].
    split; [simpl; lia | reflexivity].
  - split; [exact Hdom|]. split.
    + apply Hclosed. exists 7. split; [reflexivity|].
      intros [Hc|[Hc|Hc%elem_of_nil]%elem_of_cons]%elem_of_cons; done.
    + rewrite Hcount. reflexivity.
Defined.

(** * The data store *)

(** ** Finding in lists that change *)

Lemma list_find_insert_same {A} (P : A → Prop) `{!∀ x, Decision (P x)}
    (l : list A) i x y :
  list_find P l = Some (i, x) → P y →
  list_find P (<[i := y]> l) = Some (i, y).
Proof.
  intros (Hi & Hx & Hleast)%list_find_Some Hy. apply list_find_Some.
  split_and!; [|done|].
  - apply list_lookup_insert_eq. by eapply lookup_lt_Some.
  - intros j z Hj Hlt. rewrite list_lookup_insert_ne in Hj by lia.
    by apply (Hleast j).
Qed.

Lemma list_find_insert_other {A} (Q : A → Prop) `{!∀ x, Decision (Q x)}
    (l : list A) i x y :
  l !! i = Some x → ¬ Q x → ¬ Q y →
  list_find Q (<[i := y]> l) = list_find Q l.
Proof.
  revert i. induction l as [|z l IH]; intros i Hi Hx Hy; [done|].
  destruct i as [|i]; simpl in *.
  - injection Hi as ->. by rewrite !decide_False.
  - destruct (decide (Q z)); [done|]. by rewrite (IH i).
Qed.

Lemma find_filter {A} (Q : A → Prop) `{!∀ x, Decision (Q x)}
    (f : A → bool) (l : list A) :
  (∀ x, Q x → f x = true) →
  snd <$> list_find Q (List.filter f l) = snd <$> list_find Q l.
Proof.
  intros Hf. induction l as [|z l IH]; [done|]. simpl.
  destruct (decide (Q z)) as [Hz|Hz].
  - rewrite (Hf z Hz). simpl. by rewrite decide_True.
  - destruct (f z); simpl.
    + rewrite decide_False by done.
      destruct (list_find Q (List.filter f l)) as [[? ?]|],
        (list_find Q l) as [[? ?]|]; simpl in *; congruence.
    + rewrite IH. by destruct (list_find Q l) as [[? ?]|].
Qed.

Lemma find_filter_none {A} (Q : A → Prop) `{!∀ x, Decision (Q x)}
    (f : A → bool) (l : list A) :
  (∀ x, Q x → f x = false) → list_find Q (List.filter f l) = None.
Proof.
  intros Hf. apply list_find_None, Forall_forall.
  intros x Hx%list_elem_of_In%List.filter_In Hq.
  destruct Hx as [_ Hx]. rewrite (Hf x Hq) in Hx. done.
Qed.

Lemma find_snoc {A} (Q : A → Prop) `{!∀ x, Decision (Q x)}
    (l : list A) (x : A) :
  snd <$> list_find Q (l ++ [x])
  = match snd <$> list_find Q l with
    | Some y => Some y
    | None => if decide (Q x) then Some x else None
    end.
Proof.
  induction l as [|z l IH]; simpl.
  - by destruct (decide (Q x)).
  - destruct (decide (Q z)); [done|].
    destruct (list_find Q (l ++ [x])) as [[? ?]|],
      (list_find Q l) as [[? ?]|]; simpl in *; try done;
      destruct (decide (Q x)); simpl in *; congruence.
Qed.

Section store_properties.
Import Store.
Variable env : Env.

(** ** Persistence *)

Lemma saveToStorage_in_sync s : in_sync (saveToStorage s).
Proof. reflexivity. Qed.

Lemma addNotification_in_sync n s : in_sync (addNotification env n s).1.
Proof. reflexivity. Qed.

Lemma updateParcel_persisted parcelId u s :
  persisted s (updateParcel env parcelId u s).1.
Proof.
  unfold updateParcel.
  destruct (list_find _ _) as [[index p]|]; [by right|by left].
Qed.

(** When [updateParcel] finds no parcel it returns the store as it was. *)
Lemma updateParcel_None parcelId u s :
  (updateParcel env parcelId u s).2 = None →
  (updateParcel env parcelId u s).1 = s.
Proof.
  unfold updateParcel. by destruct (list_find _ _) as [[index p]|].
Qed.

(** X14. Every operation of the store that changes one of its arrays
    writes the arrays to [localStorage] before it returns: after each of
    them either nothing has changed, in the store or in [localStorage], or
    [localStorage] holds exactly the three arrays of the store.  So, once
    in sync, the store and [localStorage] stay in sync. *)
Theorem store_persists_every_change s :
  (∀ parcel, persisted s (addParcel env parcel s).1)
  ∧ (∀ parcelId u, persisted s (updateParcel env parcelId u s).1)
  ∧ (∀ parcelId, persisted s (acceptParcel env parcelId s).1)
  ∧ (∀ parcelId, persisted s (rejectParcel env parcelId s).1)
  ∧ (∀ parcelId driverId, persisted s (assignDriver env parcelId driverId s).1)
  ∧ (∀ parcelId, persisted s (deliverParcel env parcelId s).1)
  ∧ (∀ driverId location,
       persisted s (updateDriverLocation driverId location s))
  ∧ (∀ driverData, persisted s (addDriver env driverData s).1)
  ∧ (∀ driverId u, persisted s (updateDriver env driverId u s).1)
  ∧ (∀ driverId, persisted s (deleteDriver driverId s).1)
  ∧ (∀ notification, persisted s (addNotification env notification s).1)
  ∧ (∀ notificationId, persisted s (markNotificationRead notificationId s))
  ∧ (∀ userId, persisted s (markAllNotificationsRead userId s))
  ∧ persisted s (reset env s).
Proof.
  split_and!.
  - intros parcel. by right.
  - intros parcelId u. apply updateParcel_persisted.
  - intros parcelId. unfold acceptParcel.
    pose proof (updateParcel_None parcelId (status_only "accepted") s) as Hn.
    destruct (updateParcel env parcelId (status_only "accepted") s)
      as [s1 [parcel|] ]; [by right|].
    left. by rewrite (Hn eq_refl).
  - intros parcelId. unfold rejectParcel.
    destruct (getParcelById parcelId s); [by right|by left].
  - intros parcelId driverId. unfold assignDriver.
    destruct (list_find _ (drivers s)) as [[index driver]|]; [|by left].
    pose proof (updateParcel_None parcelId
                  (assignment driverId (Driver.name (Driver.rest driver))) s)
      as Hn.
    destruct (updateParcel env parcelId _ s) as [s1 [parcel|] ]; [by right|].
    left. by rewrite (Hn eq_refl).
  - intros parcelId. unfold deliverParcel.
    pose proof (updateParcel_None parcelId (status_only "delivered") s) as Hn.
    destruct (updateParcel env parcelId (status_only "delivered") s)
      as [s1 [parcel|] ]; [by right|].
    left. by rewrite (Hn eq_refl).
  - intros driverId location. unfold updateDriverLocation.
    destruct (list_find _ _) as [[index d]|]; [by right|by left].
  - intros driverData. unfold addDriver.
    destruct (list_find _ _) as [[index d]|]; [by left|by right].
  - intros driverId u. unfold updateDriver.
    destruct (list_find _ (drivers s)) as [[index d]|]; [|by left].
    destruct (match Driver.set_email u with Some _ => _ | None => _ end);
      [by left|by right].
  - intros driverId. unfold deleteDriver.
    destruct (list_find _ _) as [[index d]|]; [|by left].
    destruct (decide _); [by left|by right].
  - intros notification. by right.
  - intros notificationId. unfold markNotificationRead.
    destruct (list_find _ _) as [[index n]|]; [by right|by left].
  - intros userId. by right.
  - by right.
Qed.

(** ** Parcels *)

Lemma updateParcel_found parcelId u s index p :
  list_find (λ q, Parcel.id q = parcelId) (parcels s) = Some (index, p) →
  updateParcel env parcelId u s
  = (saveToStorage
       (set_parcels
          (<[index := Parcel.spread p u (clock env (reads s))]> (parcels s))
          (now env s).2),
     Some (Parcel.spread p u (clock env (reads s)))).
Proof. intros Hf. unfold updateParcel. by rewrite Hf. Qed.

(** X15. [updateParcel] with an id the store does not have returns
    [undefined] and changes nothing.  With an id it has, and updates that do
    not give a new id, it returns the first parcel of that id with the
    given fields replaced and [updatedAt] set to the clock's reading, and
    afterwards [getParcelById] returns that parcel for this id and what it
    returned before for every other id; no parcel is added or removed, and
    notifications and drivers are left as they are. *)
Theorem updateParcel_then_getParcelById parcelId u s :
  (getParcelById parcelId s = None →
   updateParcel env parcelId u s = (s, None))
  ∧ (∀ p, getParcelById parcelId s = Some p → Parcel.set_id u = None →
       (updateParcel env parcelId u s).2
       = Some (Parcel.spread p u (clock env (reads s)))
       ∧ getParcelById parcelId (updateParcel env parcelId u s).1
         = (updateParcel env parcelId u s).2
       ∧ (∀ other, other ≠ parcelId →
            getParcelById other (updateParcel env parcelId u s).1
            = getParcelById other s)
       ∧ length (parcels (updateParcel env parcelId u s).1)
         = length (parcels s)
       ∧ notifications (updateParcel env parcelId u s).1 = notifications s
       ∧ drivers (updateParcel env parcelId u s).1 = drivers s).
Proof.
  unfold getParcelById. split.
  - intros Hn. unfold updateParcel.
    by destruct (list_find _ (parcels s)) as [[index p]|].
  - intros p Hp Hid.
    destruct (list_find (λ q, Parcel.id q = parcelId) (parcels s))
      as [[index p']|] eqn:Hf; [|done].
    injection Hp as ->.
    rewrite (updateParcel_found parcelId u s index p Hf). cbn [fst snd].
    pose proof Hf as (Hi & Hpid & _)%list_find_Some.
    assert (Parcel.id (Parcel.spread p u (clock env (reads s))) = parcelId)
      as Hsame by (simpl; by rewrite Hid).
    split_and!; try done.
    + simpl. by rewrite (list_find_insert_same _ _ index p _ Hf Hsame).
    + intros other Hne. simpl.
      rewrite (list_find_insert_other _ _ index p); [done|done|congruence|congruence].
    + simpl. apply length_insert.
Qed.

(** X16. [rejectParcel] with an id the store does not have returns
    [false] and changes nothing.  With an id it has it returns [true];
    afterwards no parcel of that id is left ([getParcelById] finds none),
    every other id is found as before, and one unread 'warning'
    notification has been added for the client of the first parcel that
    had the id. *)
Theorem rejectParcel_removes_the_parcel parcelId s :
  (getParcelById parcelId s = None →
   rejectParcel env parcelId s = (s, false))
  ∧ (∀ p, getParcelById parcelId s = Some p →
       (rejectParcel env parcelId s).2 = true
       ∧ getParcelById parcelId (rejectParcel env parcelId s).1 = None
       ∧ (∀ q, q ∈ parcels (rejectParcel env parcelId s).1 →
            Parcel.id q ≠ parcelId ∧ q ∈ parcels s)
       ∧ (∀ other, other ≠ parcelId →
            getParcelById other (rejectParcel env parcelId s).1
            = getParcelById other s)
       ∧ (∃ n, notifications (rejectParcel env parcelId s).1
               = notifications s ++ [n]
               ∧ Notification.userId (Notification.rest n)
                 = Parcel.clientId (Parcel.rest p)
               ∧ Notification.type (Notification.rest n) = "warning"
               ∧ Notification.read (Notification.rest n) = false)
       ∧ drivers (rejectParcel env parcelId s).1 = drivers s).
Proof.
  split.
  - intros Hn. unfold rejectParcel. by rewrite Hn.
  - intros p Hp. unfold rejectParcel. rewrite Hp. cbn [fst snd].
    split_and!; try done.
    + unfold getParcelById. simpl.
      rewrite find_filter_none; [done|].
      intros x Hx. by rewrite bool_decide_false by (intros ?; done).
    + intros q Hq. simpl in Hq.
      apply list_elem_of_In, List.filter_In in Hq as [Hq Hne].
      apply bool_decide_eq_true in Hne. split; [done|].
      by apply list_elem_of_In.
    + intros other Hne. unfold getParcelById. simpl.
      apply find_filter. intros x Hx. apply bool_decide_eq_true. congruence.
    + eexists. simpl. split; [reflexivity|]. done.
Qed.

(** X17. [addParcel] appends a parcel whose id is made of the clock's
    reading, with the given fields, and adds one unread notification for
    'admin-1'.  When no parcel had that id, [getParcelById] then returns the
    new parcel; when one had (the clock had not moved since it was added),
    [getParcelById] still returns the old one and the new parcel cannot be
    reached by its id.  Every other id is found as before. *)
Theorem addParcel_then_getParcelById parcel s :
  let new := (addParcel env parcel s).2 in
  Parcel.id new = "parcel-" +:+ pretty (clock env (reads s))
  ∧ Parcel.rest new = parcel
  ∧ parcels (addParcel env parcel s).1 = parcels s ++ [new]
  ∧ (getParcelById (Parcel.id new) s = None →
     getParcelById (Parcel.id new) (addParcel env parcel s).1 = Some new)
  ∧ (∀ old, getParcelById (Parcel.id new) s = Some old →
       getParcelById (Parcel.id new) (addParcel env parcel s).1 = Some old)
  ∧ (∀ other, other ≠ Parcel.id new →
       getParcelById other (addParcel env parcel s).1
       = getParcelById other s)
  ∧ getUnreadNotificationCount "admin-1" (addParcel env parcel s).1
    = S (getUnreadNotificationCount "admin-1" s)
  ∧ drivers (addParcel env parcel s).1 = drivers s.
Proof.
  intros new. subst new. unfold addParcel, getParcelById. cbn [fst snd].
  simpl parcels. simpl Parcel.id. simpl Parcel.rest.
  split; [done|]. split; [done|]. split; [done|].
  split_and!.
  - intros Hn. rewrite find_snoc, Hn. simpl. by rewrite decide_True.
  - intros old Ho. by rewrite find_snoc, Ho.
  - intros other Hne. rewrite find_snoc.
    destruct (snd <$> list_find _ (parcels s)); [done|].
    simpl. by rewrite decide_False by congruence.
  - unfold getUnreadNotificationCount. simpl.
    rewrite List.filter_app, length_app. simpl. lia.
  - done.
Qed.

(** ** Drivers *)

Lemma unique_emails_insert l index d d' :
  l !! index = Some d →
  (∀ j b, l !! j = Some b → j ≠ index →
     ¬ same_email env (Driver.email (Driver.rest d'))
         (Driver.email (Driver.rest b))) →
  unique_emails env l → unique_emails env (<[index := d']> l).
Proof.
  intros Hd Hnew Hu i j a b Hi Hj Hsame.
  destruct (decide (i = j)) as [|Hne]; [done|]. exfalso.
  apply list_lookup_insert_Some in Hi as [(-> & -> & _)|[Hi' Hi] ];
    apply list_lookup_insert_Some in Hj as [(-> & -> & _)|[Hj' Hj] ];
    try done.
  - by apply (Hnew j b Hj).
  - apply (Hnew i a Hi); [done|]. unfold same_email in *. congruence.
  - by pose proof (Hu i j a b Hi Hj Hsame).
Qed.

Lemma unique_emails_delete l index :
  unique_emails env l → unique_emails env (delete index l).
Proof.
  intros Hu i j a b Hi Hj Hsame.
  destruct (decide (i < index)%nat), (decide (j < index)%nat).
  - rewrite list_lookup_delete_lt in Hi, Hj by done. by apply (Hu i j a b).
  - rewrite list_lookup_delete_lt in Hi by done.
    rewrite list_lookup_delete_ge in Hj by lia.
    pose proof (Hu i (S j) a b Hi Hj Hsame). lia.
  - rewrite list_lookup_delete_ge in Hi by lia.
    rewrite list_lookup_delete_lt in Hj by done.
    pose proof (Hu (S i) j a b Hi Hj Hsame). lia.
  - rewrite list_lookup_delete_ge in Hi, Hj by lia.
    pose proof (Hu (S i) (S j) a b Hi Hj Hsame). lia.
Qed.

(** X18. No two drivers of the store have the same email but for case,
    and the driver operations keep it so.  [addDriver] refuses a driver
    whose email, case aside, some driver already has, and changes nothing
    then.  [updateDriver] keeps the emails distinct when the drivers' ids
    are distinct and the new email is not the empty string (for which the
    check is skipped); [deleteDriver] and [updateDriverLocation] keep them
    distinct always. *)
Theorem driver_emails_stay_unique s :
  unique_emails env (drivers s) →
  (∀ driverData, unique_emails env (drivers (addDriver env driverData s).1))
  ∧ (∀ driverData d,
       d ∈ drivers s →
       same_email env (Driver.email (Driver.rest d)) (Driver.email driverData) →
       addDriver env driverData s
       = (s, failure "A driver with this email already exists"))
  ∧ (∀ driverId u,
       NoDup (Driver.id <$> drivers s) → Driver.set_email u ≠ Some "" →
       unique_emails env (drivers (updateDriver env driverId u s).1))
  ∧ (∀ driverId, unique_emails env (drivers (deleteDriver driverId s).1))
  ∧ (∀ driverId location,
       unique_emails env (drivers (updateDriverLocation driverId location s))).
Proof.
  intros Hu. split_and!.
  - intros driverData. unfold addDriver.
    destruct (list_find _ (drivers s)) as [[index d]|] eqn:Hf; [done|].
    apply list_find_None in Hf. cbn [fst drivers saveToStorage set_drivers now snd].
    intros i j a b Hi Hj Hsame.
    apply lookup_app_Some in Hi as [Hi|[Hil Hi] ];
      apply lookup_app_Some in Hj as [Hj|[Hjl Hj] ].
    + by apply (Hu i j a b).
    + apply list_lookup_singleton_Some in Hj as [_ <-]. exfalso.
      apply (Forall_lookup_1 _ _ _ _ Hf Hi). exact Hsame.
    + apply list_lookup_singleton_Some in Hi as [_ <-]. exfalso.
      apply (Forall_lookup_1 _ _ _ _ Hf Hj).
      unfold same_email in *. simpl in *. congruence.
    + apply list_lookup_singleton_Some in Hi as [Hi _].
      apply list_lookup_singleton_Some in Hj as [Hj _]. lia.
  - intros driverData d Hd Hsame. unfold addDriver.
    destruct (list_find _ (drivers s)) as [[index d']|] eqn:Hf; [done|].
    apply list_find_None in Hf. rewrite Forall_forall in Hf.
    by destruct (Hf d Hd).
  - intros driverId u Hids Hne. unfold updateDriver.
    destruct (list_find (λ d, Driver.id d = driverId) (drivers s))
      as [[index d]|] eqn:Hf; [|done].
    apply list_find_Some in Hf as (Hd & Hid & _).
    destruct (Driver.set_email u) as [e|] eqn:He.
    + destruct (decide (e = "")) as [->|Hnonempty]; [done|].
      destruct (list_find _ (drivers s)) as [[k d']|] eqn:Hdup; [done|].
      apply list_find_None in Hdup.
      cbn [fst drivers saveToStorage set_drivers].
      apply (unique_emails_insert _ index d); [done| |done].
      intros j b Hj Hji Hsame.
      pose proof (Forall_lookup_1 _ _ _ _ Hdup Hj) as Hnot. simpl in Hnot.
      apply Hji. apply (NoDup_lookup _ j index driverId Hids).
      * rewrite list_lookup_fmap, Hj. simpl. f_equal.
        destruct (decide (Driver.id b = driverId)) as [|Hbid]; [done|].
        destruct Hnot. split; [|done].
        unfold same_email in *. simpl in Hsame. rewrite He in Hsame.
        simpl in Hsame. congruence.
      * rewrite list_lookup_fmap, Hd. simpl. by f_equal.
    + cbn [fst drivers saveToStorage set_drivers].
      apply (unique_emails_insert _ index d); [done| |done].
      intros j b Hj Hji Hsame. apply Hji.
      apply (Hu j index b d Hj Hd).
      unfold same_email in *. simpl in Hsame. rewrite He in Hsame.
      simpl in Hsame. congruence.
  - intros driverId. unfold deleteDriver.
    destruct (list_find _ (drivers s)) as [[index d]|]; [|done].
    destruct (decide _); [done|].
    cbn [fst drivers saveToStorage set_drivers].
    by apply unique_emails_delete.
  - intros driverId location. unfold updateDriverLocation.
    destruct (list_find _ (drivers s)) as [[index d]|] eqn:Hf; [|done].
    apply list_find_Some in Hf as (Hd & _ & _).
    cbn [drivers saveToStorage set_drivers].
    apply (unique_emails_insert _ index d); [done| |done].
    intros j b Hj Hji Hsame. apply Hji. apply (Hu j index b d Hj Hd).
    unfold same_email in *. simpl in Hsame. congruence.
Qed.

(** ** Parcels in transit and their drivers *)

Lemma assigned_exist_parcels s s' :
  drivers s' = drivers s →
  (∀ q, q ∈ parcels s' →
     q ∈ parcels s
     ∨ Parcel.status (Parcel.rest q) ≠ "in-transit"
     ∨ ∃ d, d ∈ drivers s
            ∧ Parcel.driverId (Parcel.rest q) = Some (Driver.id d)) →
  assigned_exist s → assigned_exist s'.
Proof.
  intros Hd Hp Ha q driverId Hq Hst Hdr. rewrite Hd.
  destruct (Hp q Hq) as [Hold|[Hne|(d & Hin & Hsame)] ].
  - by apply (Ha q driverId).
  - done.
  - exists d. split; [done|]. congruence.
Qed.

Lemma assigned_exist_drivers s s' :
  parcels s' = parcels s →
  (∀ d, d ∈ drivers s →
     (∃ d', d' ∈ drivers s' ∧ Driver.id d' = Driver.id d)
     ∨ activeParcels (Driver.id d) s = []) →
  assigned_exist s → assigned_exist s'.
Proof.
  intros Hp Hd Ha q driverId Hq Hst Hdr. rewrite Hp in Hq.
  destruct (Ha q driverId Hq Hst Hdr) as (d & Hin & <-).
  destruct (Hd d Hin) as [(d' & Hin' & Hid)|Hnone]; [by exists d'|].
  exfalso. assert (q ∈ activeParcels (Driver.id d) s) as Hact.
  { unfold activeParcels. apply list_elem_of_In, List.filter_In.
    split; [by apply list_elem_of_In|].
    by rewrite !bool_decide_true. }
  rewrite Hnone in Hact. by apply elem_of_nil in Hact.
Qed.

Lemma addNotification_keeps n s :
  parcels (addNotification env n s).1 = parcels s
  ∧ drivers (addNotification env n s).1 = drivers s.
Proof. done. Qed.

Lemma updateParcel_drivers parcelId u s :
  drivers (updateParcel env parcelId u s).1 = drivers s.
Proof.
  unfold updateParcel. by destruct (list_find _ (parcels s)) as [[index p]|].
Qed.

Lemma updateParcel_elem parcelId u s q :
  q ∈ parcels (updateParcel env parcelId u s).1 →
  q ∈ parcels s
  ∨ ∃ p, p ∈ parcels s
         ∧ (updateParcel env parcelId u s).2
           = Some (Parcel.spread p u (clock env (reads s)))
         ∧ q = Parcel.spread p u (clock env (reads s)).
Proof.
  unfold updateParcel.
  destruct (list_find _ (parcels s)) as [[index p]|] eqn:Hf; [|by auto].
  apply list_find_Some in Hf as (Hi & _ & _).
  cbn [fst snd drivers parcels saveToStorage set_parcels now].
  intros Hq.
  apply list_elem_of_lookup in Hq as [j Hj].
  apply list_lookup_insert_Some in Hj as [(-> & <- & _)|[_ Hj] ].
  - right. exists p. split; [|done]. by eapply list_elem_of_lookup_2.
  - left. by eapply list_elem_of_lookup_2.
Qed.

Lemma find_elem_of {A} (P : A → Prop) `{!∀ x, Decision (P x)}
    (l : list A) i x :
  list_find P l = Some (i, x) → x ∈ l ∧ P x.
Proof.
  intros (Hi & Hx & _)%list_find_Some. split; [|done].
  by eapply list_elem_of_lookup_2.
Qed.

(** X19. The driver of every parcel in transit is a driver of the store,
    and this is kept by every operation of the store but [reset], with two
    exceptions that are stated exactly.  [assignDriver] puts a parcel in
    transit only with a driver it has found; [deleteDriver] refuses, with
    an error that tells their number, to delete a driver who has parcels in
    transit, and reports 'Driver not found' for an id it does not have,
    changing nothing in either case; accepting, delivering or rejecting a
    parcel, adding or updating a driver, moving a driver and the
    notification operations keep the property.  [addParcel] and
    [updateParcel] check nothing: they keep the property exactly when the
    parcel they return is not in transit with a driver the store does not
    have, and break it otherwise. *)
Theorem drivers_of_parcels_in_transit_exist s :
  assigned_exist s →
  (∀ parcelId driverId,
     assigned_exist (assignDriver env parcelId driverId s).1)
  ∧ (∀ driverId, assigned_exist (deleteDriver driverId s).1)
  ∧ (∀ driverId,
       is_Some (getDriverById driverId s) →
       activeParcels driverId s ≠ [] →
       deleteDriver driverId s
       = (s, failure ("Cannot delete driver with "
                        +:+ pretty (length (activeParcels driverId s))
                        +:+ " active delivery(ies)")))
  ∧ (∀ driverId,
       getDriverById driverId s = None →
       deleteDriver driverId s = (s, failure "Driver not found"))
  ∧ (∀ parcelId, assigned_exist (acceptParcel env parcelId s).1)
  ∧ (∀ parcelId, assigned_exist (deliverParcel env parcelId s).1)
  ∧ (∀ parcelId, assigned_exist (rejectParcel env parcelId s).1)
  ∧ (∀ parcel,
       assigned_exist (addParcel env parcel s).1 ↔ known_driver s parcel)
  ∧ (∀ driverData, assigned_exist (addDriver env driverData s).1)
  ∧ (∀ driverId u, assigned_exist (updateDriver env driverId u s).1)
  ∧ (∀ parcelId u,
       assigned_exist (updateParcel env parcelId u s).1
       ↔ ∀ q, (updateParcel env parcelId u s).2 = Some q →
              known_driver s (Parcel.rest q))
  ∧ (∀ driverId location,
       assigned_exist (updateDriverLocation driverId location s))
  ∧ (∀ notification,
       assigned_exist (addNotification env notification s).1)
  ∧ (∀ notificationId,
       assigned_exist (markNotificationRead notificationId s))
  ∧ (∀ userId, assigned_exist (markAllNotificationsRead userId s)).
Proof.
  intros Ha.
  assert (Hstatus : ∀ parcelId st, st ≠ "in-transit" →
    assigned_exist (updateParcel env parcelId (status_only st) s).1).
  { intros parcelId st Hst. apply (assigned_exist_parcels s); [| |done].
    - apply updateParcel_drivers.
    - intros q [Hq|(p & _ & _ & ->)]%updateParcel_elem; [by left|].
      right. left. done. }
  assert (Hnote : ∀ n s', assigned_exist s' →
    assigned_exist (addNotification env n s').1).
  { intros n s' Hs'. by apply (assigned_exist_parcels s'); [|left|]. }
  split_and!.
  - intros parcelId driverId. unfold assignDriver.
    destruct (list_find _ (drivers s)) as [[index driver]|] eqn:Hf; [|done].
    apply find_elem_of in Hf as [Hin Hid].
    assert (assigned_exist
              (updateParcel env parcelId
                 (assignment driverId (Driver.name (Driver.rest driver))) s).1)
      as Hup.
    { apply (assigned_exist_parcels s); [| |done].
      - apply updateParcel_drivers.
      - intros q [Hq|(p & _ & _ & ->)]%updateParcel_elem; [by left|].
        right. right. exists driver. split; [done|]. simpl. by rewrite Hid. }
    destruct (updateParcel env parcelId _ s) as [s1 [parcel|] ]; [|done].
    cbn [fst] in *. by apply Hnote, Hnote.
  - intros driverId. unfold deleteDriver.
    destruct (list_find _ (drivers s)) as [[index d]|] eqn:Hf; [|done].
    destruct (decide (0 < length (activeParcels driverId s))%nat) as [|Hnone];
      [done|].
    apply list_find_Some in Hf as (Hd & Hid & Hleast).
    cbn [fst]. apply (assigned_exist_drivers s); [done| |done].
    intros d' Hin'. apply list_elem_of_lookup in Hin' as [j Hj].
    destruct (decide (j = index)) as [->|Hne].
    + right. rewrite Hd in Hj. injection Hj as <-. rewrite Hid.
      destruct (activeParcels driverId s); [done|simpl in Hnone; lia].
    + left. exists d'. split; [|done]. simpl.
      destruct (decide (j < index)%nat).
      * apply (list_elem_of_lookup_2 _ j). by rewrite list_lookup_delete_lt.
      * apply (list_elem_of_lookup_2 _ (j - 1)).
        rewrite list_lookup_delete_ge by lia.
        by replace (S (j - 1)) with j by lia.
  - intros driverId [d Hd] Hact. unfold getDriverById in Hd.
    unfold deleteDriver.
    destruct (list_find _ (drivers s)) as [[index d']|]; [|done].
    rewrite decide_True; [done|].
    destruct (activeParcels driverId s); [done|simpl; lia].
  - intros driverId Hnone. unfold getDriverById in Hnone. unfold deleteDriver.
    by destruct (list_find _ (drivers s)) as [[index d']|].
  - intros parcelId. unfold acceptParcel.
    pose proof (Hstatus parcelId "accepted" ltac:(discriminate)) as Hup.
    destruct (updateParcel env parcelId _ s) as [s1 [parcel|] ]; [|done].
    by apply Hnote.
  - intros parcelId. unfold deliverParcel.
    pose proof (Hstatus parcelId "delivered" ltac:(discriminate)) as Hup.
    destruct (updateParcel env parcelId _ s) as [s1 [parcel|] ]; [|done].
    by apply Hnote.
  - intros parcelId. unfold rejectParcel.
    destruct (getParcelById parcelId s); [|done].
    cbn [fst]. apply Hnote. apply (assigned_exist_parcels s); [done| |done].
    intros q Hq. left. simpl in Hq.
    apply list_elem_of_In, List.filter_In in Hq as [Hq _].
    by apply list_elem_of_In.
  - intros parcel. split.
    + intros Hnew Hst driverId Hdr.
      apply (Hnew (addParcel env parcel s).2 driverId); [|done|done].
      unfold addParcel. cbn [fst snd parcels addNotification now
        saveToStorage set_parcels set_notifications].
      apply elem_of_app. right. apply list_elem_of_singleton. reflexivity.
    + intros Hknown q driverId Hq Hst Hdr. unfold addParcel in Hq.
      cbn [fst parcels addNotification now saveToStorage set_parcels
           set_notifications] in Hq.
      apply elem_of_app in Hq as [Hq|Hq%list_elem_of_singleton].
      * by apply (Ha q driverId).
      * subst q. by apply Hknown.
  - intros driverData. unfold addDriver.
    destruct (list_find _ (drivers s)) as [[index d]|]; [done|].
    cbn [fst]. apply (assigned_exist_drivers s); [done| |done].
    intros d Hin. left. exists d. split; [|done]. simpl.
    apply elem_of_app. by left.
  - intros driverId u. unfold updateDriver.
    destruct (list_find _ (drivers s)) as [[index d]|] eqn:Hf; [|done].
    destruct (match Driver.set_email u with Some _ => _ | None => _ end);
      [done|].
    apply list_find_Some in Hf as (Hd & Hid & _).
    cbn [fst]. apply (assigned_exist_drivers s); [done| |done].
    intros d' Hin'. left. apply list_elem_of_lookup in Hin' as [j Hj].
    destruct (decide (j = index)) as [->|Hne].
    + exists (Driver.spread d u). rewrite Hd in Hj. injection Hj as <-.
      split; [|done]. simpl. apply (list_elem_of_lookup_2 _ index).
      apply list_lookup_insert_eq. by eapply lookup_lt_Some.
    + exists d'. split; [|done]. simpl. apply (list_elem_of_lookup_2 _ j).
      by rewrite list_lookup_insert_ne.
  - intros parcelId u. split.
    + intros Hnew q Hq Hst driverId Hdr.
      rewrite <- (updateParcel_drivers parcelId u s).
      apply (Hnew q driverId); [|done|done].
      revert Hq. unfold updateParcel.
      destruct (list_find _ (parcels s)) as [[index p]|] eqn:Hf; [|done].
      apply list_find_Some in Hf as (Hi & _ & _).
      cbn [fst snd parcels now saveToStorage set_parcels].
      intros [= <-]. apply (list_elem_of_lookup_2 _ index).
      apply list_lookup_insert_eq. by eapply lookup_lt_Some.
    + intros Hknown q driverId Hq Hst Hdr.
      rewrite updateParcel_drivers.
      apply updateParcel_elem in Hq as [Hq|(p & _ & Hret & ->)].
      * by apply (Ha q driverId).
      * by apply (Hknown _ Hret).
  - intros driverId location. unfold updateDriverLocation.
    destruct (list_find _ (drivers s)) as [[index d]|] eqn:Hf; [|done].
    apply list_find_Some in Hf as (Hd & Hid & _).
    apply (assigned_exist_drivers s); [done| |done].
    intros d' Hin'. left. apply list_elem_of_lookup in Hin' as [j Hj].
    destruct (decide (j = index)) as [->|Hne].
    + eexists. rewrite Hd in Hj. injection Hj as <-.
      split;
        [simpl; apply (list_elem_of_lookup_2 _ index);
         apply list_lookup_insert_eq; by eapply lookup_lt_Some
        |reflexivity].
    + exists d'. split; [|done]. simpl. apply (list_elem_of_lookup_2 _ j).
      by rewrite list_lookup_insert_ne.
  - intros notification. by apply Hnote.
  - intros notificationId. unfold markNotificationRead.
    destruct (list_find _ (notifications s)) as [[index n]|]; [|done].
    by apply (assigned_exist_parcels s); [|left|].
  - intros userId. by apply (assigned_exist_parcels s); [|left|].
Qed.

(** ** Notifications *)

Lemma find_middle {A} (P : A → Prop) `{!∀ x, Decision (P x)}
    (before after : list A) x :
  P x → (∀ y, y ∈ before → ¬ P y) →
  list_find P (before ++ x :: after) = Some (length before, x).
Proof.
  intros Hx Hbefore. apply list_find_Some. split_and!.
  - by rewrite list_lookup_middle.
  - done.
  - intros j y Hj Hlt. apply Hbefore.
    rewrite lookup_app_l in Hj by done. by eapply list_elem_of_lookup_2.
Qed.

Lemma unread_app userId l1 l2 s :
  getUnreadNotificationCount userId (set_notifications (l1 ++ l2) s)
  = (getUnreadNotificationCount userId (set_notifications l1 s)
     + getUnreadNotificationCount userId (set_notifications l2 s))%nat.
Proof.
  unfold getUnreadNotificationCount. simpl.
  by rewrite List.filter_app, length_app.
Qed.

Lemma unread_markAll userId other l s :
  getUnreadNotificationCount other
    (set_notifications
       ((λ n, if decide (Notification.userId (Notification.rest n) = userId)
              then Notification.mark_read n else n) <$> l) s)
  = if decide (other = userId) then 0%nat
    else getUnreadNotificationCount other (set_notifications l s).
Proof.
  unfold getUnreadNotificationCount. simpl.
  induction l as [|n l IH]; csimpl.
  - by destruct (decide (other = userId)).
  - destruct (decide (Notification.userId (Notification.rest n) = userId))
      as [Hn|Hn]; csimpl.
    + rewrite andb_false_r, IH.
      destruct (decide (other = userId)) as [->|Hne]; [done|].
      rewrite bool_decide_false by congruence. done.
    + destruct (decide (other = userId)) as [->|Hne].
      * by rewrite bool_decide_false by done.
      * destruct (bool_decide _ && _); csimpl; by rewrite IH.
Qed.

(** X20. [markAllNotificationsRead] leaves the user no unread
    notification and every other user's unread count as it was.
    [markNotificationRead] with an id no notification has changes nothing;
    otherwise it marks the first notification that has the id, and only
    that one: its user's unread count goes down by one when it was unread,
    and no other count changes. *)
Theorem reading_notifications s :
  (∀ userId,
     getUnreadNotificationCount userId (markAllNotificationsRead userId s)
     = 0%nat)
  ∧ (∀ userId other, other ≠ userId →
       getUnreadNotificationCount other (markAllNotificationsRead userId s)
       = getUnreadNotificationCount other s)
  ∧ (∀ notificationId,
       (∀ n, n ∈ notifications s → Notification.id n ≠ notificationId) →
       markNotificationRead notificationId s = s)
  ∧ (∀ before n after,
       notifications s = before ++ n :: after →
       (∀ m, m ∈ before → Notification.id m ≠ Notification.id n) →
       notifications (markNotificationRead (Notification.id n) s)
       = before ++ Notification.mark_read n :: after
       ∧ ∀ userId,
           getUnreadNotificationCount userId s
           = (getUnreadNotificationCount userId
                (markNotificationRead (Notification.id n) s)
              + if decide (userId = Notification.userId (Notification.rest n)
                           ∧ Notification.read (Notification.rest n) = false)
                then 1 else 0)%nat).
Proof.
  split_and!.
  - intros userId.
    pose proof (unread_markAll userId userId (notifications s) s) as H.
    by rewrite decide_True in H.
  - intros userId other Hne.
    pose proof (unread_markAll userId other (notifications s) s) as H.
    by rewrite decide_False in H.
  - intros notificationId Hnone. unfold markNotificationRead.
    destruct (list_find _ (notifications s)) as [[index n]|] eqn:Hf; [|done].
    apply find_elem_of in Hf as [Hin Hid]. by destruct (Hnone n Hin).
  - intros before n after Hl Hfirst.
    assert (notifications (markNotificationRead (Notification.id n) s)
            = before ++ Notification.mark_read n :: after) as Hnew.
    { unfold markNotificationRead.
      rewrite Hl, (find_middle _ before after n eq_refl Hfirst).
      cbn [notifications saveToStorage set_notifications].
      replace (length before) with (length before + 0)%nat by lia.
      by rewrite insert_app_r. }
    split; [done|].
    intros userId. unfold getUnreadNotificationCount.
    rewrite Hnew, Hl, !List.filter_app, !length_app. simpl.
    destruct (decide _) as [[-> Hunread]|Hnot].
    + rewrite Hunread, bool_decide_true by done. simpl. lia.
    + rewrite andb_false_r.
      destruct (bool_decide _ && _) eqn:Hb; [|simpl; lia].
      apply andb_prop in Hb as [Hu%bool_decide_eq_true Hr%negb_true_iff].
      destruct Hnot. by split.
Qed.

(** ** Assigning a driver *)

Lemma deleteDriver_refused driverId s d q :
  getDriverById driverId s = Some d →
  q ∈ activeParcels driverId s →
  ∃ k, (0 < k)%nat
       ∧ deleteDriver driverId s
         = (s, failure ("Cannot delete driver with " +:+ pretty k
                          +:+ " active delivery(ies)")).
Proof.
  intros Hd Hq. exists (length (activeParcels driverId s)).
  assert (0 < length (activeParcels driverId s))%nat as Hpos.
  { destruct (activeParcels driverId s); [by apply elem_of_nil in Hq|].
    simpl. lia. }
  split; [done|]. unfold getDriverById in Hd. unfold deleteDriver.
  destruct (list_find _ (drivers s)) as [[index d']|]; [|done].
  by rewrite decide_True.
Qed.

(** X21. [assignDriver] returns [undefined] and changes nothing when the
    store has no driver or no parcel of the given id.  Otherwise, whatever
    the parcel's status was and whether or not the driver is available, the
    first parcel of that id is put in transit with the driver's id and
    name; [getParcelById] and [getParcelsByDriver] then return it; the
    client and the driver each get one unread notification, in this order;
    the drivers are left as they are; and [deleteDriver] then refuses to
    delete the driver. *)
Theorem assignDriver_puts_in_transit parcelId driverId s :
  (getDriverById driverId s = None →
   assignDriver env parcelId driverId s = (s, None))
  ∧ (getParcelById parcelId s = None →
     assignDriver env parcelId driverId s = (s, None))
  ∧ (∀ d p,
       getDriverById driverId s = Some d →
       getParcelById parcelId s = Some p →
       ∃ q n1 n2,
         (assignDriver env parcelId driverId s).2 = Some q
         ∧ Parcel.id q = parcelId
         ∧ Parcel.status (Parcel.rest q) = "in-transit"
         ∧ Parcel.driverId (Parcel.rest q) = Some driverId
         ∧ Parcel.driverName (Parcel.rest q)
           = Some (Driver.name (Driver.rest d))
         ∧ Parcel.clientId (Parcel.rest q) = Parcel.clientId (Parcel.rest p)
         ∧ Parcel.updatedAt q = clock env (reads s)
         ∧ getParcelById parcelId (assignDriver env parcelId driverId s).1
           = Some q
         ∧ q ∈ getParcelsByDriver driverId
                 (assignDriver env parcelId driverId s).1
         ∧ notifications (assignDriver env parcelId driverId s).1
           = notifications s ++ [n1; n2]
         ∧ Notification.userId (Notification.rest n1)
           = Parcel.clientId (Parcel.rest p)
         ∧ Notification.userId (Notification.rest n2) = driverId
         ∧ Notification.read (Notification.rest n1) = false
         ∧ Notification.read (Notification.rest n2) = false
         ∧ drivers (assignDriver env parcelId driverId s).1 = drivers s
         ∧ ∃ k, (0 < k)%nat
                ∧ deleteDriver driverId
                    (assignDriver env parcelId driverId s).1
                  = ((assignDriver env parcelId driverId s).1,
                     failure ("Cannot delete driver with " +:+ pretty k
                                +:+ " active delivery(ies)"))).
Proof.
  split_and!.
  - unfold getDriverById, assignDriver.
    by destruct (list_find _ (drivers s)) as [[index d]|].
  - unfold getParcelById, assignDriver, updateParcel.
    destruct (list_find _ (drivers s)) as [[index d]|]; [|done].
    by destruct (list_find _ (parcels s)) as [[k p]|].
  - intros d p Hd Hp.
    pose proof Hd as Hd'. pose proof Hp as Hp'.
    unfold getDriverById in Hd'. unfold getParcelById in Hp'.
    destruct (list_find (λ d, Driver.id d = driverId) (drivers s))
      as [[k d']|] eqn:Hfd; [|done].
    destruct (list_find (λ p, Parcel.id p = parcelId) (parcels s))
      as [[index p']|] eqn:Hfp; [|done].
    simpl in Hd', Hp'. injection Hd' as ->. injection Hp' as ->.
    pose proof Hfp as (Hi & Hpid & _)%list_find_Some.
    unfold assignDriver. rewrite Hfd.
    rewrite (updateParcel_found parcelId _ s index p Hfp).
    set (q := Parcel.spread p
                (assignment driverId (Driver.name (Driver.rest d)))
                (clock env (reads s))).
    assert (Parcel.id q = parcelId) as Hqid by done.
    assert (getParcelById parcelId
              (set_parcels (<[index := q]> (parcels s)) s) = Some q) as Hget.
    { unfold getParcelById. simpl.
      by rewrite (list_find_insert_same _ _ index p _ Hfp Hqid). }
    assert (q ∈ <[index := q]> (parcels s)) as Hin.
    { apply (list_elem_of_lookup_2 _ index).
      apply list_lookup_insert_eq. by eapply lookup_lt_Some. }
    eexists q, _, _. cbn [fst snd].
    split_and!; try done.
    + apply list_elem_of_In, List.filter_In.
      split; [by apply list_elem_of_In|]. by apply bool_decide_eq_true.
    + cbn [notifications addNotification fst now saveToStorage
           set_notifications set_parcels].
      rewrite <- app_assoc. reflexivity.
    + done.
    + done.
    + done.
    + done.
    + apply (deleteDriver_refused _ _ d q).
      * exact Hd.
      * apply list_elem_of_In, List.filter_In.
        split; [by apply list_elem_of_In|].
        apply andb_true_intro. split; by apply bool_decide_eq_true.
Qed.

(** X22. [acceptParcel] and [deliverParcel] with an id the store does not
    have return [undefined] and change nothing: no notification is sent.
    With an id it has, whatever the parcel's status was, they return the
    first parcel of that id with the status 'accepted' or 'delivered', its
    driver kept; [getParcelById] then returns that parcel, and its client
    gets one unread 'success' notification. *)
Theorem accept_and_deliver_notify_the_client parcelId s :
  (getParcelById parcelId s = None →
   acceptParcel env parcelId s = (s, None)
   ∧ deliverParcel env parcelId s = (s, None))
  ∧ (∀ p, getParcelById parcelId s = Some p →
       ∀ op status,
         (op = acceptParcel env ∧ status = "accepted")
         ∨ (op = deliverParcel env ∧ status = "delivered") →
         ∃ q n,
           (op parcelId s).2 = Some q
           ∧ Parcel.id q = parcelId
           ∧ Parcel.status (Parcel.rest q) = status
           ∧ Parcel.driverId (Parcel.rest q) = Parcel.driverId (Parcel.rest p)
           ∧ Parcel.clientId (Parcel.rest q) = Parcel.clientId (Parcel.rest p)
           ∧ Parcel.updatedAt q = clock env (reads s)
           ∧ getParcelById parcelId (op parcelId s).1 = Some q
           ∧ notifications (op parcelId s).1 = notifications s ++ [n]
           ∧ Notification.userId (Notification.rest n)
             = Parcel.clientId (Parcel.rest p)
           ∧ Notification.type (Notification.rest n) = "success"
           ∧ Notification.read (Notification.rest n) = false
           ∧ drivers (op parcelId s).1 = drivers s).
Proof.
  split.
  - unfold getParcelById, acceptParcel, deliverParcel, updateParcel.
    by destruct (list_find _ (parcels s)) as [[k p]|].
  - intros p Hp op status Hop.
    unfold getParcelById in Hp.
    destruct (list_find (λ p, Parcel.id p = parcelId) (parcels s))
      as [[index p']|] eqn:Hfp; [|done].
    simpl in Hp. injection Hp as ->.
    pose proof Hfp as (Hi & Hpid & _)%list_find_Some.
    assert (∀ q, Parcel.id q = parcelId →
              getParcelById parcelId
                (set_parcels (<[index := q]> (parcels s)) s) = Some q) as Hget.
    { intros q Hqid. unfold getParcelById. simpl.
      by rewrite (list_find_insert_same _ _ index p _ Hfp Hqid). }
    destruct Hop as [[-> ->]|[-> ->] ].
    + unfold acceptParcel.
      rewrite (updateParcel_found parcelId _ s index p Hfp).
      eexists _, _. cbn [fst snd]. split_and!; try done.
      by apply Hget.
    + unfold deliverParcel.
      rewrite (updateParcel_found parcelId _ s index p Hfp).
      eexists _, _. cbn [fst snd]. split_and!; try done.
      by apply Hget.
Qed.

(** ** Updating a driver *)

Lemma updateDriver_found driverId u s index d :
  list_find (λ d, Driver.id d = driverId) (drivers s) = Some (index, d) →
  (∀ e other,
     Driver.set_email u = Some e → e ≠ "" → other ∈ drivers s →
     Driver.id other ≠ driverId →
     ¬ same_email env (Driver.email (Driver.rest other)) e) →
  updateDriver env driverId u s
  = (saveToStorage
       (set_drivers (<[index := Driver.spread d u]> (drivers s)) s),
     success (Driver.spread d u)).
Proof.
  intros Hf Hfree. unfold updateDriver. rewrite Hf.
  destruct (Driver.set_email u) as [e|]; [|done].
  destruct (decide (e = "")) as [|Hne]; [done|].
  destruct (list_find
              (λ d', same_email env (Driver.email (Driver.rest d')) e
                     ∧ Driver.id d' ≠ driverId) (drivers s))
    as [[k other]|] eqn:Hdup; [|done].
  apply find_elem_of in Hdup as [Hin HP]. cbv beta in HP.
  destruct HP as [Hsame Hid].
  by destruct (Hfree e other eq_refl Hne Hin Hid).
Qed.

(** X23. [updateDriver] and [updateDriverLocation] with an id the store
    does not have change nothing; [updateDriver] then reports 'Driver not
    found'.  [updateDriver] refuses, changing nothing, a new email that is
    not empty and that another driver has, case aside.  Otherwise it
    succeeds with the first driver of that id, the given fields replaced and
    the id kept; [getDriverById] then returns that driver for this id and
    what it returned before for any other id; the parcels, and so the
    driver's name they carry, and the notifications are left as they are.
    [updateDriverLocation] replaces the location of the first driver of
    that id and nothing else: every other field of that driver, every
    other driver, the parcels and the notifications are as before. *)
Theorem updateDriver_then_getDriverById driverId s :
  (getDriverById driverId s = None →
   (∀ u, updateDriver env driverId u s = (s, failure "Driver not found"))
   ∧ (∀ location, updateDriverLocation driverId location s = s))
  ∧ (∀ d u e other,
       getDriverById driverId s = Some d →
       Driver.set_email u = Some e → e ≠ "" →
       other ∈ drivers s → Driver.id other ≠ driverId →
       same_email env (Driver.email (Driver.rest other)) e →
       updateDriver env driverId u s
       = (s, failure "A driver with this email already exists"))
  ∧ (∀ d u,
       getDriverById driverId s = Some d →
       (∀ e other,
          Driver.set_email u = Some e → e ≠ "" → other ∈ drivers s →
          Driver.id other ≠ driverId →
          ¬ same_email env (Driver.email (Driver.rest other)) e) →
       (updateDriver env driverId u s).2 = success (Driver.spread d u)
       ∧ Driver.id (Driver.spread d u) = driverId
       ∧ getDriverById driverId (updateDriver env driverId u s).1
         = Some (Driver.spread d u)
       ∧ (∀ other, other ≠ driverId →
            getDriverById other (updateDriver env driverId u s).1
            = getDriverById other s)
       ∧ parcels (updateDriver env driverId u s).1 = parcels s
       ∧ notifications (updateDriver env driverId u s).1 = notifications s)
  ∧ (∀ d location,
       getDriverById driverId s = Some d →
       getDriverById driverId (updateDriverLocation driverId location s)
       = Some {| Driver.id := driverId;
                 Driver.rest :=
                   {| Driver.name := Driver.name (Driver.rest d);
                      Driver.email := Driver.email (Driver.rest d);
                      Driver.phone := Driver.phone (Driver.rest d);
                      Driver.vehicleType := Driver.vehicleType (Driver.rest d);
                      Driver.vehicleNumber :=
                        Driver.vehicleNumber (Driver.rest d);
                      Driver.isAvailable := Driver.isAvailable (Driver.rest d);
                      Driver.rating := Driver.rating (Driver.rest d);
                      Driver.currentLocation := location |} |}
       ∧ (∃ index,
            drivers s !! index = Some d
            ∧ ∀ j, j ≠ index →
                drivers (updateDriverLocation driverId location s) !! j
                = drivers s !! j)
       ∧ length (drivers (updateDriverLocation driverId location s))
         = length (drivers s)
       ∧ (∀ other, other ≠ driverId →
            getDriverById other (updateDriverLocation driverId location s)
            = getDriverById other s)
       ∧ parcels (updateDriverLocation driverId location s) = parcels s
       ∧ notifications (updateDriverLocation driverId location s)
         = notifications s).
Proof.
  unfold getDriverById. split_and!.
  - intros Hnone. unfold updateDriver, updateDriverLocation.
    by destruct (list_find _ (drivers s)) as [[index d]|].
  - intros d u e other Hd He Hne Hin Hid Hsame. unfold updateDriver.
    destruct (list_find (λ d, Driver.id d = driverId) (drivers s))
      as [[index d']|]; [|done].
    rewrite He, decide_False by done.
    destruct (list_find _ (drivers s)) as [[k x]|] eqn:Hdup; [done|].
    apply list_find_None in Hdup. rewrite Forall_forall in Hdup.
    by destruct (Hdup other Hin).
  - intros d u Hd Hfree.
    destruct (list_find (λ d, Driver.id d = driverId) (drivers s))
      as [[index d']|] eqn:Hf; [|done].
    simpl in Hd. injection Hd as ->.
    rewrite (updateDriver_found driverId u s index d Hf Hfree).
    pose proof Hf as (Hi & Hdid & _)%list_find_Some.
    cbn [fst snd]. split_and!; try done.
    + simpl.
      by rewrite (list_find_insert_same _ _ index d (Driver.spread d u)
                    Hf Hdid).
    + intros other Hne. simpl.
      rewrite (list_find_insert_other _ _ index d);
        [done|done|congruence|simpl; congruence].
  - intros d location Hd.
    destruct (list_find (λ d, Driver.id d = driverId) (drivers s))
      as [[index d']|] eqn:Hf; [|done].
    simpl in Hd. injection Hd as ->.
    pose proof Hf as (Hi & Hdid & _)%list_find_Some.
    unfold updateDriverLocation. rewrite Hf.
    split_and!.
    + simpl. rewrite (list_find_insert_same _ _ index d _ Hf);
        [by rewrite <- Hdid|].
      exact Hdid.
    + exists index. split; [done|]. intros j Hne. simpl.
      by rewrite list_lookup_insert_ne.
    + simpl. apply length_insert.
    + intros other Hne. simpl.
      rewrite (list_find_insert_other _ _ index d);
        [done|done|congruence|simpl; congruence].
    + done.
    + done.
Qed.

(** ** Notifications added in the same millisecond *)

(** X24. The ids of notifications are made of the clock's reading alone.
    When [assignDriver] adds its two notifications within one millisecond
    they get the same id, and [markNotificationRead] with the id of the
    driver's notification marks the client's notification instead: the
    driver's notification stays unread. *)
Theorem same_millisecond_notifications_share_an_id parcelId driverId s d p :
  clock env (3 + reads s)%nat = clock env (1 + reads s)%nat →
  getDriverById driverId s = Some d →
  getParcelById parcelId s = Some p →
  (∀ n, n ∈ notifications s →
     Notification.id n ≠ "notif-" +:+ pretty (clock env (1 + reads s)%nat)) →
  ∃ n1 n2,
    notifications (assignDriver env parcelId driverId s).1
    = notifications s ++ [n1; n2]
    ∧ Notification.userId (Notification.rest n1)
      = Parcel.clientId (Parcel.rest p)
    ∧ Notification.userId (Notification.rest n2) = driverId
    ∧ Notification.id n2 = Notification.id n1
    ∧ notifications
        (markNotificationRead (Notification.id n2)
           (assignDriver env parcelId driverId s).1)
      = notifications s ++ [Notification.mark_read n1; n2]
    ∧ Notification.read (Notification.rest n2) = false.
Proof.
  intros Hclock Hd Hp Hfresh. cbn [Nat.add] in Hclock, Hfresh.
  unfold getDriverById in Hd. unfold getParcelById in Hp.
  destruct (list_find (λ d, Driver.id d = driverId) (drivers s))
    as [[k d']|] eqn:Hfd; [|done].
  destruct (list_find (λ p, Parcel.id p = parcelId) (parcels s))
    as [[index p']|] eqn:Hfp; [|done].
  simpl in Hd, Hp. injection Hd as ->. injection Hp as ->.
  unfold assignDriver. rewrite Hfd.
  rewrite (updateParcel_found parcelId _ s index p Hfp).
  eexists _, _. cbn [fst snd]. split_and!.
  - cbn [notifications addNotification fst now saveToStorage
         set_notifications set_parcels].
    rewrite <- app_assoc. reflexivity.
  - done.
  - done.
  - simpl. by rewrite Hclock.
  - unfold markNotificationRead.
    cbn [notifications addNotification fst snd now saveToStorage
         set_notifications set_parcels reads Notification.id].
    rewrite <- app_assoc. cbn [app].
    rewrite Hclock.
    rewrite (find_middle _ (notifications s) [_]); [|done|done].
    cbn [notifications saveToStorage set_notifications].
    replace (length (notifications s))
      with (length (notifications s) + 0)%nat by lia.
    by rewrite insert_app_r.
  - done.
Qed.

(** ** The tests of the two properties are sound *)

Lemma unique_emailsb_spec l :
  unique_emailsb env l = true → unique_emails env l.
Proof.
  induction l as [|a l IH]; simpl.
  - intros _ i j x y Hi. by rewrite lookup_nil in Hi.
  - intros [Hall Hrest]%andb_prop. rewrite forallb_forall in Hall.
    intros i j x y Hi Hj Hsame.
    destruct i as [|i], j as [|j]; simpl in *.
    + done.
    + injection Hi as <-. exfalso.
      apply list_elem_of_lookup_2, list_elem_of_In in Hj.
      specialize (Hall y Hj).
      by apply negb_true_iff, bool_decide_eq_false in Hall.
    + injection Hj as <-. exfalso.
      apply list_elem_of_lookup_2, list_elem_of_In in Hi.
      specialize (Hall x Hi).
      apply negb_true_iff, bool_decide_eq_false in Hall.
      apply Hall. unfold same_email in *. congruence.
    + f_equal. by apply (IH Hrest i j x y).
Qed.

Lemma assigned_existb_spec s : assigned_existb s = true → assigned_exist s.
Proof.
  unfold assigned_existb. rewrite forallb_forall.
  intros Hall p driverId Hp Hst Hdr.
  apply list_elem_of_In in Hp. specialize (Hall p Hp).
  rewrite bool_decide_true, Hdr in Hall by done.
  apply bool_decide_eq_true, list_elem_of_fmap in Hall as (d & -> & Hin).
  by exists d.
Qed.

End store_properties.

(** ** The properties on the sample store *)

Section store_samples.
Import Store.

Lemma updateParcel_then_getParcelById_witness :
  getParcelById "parcel-2" StoreSample.store = Some StoreSample.parcel_2
  ∧ getParcelById "parcel-2"
      (updateParcel StoreSample.env "parcel-2" (status_only "accepted")
         StoreSample.store).1
    = (updateParcel StoreSample.env "parcel-2" (status_only "accepted")
         StoreSample.store).2.
Proof.
  split; [reflexivity|].
  exact (proj1 (proj2 (proj2 (updateParcel_then_getParcelById
                                StoreSample.env "parcel-2"
                                (status_only "accepted") StoreSample.store)
                         StoreSample.parcel_2 eq_refl eq_refl))).
Defined.

Lemma rejectParcel_removes_the_parcel_witness :
  getParcelById "parcel-1" StoreSample.store = Some StoreSample.parcel_1
  ∧ getParcelById "parcel-1"
      (rejectParcel StoreSample.env "parcel-1" StoreSample.store).1 = None.
Proof.
  split; [reflexivity|].
  exact (proj1 (proj2 (proj2 (rejectParcel_removes_the_parcel
                                StoreSample.env "parcel-1" StoreSample.store)
                         StoreSample.parcel_1 eq_refl))).
Defined.

Lemma addParcel_then_getParcelById_witness :
  getParcelById "parcel-1767866400000" StoreSample.store = None
  ∧ getParcelById "parcel-1767866400000"
      (addParcel StoreSample.env StoreSample.request StoreSample.store).1
    = Some (addParcel StoreSample.env StoreSample.request
              StoreSample.store).2.
Proof.
  split; [reflexivity|].
  pose proof (addParcel_then_getParcelById StoreSample.env StoreSample.request
                StoreSample.store) as H.
  cbv zeta in H. destruct H as (_ & _ & _ & H & _).
  exact (H eq_refl).
Defined.

Lemma driver_emails_stay_unique_witness :
  unique_emails StoreSample.env (drivers StoreSample.store)
  ∧ StoreSample.meera ∈ drivers StoreSample.store
  ∧ same_email StoreSample.env
      (Driver.email (Driver.rest StoreSample.meera))
      (Driver.email StoreSample.newcomer)
  ∧ addDriver StoreSample.env StoreSample.newcomer StoreSample.store
    = (StoreSample.store, failure "A driver with this email already exists").
Proof.
  assert (unique_emails StoreSample.env (drivers StoreSample.store)) as Hu
    by (apply unique_emailsb_spec; reflexivity).
  assert (StoreSample.meera ∈ drivers StoreSample.store) as Hin
    by apply list_elem_of_further, list_elem_of_here.
  split_and!; [exact Hu|exact Hin|reflexivity|].
  exact (proj1 (proj2 (driver_emails_stay_unique StoreSample.env
                         StoreSample.store Hu))
           StoreSample.newcomer StoreSample.meera Hin eq_refl).
Defined.

Lemma drivers_of_parcels_in_transit_exist_witness :
  assigned_exist StoreSample.store
  ∧ is_Some (getDriverById "driver-1" StoreSample.store)
  ∧ activeParcels "driver-1" StoreSample.store ≠ []
  ∧ deleteDriver "driver-1" StoreSample.store
    = (StoreSample.store,
       failure "Cannot delete driver with 1 active delivery(ies)")
  ∧ ¬ assigned_exist
        (updateParcel StoreSample.env "parcel-2"
           (assignment "driver-9" "Nobody") StoreSample.store).1.
Proof.
  assert (assigned_exist StoreSample.store) as Ha
    by (apply assigned_existb_spec; reflexivity).
  assert (is_Some (getDriverById "driver-1" StoreSample.store)) as Hd
    by (by exists StoreSample.ravi).
  assert (activeParcels "driver-1" StoreSample.store ≠ []) as Hact
    by discriminate.
  destruct (drivers_of_parcels_in_transit_exist StoreSample.env
              StoreSample.store Ha)
    as (_ & _ & Hrefused & _ & _ & _ & _ & _ & _ & _ & Hupdate & _).
  split_and!; [exact Ha|exact Hd|exact Hact| |].
  - exact (Hrefused "driver-1" Hd Hact).
  - intros Hbad.
    pose proof (proj1 (Hupdate "parcel-2" (assignment "driver-9" "Nobody"))
                  Hbad) as Hknown.
    destruct (Hknown _ eq_refl eq_refl "driver-9" eq_refl)
      as (d & Hin & Hid).
    apply elem_of_cons in Hin as [->|Hin]; [discriminate Hid|].
    apply list_elem_of_singleton in Hin as ->. discriminate Hid.
Defined.

Lemma reading_notifications_witness :
  getUnreadNotificationCount "client-1" StoreSample.store = 1%nat
  ∧ getUnreadNotificationCount "client-1"
      (markAllNotificationsRead "client-1" StoreSample.store) = 0%nat.
Proof.
  split; [reflexivity|].
  exact (proj1 (reading_notifications StoreSample.store) "client-1").
Defined.

Lemma assignDriver_puts_in_transit_witness :
  getDriverById "driver-2" StoreSample.store = Some StoreSample.meera
  ∧ getParcelById "parcel-2" StoreSample.store = Some StoreSample.parcel_2
  ∧ ∃ q,
      (assignDriver StoreSample.env "parcel-2" "driver-2"
         StoreSample.store).2 = Some q
      ∧ Parcel.status (Parcel.rest q) = "in-transit"
      ∧ Parcel.driverId (Parcel.rest q) = Some "driver-2".
Proof.
  split; [reflexivity|]. split; [reflexivity|].
  destruct (proj2 (proj2 (assignDriver_puts_in_transit StoreSample.env
                            "parcel-2" "driver-2" StoreSample.store))
              StoreSample.meera StoreSample.parcel_2 eq_refl eq_refl)
    as (q & n1 & n2 & Hq & _ & Hst & Hdr & _).
  exists q. split_and!; assumption.
Defined.

Lemma accept_and_deliver_notify_the_client_witness :
  getParcelById "parcel-1" StoreSample.store = Some StoreSample.parcel_1
  ∧ ∃ q,
      (deliverParcel StoreSample.env "parcel-1" StoreSample.store).2 = Some q
      ∧ Parcel.status (Parcel.rest q) = "delivered"
      ∧ Parcel.driverId (Parcel.rest q) = Some "driver-1".
Proof.
  split; [reflexivity|].
  destruct (proj2 (accept_and_deliver_notify_the_client StoreSample.env
                     "parcel-1" StoreSample.store)
              StoreSample.parcel_1 eq_refl
              (deliverParcel StoreSample.env) "delivered"
              (or_intror (conj eq_refl eq_refl)))
    as (q & n & Hq & _ & Hst & Hdr & _).
  exists q. split_and!; [assumption|assumption|exact Hdr].
Defined.

Lemma updateDriver_then_getDriverById_witness :
  getDriverById "driver-1" StoreSample.store = Some StoreSample.ravi
  ∧ StoreSample.meera ∈ drivers StoreSample.store
  ∧ same_email StoreSample.env
      (Driver.email (Driver.rest StoreSample.meera)) "MEERA@routex.com"
  ∧ updateDriver StoreSample.env "driver-1"
      (StoreSample.new_email "MEERA@routex.com") StoreSample.store
    = (StoreSample.store, failure "A driver with this email already exists").
Proof.
  assert (StoreSample.meera ∈ drivers StoreSample.store) as Hin
    by apply list_elem_of_further, list_elem_of_here.
  split_and!; [reflexivity|exact Hin|reflexivity|].
  apply (proj1 (proj2 (updateDriver_then_getDriverById StoreSample.env
                         "driver-1" StoreSample.store))
           StoreSample.ravi (StoreSample.new_email "MEERA@routex.com")
           "MEERA@routex.com" StoreSample.meera).
  - reflexivity.
  - reflexivity.
  - discriminate.
  - exact Hin.
  - discriminate.
  - reflexivity.
Defined.

Lemma same_millisecond_notifications_share_an_id_witness :
  clock StoreSample.env (3 + reads StoreSample.store)%nat
  = clock StoreSample.env (1 + reads StoreSample.store)%nat
  ∧ ∃ n1 n2,
      notifications
        (assignDriver StoreSample.env "parcel-2" "driver-2"
           StoreSample.store).1
      = notifications StoreSample.store ++ [n1; n2]
      ∧ Notification.id n2 = Notification.id n1
      ∧ notifications
          (markNotificationRead (Notification.id n2)
             (assignDriver StoreSample.env "parcel-2" "driver-2"
                StoreSample.store).1)
        = notifications StoreSample.store
            ++ [Notification.mark_read n1; n2].
Proof.
  split; [reflexivity|].
  destruct (same_millisecond_notifications_share_an_id StoreSample.env
              "parcel-2" "driver-2" StoreSample.store
              StoreSample.meera StoreSample.parcel_2)
    as (n1 & n2 & Hl & _ & _ & Hid & Hread & _).
  - reflexivity.
  - reflexivity.
  - reflexivity.
  - intros n Hin. apply list_elem_of_singleton in Hin as ->. discriminate.
  - exists n1, n2. split_and!; assumption.
Defined.

End store_samples.

(** * Properties of the broadcast core *)

Section core_properties.
Import Core.

(** ** Out-of-range samples *)

Lemma in_range_false sample :
  in_range sample = false ↔
  (latitude sample < -90 ∨ 90 < latitude sample
   ∨ longitude sample < -180 ∨ 180 < longitude sample)%Q.
Proof.
  unfold in_range.
  rewrite !andb_false_iff, <- !not_true_iff_false, !Qle_bool_iff.
  split.
  - intros [[[H|H]|H]|H]; apply Qnot_le_lt in H; tauto.
  - intros [H|[H|[H|H]]]; apply Qlt_not_le in H; tauto.
Qed.

Lemma Publish_out_of_range dir sid s sample σ :
  sessions σ !! sid = Some s → in_range sample = false →
  Publish dir sid sample σ = (σ, RejectedSample invalid_coordinates, []).
Proof. intros Hs Hr. unfold Publish. by rewrite Hs, Hr. Qed.

(** C7. A sample whose latitude is outside [-90, 90] or whose longitude is
    outside [-180, 180] is rejected by [Publish] with reason
    [invalid_coordinates], whoever the session is; the state is left as it
    was, so nothing is broadcast, nothing is written and no counter moves.
    Sent as a [location_update] on an open session it is rejected, the only
    output is one [error] message to the sender, nothing else changes and
    the session stays open; on a courier's session, where it reaches
    [Publish], the rejection is classified [InvalidPayload]. *)
Theorem publish_rejects_invalid_coordinates dir now sid s σ
    lat lng address parcel_id :
  sessions σ !! sid = Some s →
  (lat < -90 ∨ 90 < lat ∨ lng < -180 ∨ 180 < lng)%Q →
  (∀ sample,
     latitude sample = lat → longitude sample = lng →
     Publish dir sid sample σ = (σ, RejectedSample invalid_coordinates, []))
  ∧ (conn s = open →
     ∃ rejection text,
       receive dir now sid (location_update lat lng address parcel_id) σ
       = (σ, Some rejection, [Deliver sid (error_message text)])
       ∧ (role (actor s) = courier →
          rejection = taxonomy invalid_coordinates
          ∧ rejection = InvalidPayload)
       ∧ (conn <$> sessions σ !! sid) = Some open).
Proof.
  intros Hs Hout. split.
  - intros sample Hlat Hlng. apply (Publish_out_of_range dir sid s); [done|].
    apply in_range_false. by rewrite Hlat, Hlng.
  - intros Hopen. unfold receive. rewrite Hs, Hopen. simpl fmap.
    rewrite Hopen.
    destruct (role (actor s)) eqn:Hrole.
    + rewrite (Publish_out_of_range dir sid s); [|done|by apply in_range_false].
      by exists InvalidPayload, invalid_text.
    + exists AuthorizationDenied, only_drivers.
      split; [done|]. split; [intros; discriminate | done].
    + exists AuthorizationDenied, only_drivers.
      split; [done|]. split; [intros; discriminate | done].
Qed.

Lemma publish_rejects_invalid_coordinates_witness :
  ∃ rejection text,
    receive CoreSample.dir "now" 1%nat
      (location_update (91 # 1) (772090 # 10000) "Delhi" (Some 7))
      CoreSample.state
    = (CoreSample.state, Some rejection,
       [Deliver 1%nat (error_message text)])
    ∧ rejection = InvalidPayload
    ∧ (conn <$> sessions CoreSample.state !! 1%nat) = Some open.
Proof.
  destruct (publish_rejects_invalid_coordinates CoreSample.dir "now" 1%nat
              CoreSample.courier_session CoreSample.state
              (91 # 1) (772090 # 10000) "Delhi" (Some 7))
    as [_ Hreceive].
  { reflexivity. }
  { right. left. reflexivity. }
  destruct (Hreceive eq_refl) as (rejection & text & Hr & Hclass & Hopen).
  exists rejection, text. split; [exact Hr|].
  split; [exact (proj2 (Hclass eq_refl)) | exact Hopen].
Defined.

(** ** Role enforcement *)

Lemma CanPublish_courier_only dir a shipment :
  role a ≠ courier → CanPublish dir a shipment = false.
Proof. unfold CanPublish. by destruct (role a). Qed.

(** Targets none of which may be published to: every one is rejected and
    nothing else happens. *)
Lemma publish_targets_denied dir sid a sample targets σ :
  (∀ shipment, shipment ∈ targets → CanPublish dir a shipment = false) →
  publish_targets dir sid a sample targets σ
  = (σ, (λ shipment, (shipment, Rejected unauthorized)) <$> targets, []).
Proof.
  induction targets as [|shipment targets IH]; intros Hall; [done|].
  simpl. rewrite Hall by apply list_elem_of_here.
  rewrite IH; [done|]. intros t Ht. apply Hall. by apply list_elem_of_further.
Qed.

Lemma succeeded_all_rejected (targets : list Z) :
  succeeded (Targets ((λ shipment, (shipment, Rejected unauthorized)) <$> targets))
  = false.
Proof. induction targets as [|t targets IH]; [done|]. exact IH. Qed.

(** C5. A [location_update] sent on an open session whose actor is not a
    courier (an observer or an administrator) is rejected as
    [AuthorizationDenied] whatever its payload: the state is unchanged, the
    only output is one [error] message to the sender, so nothing is
    broadcast and nothing is written.  And [Publish] itself, called for
    such a session with any sample, never succeeds for any target, delivers
    nothing, writes nothing and leaves the state as it was; for a sample in
    range every target is rejected as [unauthorized]. *)
Theorem observer_cannot_publish dir now sid s σ :
  sessions σ !! sid = Some s → role (actor s) ≠ courier →
  (conn s = open →
   ∀ lat lng address parcel_id,
     ∃ text,
       receive dir now sid (location_update lat lng address parcel_id) σ
       = (σ, Some AuthorizationDenied, [Deliver sid (error_message text)]))
  ∧ (∀ sample,
       ∃ p, Publish dir sid sample σ = (σ, p, [])
            ∧ succeeded p = false
            ∧ (in_range sample = true →
               ∃ targets,
                 p = Targets ((λ shipment, (shipment, Rejected unauthorized))
                                <$> targets))).
Proof.
  intros Hs Hrole. split.
  - intros Hopen lat lng address parcel_id. exists only_drivers.
    unfold receive. rewrite Hs, Hopen. by destruct (role (actor s)).
  - intros sample. unfold Publish. rewrite Hs.
    destruct (in_range sample).
    + set (targets := match shipment_id sample with
                      | Some shipment => [shipment]
                      | None => elements (subscribed_to s)
                      end).
      rewrite (publish_targets_denied dir sid (actor s) sample targets σ)
        by (intros; by apply CanPublish_courier_only).
      eexists. split; [done|]. split; [apply succeeded_all_rejected|].
      intros _. by exists targets.
    + eexists. split; [done|]. split; [done|]. done.
Qed.

Lemma observer_cannot_publish_witness :
  ∃ text,
    receive CoreSample.dir "now" 2%nat
      (location_update (286139 # 10000) (772090 # 10000) "Delhi" (Some 7))
      CoreSample.state
    = (CoreSample.state, Some AuthorizationDenied,
       [Deliver 2%nat (error_message text)]).
Proof.
  eapply (observer_cannot_publish CoreSample.dir "now" 2%nat).
  - reflexivity.
  - discriminate.
  - reflexivity.
Defined.

(** ** Throttled persistence *)











#[local] Arguments Nat.modulo : simpl never.




(** ** The message that is broadcast *)

Lemma publish_to_delivers sid sample shipment σ o m :
  Deliver o m ∈ (publish_to sid sample shipment σ).2 →
  m = location_message sample shipment.
Proof.
  unfold publish_to.
  destruct (MaybePersist sid shipment sample _) as [σ2 written] eqn:Hw.
  cbn [snd]. intros [Hin|Hin]%elem_of_app.
  - unfold BroadcastTo in Hin.
    apply list_elem_of_fmap in Hin as (x & Hx & _). by injection Hx.
  - unfold MaybePersist in Hw.
    destruct (sessions _ !! sid) as [s|]; [|injection Hw as _ <-;
                                            by apply elem_of_nil in Hin].
    destruct (decide _); injection Hw as _ <-.
    + by apply list_elem_of_singleton in Hin.
    + by apply elem_of_nil in Hin.
Qed.

Lemma publish_targets_delivers dir sid a sample o m targets : ∀ σ,
  Deliver o m ∈ (publish_targets dir sid a sample targets σ).2 →
  ∃ shipment, shipment ∈ targets ∧ m = location_message sample shipment.
Proof.
  induction targets as [|shipment targets IH]; intros σ; simpl.
  - by intros ?%elem_of_nil.
  - destruct (CanPublish dir a shipment).
    + pose proof (publish_to_delivers sid sample shipment σ o m) as Hone.
      destruct (publish_to sid sample shipment σ) as [σ1 out1].
      specialize (IH σ1).
      destruct (publish_targets dir sid a sample targets σ1)
        as [[σ2 results] out2].
      cbn [snd] in *. intros [Hin|Hin]%elem_of_app.
      * exists shipment. split; [apply list_elem_of_here|by apply Hone].
      * destruct (IH Hin) as (x & Hx & ->).
        exists x. split; [by apply list_elem_of_further|done].
    + specialize (IH σ).
      destruct (publish_targets dir sid a sample targets σ)
        as [[σ2 results] out2].
      cbn [snd] in *. intros Hin. destruct (IH Hin) as (x & Hx & ->).
      exists x. split; [by apply list_elem_of_further|done].
Qed.

(** Whatever [Publish] delivers, to whomever, is a [driver_location]
    message whose own fields are the sample's courier, coordinates, label
    and capture time and the shipment it was published to: the object that
    [DriverLocationMessage] declares and that the clients' handlers
    read. *)
Lemma Publish_delivers_driver_location dir sid sample σ o m :
  Deliver o m ∈ (Publish dir sid sample σ).2 →
  ∃ shipment,
    m = driver_location
          {| msg_driver_id := courier_id sample;
             msg_lat := latitude sample;
             msg_lng := longitude sample;
             msg_address := label sample;
             msg_timestamp := capture_time sample;
             msg_parcel_id := Some shipment |}.
Proof.
  unfold Publish.
  destruct (sessions σ !! sid) as [s|]; [|by intros ?%elem_of_nil].
  destruct (in_range sample); [|by intros ?%elem_of_nil].
  pose proof (publish_targets_delivers dir sid (actor s) sample o m
                (match shipment_id sample with
                 | Some shipment => [shipment]
                 | None => elements (subscribed_to s)
                 end) σ) as Hall.
  destruct (publish_targets dir sid (actor s) sample _ σ)
    as [[σ' results] out].
  cbn [snd] in *. intros Hin. destruct (Hall Hin) as (shipment & _ & ->).
  by exists shipment.
Qed.

(** ** Terminal events *)

Lemma BroadcastTo_all σ shipment m :
  BroadcastTo σ shipment m None
  = (λ sid, Deliver sid m) <$> elements (group_members σ shipment).
Proof.
  unfold BroadcastTo. f_equal.
  induction (elements (group_members σ shipment)) as [|x l IH]; [done|].
  simpl. by f_equal.
Qed.

(** A list without repetitions holds each of its elements once. *)
Lemma count_NoDup {A} `{EqDecision A} (l : list A) (x : A) :
  NoDup l → x ∈ l →
  length (List.filter (λ y, bool_decide (y = x)) l) = 1%nat.
Proof.
  induction 1 as [|y l Hnot Hnd IH]; [by intros ?%elem_of_nil|].
  intros [->|Hin]%elem_of_cons; simpl.
  - rewrite bool_decide_true by done. simpl. f_equal.
    clear IH. induction l as [|z l IH]; [done|].
    apply not_elem_of_cons in Hnot as [Hne Hnot]. apply NoDup_cons in Hnd as [_ Hnd].
    simpl. rewrite bool_decide_false by done. by apply IH.
  - rewrite bool_decide_false; [by apply IH|]. intros ->. done.
Qed.
Lemma consistentb_spec σ : consistentb σ = true → consistent σ.
Proof.
  unfold consistentb.
  intros [Hg Hs]%andb_prop.
  apply bool_decide_eq_true in Hg, Hs.
  intros sid shipment. unfold group_members. split.
  - destruct (groups σ !! shipment) as [g|] eqn:Hlook;
      [|by intros ?%not_elem_of_empty].
    intros Hin. specialize (Hg shipment g Hlook sid Hin).
    unfold subscribed_in in Hg.
    destruct (sessions σ !! sid) as [s|]; [|done].
    exists s. split; [done|]. by apply bool_decide_eq_true in Hg.
  - intros (s & Hlook & Hin). exact (Hs sid s Hlook shipment Hin).
Qed.

Lemma ended_count_app sid shipment out1 out2 :
  ended_count sid shipment (out1 ++ out2)
  = (ended_count sid shipment out1 + ended_count sid shipment out2)%nat.
Proof. unfold ended_count. by rewrite List.filter_app, length_app. Qed.

Lemma ended_count_closes sid shipment (l : list nat) :
  ended_count sid shipment (CloseConnection <$> l) = 0%nat.
Proof. induction l as [|x l IH]; [done|]. exact IH. Qed.

Lemma ended_count_deliveries sid shipment text (l : list nat) :
  ended_count sid shipment
    ((λ to, Deliver to (tracking_ended shipment text)) <$> l)
  = length (List.filter (λ to, bool_decide (to = sid)) l).
Proof.
  unfold ended_count. induction l as [|x l IH]; [done|].
  simpl. rewrite (bool_decide_true (shipment = shipment)) by done.
  rewrite andb_true_r. destruct (bool_decide (x = sid)); simpl; [f_equal|];
  exact IH.
Qed.

(** The first terminal event for a shipment that has a group. *)
Lemma OnTerminal_first shipment σ g :
  groups σ !! shipment = Some g →
  (∀ sid, sid ∈ members g →
     ended_count sid shipment (OnTerminal shipment σ).2 = 1%nat)
  ∧ (∀ sid s, sessions σ !! sid = Some s → sid ∈ members g →
       subscribed_to s = {[shipment]} →
       CloseConnection sid ∈ (OnTerminal shipment σ).2
       ∧ (conn <$> sessions (OnTerminal shipment σ).1 !! sid) = Some closed)
  ∧ groups (OnTerminal shipment σ).1 !! shipment = None.
Proof.
  intros Hg. unfold OnTerminal. rewrite Hg. cbn [fst snd].
  split; [|split].
  - intros sid Hin.
    rewrite ended_count_app, ended_count_closes, BroadcastTo_all.
    unfold group_members. rewrite Hg, ended_count_deliveries.
    rewrite count_NoDup; [done|apply NoDup_elements|by apply elem_of_elements].
  - intros sid s Hs Hin Honly. split.
    + apply elem_of_app. right. apply list_elem_of_fmap. exists sid.
      split; [done|]. apply list_elem_of_In, List.filter_In. split.
      * by apply list_elem_of_In, elem_of_elements.
      * rewrite Hs. unfold only_for. by apply bool_decide_eq_true.
    + simpl. rewrite map_lookup_imap, Hs. simpl.
      rewrite decide_True by done. simpl.
      unfold only_for. by rewrite bool_decide_true.
  - simpl. apply lookup_delete_eq.
Qed.

(** A terminal event for a shipment that has no group does nothing. *)
Lemma OnTerminal_again shipment σ :
  groups σ !! shipment = None → OnTerminal shipment σ = (σ, []).
Proof. intros Hg. unfold OnTerminal. by rewrite Hg. Qed.

(** The hook's answer to [tracking_ended] on its open socket. *)
Lemma hook_tracking_ended opts h id p text now :
  wsRef h = Some id → sockets h !! id = Some OPEN →
  let c := step opts h (EvMessage id (Parsed (tracking_ended p text)) now) in
  sockets c.1 !! id = Some CLOSING
  ∧ wsRef c.1 = None
  ∧ intentionalDisconnectRef c.1 = true
  ∧ timers c.1 = match reconnectTimeoutRef h with
                 | Some handle => timers h ∖ {[handle]}
                 | None => timers h
                 end
  ∧ connectionState c.1 = ConnectionState.disconnected
  ∧ c.2 = match reconnectTimeoutRef h with
          | Some handle => [ClearTimeout handle]
          | None => []
          end ++ [WsClose id; OnConnectionChange ConnectionState.disconnected]
  ∧ (∀ now', step opts c.1
               (EvMessage id (Parsed (tracking_ended p text)) now')
             = (c.1, [])).
Proof.
  intros Hws Hopen c.
  assert (c = disconnect h) as ->.
  { subst c. simpl. by rewrite Hopen. }
  destruct (disconnect_fields h) as (Hi & Hw & _ & Hc & _ & Ht & Hs & _).
  rewrite Hws in Hs. unfold close_socket in Hs. rewrite Hopen in Hs.
  cbn [sockets set_sockets] in Hs.
  assert (sockets (disconnect h).1 !! id = Some CLOSING) as Hclosing.
  { rewrite Hs. apply list_lookup_insert_eq. by eapply lookup_lt_Some. }
  repeat split; try done.
  - rewrite disconnect_log, Hws. by destruct (reconnectTimeoutRef h).
  - intros now'. cbn [step]. by rewrite Hclosing.
Qed.

(** The admin page's answer to [tracking_ended] on an open socket. *)
Lemma admin_tracking_ended a parcelId ws p text :
  admin_sockets a !! ws = Some OPEN →
  let c := admin_message_event parcelId ws (Parsed (tracking_ended p text)) a in
  admin_sockets c.1 !! ws = Some CLOSING
  ∧ wsConnectionsRef c.1 !! parcelId = None
  ∧ (∀ q, q ∈ liveParcels c.1 → id q ≠ parcelId)
  ∧ admin_message_event parcelId ws (Parsed (tracking_ended p text)) c.1
    = (c.1, []).
Proof.
  intros Hopen c. subst c. unfold admin_message_event. rewrite Hopen.
  simpl. rewrite Hopen.
  assert (<[ws := CLOSING]> (admin_sockets a) !! ws = Some CLOSING) as Hc.
  { apply list_lookup_insert_eq. by eapply lookup_lt_Some. }
  rewrite Hc. repeat split; try done.
  - apply lookup_delete_eq.
  - intros q Hq%list_elem_of_In%List.filter_In. destruct Hq as [_ Hq].
    by apply bool_decide_eq_true in Hq.
Qed.

(** C6. Terminal-state handling is idempotent.  On the first terminal
    event for a shipment every member of its group is delivered exactly
    one [tracking_ended] message, every session subscribed to that
    shipment only is closed (its connection is closed and its state is
    [closed]) and the group is deallocated; a second terminal event for
    the same shipment changes nothing and produces no output, so no
    further message and no error.  On the receiving side the hook answers
    [tracking_ended] on its open socket with a deliberate disconnect (the
    socket is closing, the flag is up, the state is [disconnected], no
    [onError] call), and the admin page closes the parcel's socket and
    drops the parcel; a second [tracking_ended] on the closing socket is
    not handled and changes nothing. *)
Theorem terminal_event_is_idempotent shipment σ :
  consistent σ →
  (∀ sid, sid ∈ group_members σ shipment →
     ended_count sid shipment (OnTerminal shipment σ).2 = 1%nat)
  ∧ (∀ sid s, sessions σ !! sid = Some s → subscribed_to s = {[shipment]} →
       ended_count sid shipment (OnTerminal shipment σ).2 = 1%nat
       ∧ CloseConnection sid ∈ (OnTerminal shipment σ).2
       ∧ (conn <$> sessions (OnTerminal shipment σ).1 !! sid) = Some closed)
  ∧ OnTerminal shipment (OnTerminal shipment σ).1
    = ((OnTerminal shipment σ).1, [])
  ∧ (∀ opts h id p text now,
       wsRef h = Some id → sockets h !! id = Some OPEN →
       let c := step opts h (EvMessage id (Parsed (tracking_ended p text)) now) in
       sockets c.1 !! id = Some CLOSING
       ∧ intentionalDisconnectRef c.1 = true
       ∧ connectionState c.1 = ConnectionState.disconnected
       ∧ (∀ text', OnError text' ∉ c.2)
       ∧ (∀ now', step opts c.1
                    (EvMessage id (Parsed (tracking_ended p text)) now')
                  = (c.1, [])))
  ∧ (∀ a parcelId ws p text,
       admin_sockets a !! ws = Some OPEN →
       let c := admin_message_event parcelId ws
                  (Parsed (tracking_ended p text)) a in
       admin_sockets c.1 !! ws = Some CLOSING
       ∧ wsConnectionsRef c.1 !! parcelId = None
       ∧ (∀ q, q ∈ liveParcels c.1 → id q ≠ parcelId)
       ∧ admin_message_event parcelId ws (Parsed (tracking_ended p text)) c.1
         = (c.1, [])).
Proof.
  intros Hcons.
  assert (Hmember : ∀ sid, sid ∈ group_members σ shipment →
            ∃ g, groups σ !! shipment = Some g ∧ sid ∈ members g).
  { intros sid. unfold group_members.
    destruct (groups σ !! shipment) as [g|]; [eauto|by intros ?%not_elem_of_empty]. }
  split; [|split; [|split; [|split]]].
  - intros sid (g & Hg & Hin)%Hmember.
    by apply (OnTerminal_first shipment σ g Hg).
  - intros sid s Hs Honly.
    assert (sid ∈ group_members σ shipment) as (g & Hg & Hin)%Hmember.
    { apply Hcons. exists s. split; [done|]. rewrite Honly.
      by apply elem_of_singleton. }
    destruct (OnTerminal_first shipment σ g Hg) as (H1 & H2 & _).
    split; [by apply H1|]. by apply (H2 sid s).
  - apply OnTerminal_again.
    destruct (groups σ !! shipment) as [g|] eqn:Hg.
    + by apply (OnTerminal_first shipment σ g Hg).
    + by rewrite (OnTerminal_again shipment σ Hg).
  - intros opts h id p text now Hws Hopen.
    destruct (hook_tracking_ended opts h id p text now Hws Hopen)
      as (H1 & _ & H3 & _ & H5 & H6 & H7).
    repeat split; try done.
    rewrite H6. intros text' Hin.
    apply list_elem_of_In in Hin.
    destruct (reconnectTimeoutRef h); simpl in Hin; intuition discriminate.
  - intros a parcelId ws p text Hopen.
    by apply admin_tracking_ended.
Qed.

Lemma terminal_event_is_idempotent_witness :
  ended_count 2%nat 7 (OnTerminal 7 CoreSample.state).2 = 1%nat
  ∧ CloseConnection 2%nat ∈ (OnTerminal 7 CoreSample.state).2
  ∧ (conn <$> sessions (OnTerminal 7 CoreSample.state).1 !! 2%nat)
    = Some closed.
Proof.
  destruct (terminal_event_is_idempotent 7 CoreSample.state
              (consistentb_spec CoreSample.state eq_refl))
    as (_ & Honly & _).
  eapply Honly; reflexivity.
Defined.

End core_properties.
